(** * STOCO training loop (train.py): a shallow embedding and its properties

    The development follows [train.py]: the batch interleaving transform,
    the two learning-rate schedules, the pseudo-label generator and the
    depict target, the distributed gather of the depict denominator, the
    batch fetch with restart, the metric updates of a training step and
    the start-epoch logic of [main].

    Numbers: Python ints are [Z] (tensor dimensions, which are never
    negative, are [nat]); Python floats and tensor entries are idealised as
    real numbers [R], except in the step schedule, whose values are
    rationals and are computed in [Q], and in the divisions of the depict
    target, which keep the [inf] and [nan] of floating point. *)

From Stdlib Require Import List Arith ZArith QArith Reals Lra Lia String.
From stdpp Require Import gmap.
Import ListNotations.

(** ** Part I: the program *)

(** *** Batch interleaving ([interleave], [de_interleave])

    A tensor of shape [[N, d1, ...]] is the list of its [N] slices along
    the leading axis; a slice is a value of an arbitrary type [A] and holds
    at least one element (on a tensor without elements [reshape] cannot
    infer the [-1] dimension and raises).  A tensor of shape
    [[r, c, d1, ...]] is a list of [r] rows of [c] slices. *)
Module Interleave.
Section Tensor.
Context {A : Type}.

(** Row-major split of [x] into [rows] rows of [cols] slices. *)
Fixpoint chunks (rows cols : nat) (x : list A) : list (list A) :=
  match rows with
  | O => []
  | S r => take cols x :: chunks r cols (drop cols x)
  end.

(** [x.reshape([-1, size] + s[1:])]: the number of rows is inferred;
    [None] is the RuntimeError of an impossible reshape. *)
Definition reshape_rows_inferred (size : nat) (x : list A)
  : option (list (list A)) :=
  if (size =? 0)%nat then None
  else if (length x mod size =? 0)%nat
       then Some (chunks (length x / size) size x)
       else None.

(** [x.reshape([size, -1] + s[1:])]: the number of columns is inferred. *)
Definition reshape_cols_inferred (size : nat) (x : list A)
  : option (list (list A)) :=
  if (size =? 0)%nat then None
  else if (length x mod size =? 0)%nat
       then Some (chunks size (length x / size) x)
       else None.

(** [m.transpose(0, 1)] of a tensor with [cols] columns: row [j] of the
    result collects the [j]-th slice of every row of [m]. *)
Fixpoint transpose (cols : nat) (m : list (list A)) : list (list A) :=
  match m with
  | [] => replicate cols []
  | r :: m' => zip_with cons r (transpose cols m')
  end.

(** [m.reshape([-1] + s[1:])]: the first two axes are flattened. *)
Definition flatten (m : list (list A)) : list A := concat m.

Definition interleave (x : list A) (size : nat) : option (list A) :=
  match reshape_rows_inferred size x with
  | Some m => Some (flatten (transpose size m))
  | None => None
  end.

Definition de_interleave (x : list A) (size : nat) : option (list A) :=
  match reshape_cols_inferred size x with
  | Some m => Some (flatten (transpose (length x / size) m))
  | None => None
  end.

(** A list of [rows] rows, each of [cols] slices. *)
Definition has_shape (rows cols : nat) (m : list (list A)) : Prop :=
  length m = rows /\ Forall (fun r => length r = cols) m.
End Tensor.
End Interleave.

(** *** Learning-rate schedules

    [_lr_lambda] of [get_cosine_schedule_with_warmup] and of
    [get_step_schedule_with_warmup]: the multiplier that [LambdaLR] applies
    at step [current_step], its own step counter, which starts at 0. *)
Module Schedule.

Definition default_num_cycles : R := 7 / 16.

(** [float(n)] for a Python int. *)
Definition float (n : Z) : R := IZR n.

Definition cosine_lr_lambda
  (num_warmup_epochs num_training_epochs num_steps_per_epoch : Z)
  (num_cycles : R) (current_step : Z) : R :=
  let num_warmup_steps := (num_warmup_epochs * num_steps_per_epoch)%Z in
  let num_training_steps := (num_training_epochs * num_steps_per_epoch)%Z in
  if (current_step <? num_warmup_steps)%Z
  then (float current_step / float (Z.max 1 num_warmup_steps))%R
  else
    let no_progress :=
      (float (current_step - num_warmup_steps)
       / float (Z.max 1 (num_training_steps - num_warmup_steps)))%R in
    Rmax 0 (cos (PI * num_cycles * no_progress)).

(** The argument of the cosine after warmup. *)
Definition cosine_angle (we te spe : Z) (cycles : R) (s : Z) : R :=
  (PI * cycles
   * (float (s - we * spe) / float (Z.max 1 (te * spe - we * spe))))%R.

Definition default_decay_epochs : list Z := [60; 120; 160; 200]%Z.
Definition default_decay_factor : Q := 1 # 10.

(** The chain [a and 4 or b and 3 or c and 2 or d and 1 or 0]: the
    constants are truthy, so the value is that of the first comparison that
    holds.  [None] is the IndexError of [decay_steps[i]] on a list that is
    too short; [decay_steps[3]] is read first. *)
Definition step_exponent (decay_steps : list Z) (current_step : Z)
  : option Z :=
  d3 ← decay_steps !! 3%nat;
  if (d3 <? current_step)%Z then Some 4%Z else
  d2 ← decay_steps !! 2%nat;
  if (d2 <? current_step)%Z then Some 3%Z else
  d1 ← decay_steps !! 1%nat;
  if (d1 <? current_step)%Z then Some 2%Z else
  d0 ← decay_steps !! 0%nat;
  if (d0 <? current_step)%Z then Some 1%Z else Some 0%Z.

Definition step_lr_lambda
  (num_warmup_epochs num_training_epochs num_steps_per_epoch : Z)
  (decay_epochs : list Z) (decay_factor : Q) (current_step : Z)
  : option Q :=
  let num_warmup_steps := (num_warmup_epochs * num_steps_per_epoch)%Z in
  let decay_steps := map (fun e => (e * num_steps_per_epoch)%Z) decay_epochs in
  if (current_step <? num_warmup_steps)%Z
  then Some (inject_Z current_step / inject_Z (Z.max 1 num_warmup_steps))%Q
  else
    exp ← step_exponent decay_steps current_step;
    Some (decay_factor ^ exp)%Q.

(** The number of decay boundaries, in steps, that [current_step] has
    passed. *)
Definition boundaries_passed
  (num_steps_per_epoch : Z) (decay_epochs : list Z) (current_step : Z) : Z :=
  Z.of_nat
    (length (List.filter (fun e => (e * num_steps_per_epoch <? current_step)%Z)
                         decay_epochs)).
End Schedule.

(** *** Tensors of real numbers

    A tensor of shape [[B, K]] (a batch of [B] rows over [K] classes) is a
    list of [B] lists of [K] reals.  The elementwise operations are those
    of tensors of equal shape.  Division by zero, [inf] or [nan] in floating
    point, has no counterpart here: the temperature and the number of
    classifiers of a run are not 0.  The divisions of the depict target,
    whose denominators can be 0, are modelled with those values in
    [Special]. *)
Module Tensor.

Abbreviation Tensor1 := (list R).
Abbreviation Tensor2 := (list (list R)).

Definition entry (t : Tensor2) (i j : nat) : R := nth j (nth i t []) 0%R.

(** [t.sum()] of a vector, and [t.sum(1)]. *)
Definition sum_list (l : Tensor1) : R := fold_right Rplus 0%R l.
Definition sum1 (t : Tensor2) : Tensor1 := map sum_list t.

(** [t.sum(0, keepdim=True)] of a tensor with [K] columns. *)
Definition sum0 (K : nat) (t : Tensor2) : Tensor1 :=
  fold_right (zip_with Rplus) (replicate K 0%R) t.

(** [t.mean()] of a vector. *)
Definition mean (l : Tensor1) : R := (sum_list l / INR (length l))%R.

Definition mul (a b : Tensor2) : Tensor2 := zip_with (zip_with Rmult) a b.
Definition add (a b : Tensor2) : Tensor2 := zip_with (zip_with Rplus) a b.
Definition div_scalar (t : Tensor2) (c : R) : Tensor2 :=
  map (map (fun v => (v / c)%R)) t.

(** [a / b] for [a] of shape [[B, K]] and [b] of shape [[1, K]]. *)
Definition div_row (a : Tensor2) (b : Tensor1) : Tensor2 :=
  map (fun row => zip_with Rdiv row b) a.

(** [a / b] for [a] of shape [[B, K]] and [b] of shape [[B, 1]]. *)
Definition div_col (a : Tensor2) (b : Tensor1) : Tensor2 :=
  zip_with (fun row c => map (fun v => (v / c)%R) row) a b.

Definition softmax_row (row : Tensor1) : Tensor1 :=
  let e := map exp row in map (fun v => (v / sum_list e)%R) e.

(** [torch.softmax(t, dim=-1)]. *)
Definition softmax (t : Tensor2) : Tensor2 := map softmax_row t.

Definition log_softmax_row (row : Tensor1) : Tensor1 :=
  map (fun v => (v - ln (sum_list (map exp row)))%R) row.

(** [F.log_softmax(t, dim=-1)]. *)
Definition log_softmax (t : Tensor2) : Tensor2 := map log_softmax_row t.

(** The running maximum of [torch.max]: of equal values the first is
    kept. *)
Fixpoint max_from (best : R) (best_i i : nat) (l : Tensor1) : R * nat :=
  match l with
  | [] => (best, best_i)
  | x :: r => if Rlt_dec best x then max_from x i (S i) r
              else max_from best best_i (S i) r
  end.

(** Value and index of the maximum of a row; there is none in an empty
    row, on which [torch.max] raises. *)
Definition row_max (row : Tensor1) : option (R * nat) :=
  match row with
  | [] => None
  | x :: r => Some (max_from x 0 1 r)
  end.

(** [torch.max(t, dim=-1)]: the values and the indices. *)
Definition max_last_dim (t : Tensor2) : option (Tensor1 * list nat) :=
  rows ← mapM row_max t; Some (map fst rows, map snd rows).

(** [v.ge(c).float()]. *)
Definition ge_float (v : Tensor1) (c : R) : Tensor1 :=
  map (fun m => if Rge_dec m c then 1%R else 0%R) v.
End Tensor.

(** *** The pseudo-label generator (lines 461 to 472 of [train])

    The classifier head is stochastic: a call consumes the state [St] of
    the random number generator, and each call may give other logits for
    the same features. *)
Module PseudoLabel.
Import Tensor.

Record pseudo_labels : Type := {
  pseudo_label_mul : Tensor2;
  pseudo_label_sum : Tensor2;
  max_probs : Tensor1;
  targets_u : list nat;
  mask : Tensor1
}.

Section Generator.
Context {St Features : Type}.
Variable classifier : St -> Features -> Tensor2 * St.

(** The loop [for _ in range(n)] over the sampled classifiers. *)
Fixpoint resample (n : nat) (st : St) (features_u_w : Features) (T : R)
  (p_mul p_sum : Tensor2) : Tensor2 * Tensor2 * St :=
  match n with
  | O => (p_mul, p_sum, st)
  | S n' =>
      let '(logits, st') := classifier st features_u_w in
      let prob := softmax (div_scalar logits T) in
      resample n' st' features_u_w T (mul p_mul prob) (add p_sum prob)
  end.

Definition generate (logits_u_w : Tensor2) (features_u_w : Features)
  (T : R) (num_classifiers : Z) (confidence_threshold : R) (st : St)
  : option (pseudo_labels * St) :=
  let pseudo_label1 := softmax (div_scalar logits_u_w T) in
  let '(p_mul, p_sum, st') :=
    resample (Z.to_nat (num_classifiers - 1)) st features_u_w T
             pseudo_label1 pseudo_label1 in
  let p_sum := div_scalar p_sum (IZR num_classifiers) in
  '(max_probs, targets_u) ← max_last_dim p_mul;
  Some ({| pseudo_label_mul := p_mul;
           pseudo_label_sum := p_sum;
           max_probs := max_probs;
           targets_u := targets_u;
           mask := ge_float max_probs confidence_threshold |}, st').

(** The softmax passes of [n] successive calls of the classifier head on
    the same features. *)
Fixpoint sampled_probs (n : nat) (st : St) (features_u_w : Features) (T : R)
  : list Tensor2 :=
  match n with
  | O => []
  | S n' =>
      let '(logits, st') := classifier st features_u_w in
      softmax (div_scalar logits T) :: sampled_probs n' st' features_u_w T
  end.

(** The [C] softmax passes: the first from the weak-branch logits of
    the interleaved forward, the others from re-running the head. *)
Definition passes (logits_u_w : Tensor2) (features_u_w : Features) (T : R)
  (num_classifiers : Z) (st : St) : list Tensor2 :=
  softmax (div_scalar logits_u_w T)
  :: sampled_probs (Z.to_nat (num_classifiers - 1)) st features_u_w T.
End Generator.

(** Product and sum, over a list of tensors, of the entries at [(i, j)]. *)
Definition entry_product (ps : list Tensor2) (i j : nat) : R :=
  fold_right Rmult 1%R (map (fun p => entry p i j) ps).
Definition entry_sum (ps : list Tensor2) (i j : nat) : R :=
  fold_right Rplus 0%R (map (fun p => entry p i j) ps).
End PseudoLabel.

(** *** The unsupervised loss (lines 476 to 491 of [train]) *)
Module Loss.
Import Tensor.

Inductive pseudo_label_method : Type := depict | fixmatch.

(** Python objects that are shared: a tensor is an object of the heap,
    and a Python list of tensors is a list of references. *)
Definition ref : Type := nat.
Definition heap : Type := gmap ref Tensor2.

Definition alloc (h : heap) (t : Tensor2) : ref * heap :=
  let r := fresh (dom h) in (r, <[r := t]> h).

(** [x.clone()]: a new object with the value of [x]. *)
Definition clone (h : heap) (x : ref) : option (ref * heap) :=
  t ← h !! x; Some (alloc h t).

(** [[x] * n]: a list of [n] references to the one object [x]. *)
Definition list_times (x : ref) (n : Z) : list ref :=
  replicate (Z.to_nat n) x.

(** [torch.distributed.all_gather(tensor_list, tensor)]: the tensor of
    every rank is copied into the object that the slot of the rank refers
    to.  [inputs] holds the tensors of the ranks 0, 1, ..., and [order] is
    the sequence in which the ranks are copied. *)
Definition all_gather (tensor_list : list ref) (inputs : list Tensor2)
  (order : list nat) (h : heap) : heap :=
  fold_left
    (fun h rank =>
       match tensor_list !! rank, inputs !! rank with
       | Some r, Some t => <[r := t]> h
       | _, _ => h
       end)
    order h.

(** [torch.cat(tensor_list, dim=0)]. *)
Definition cat (tensor_list : list ref) (h : heap) : option Tensor2 :=
  ts ← mapM (fun r => h !! r) tensor_list; Some (concat ts).

(** Lines 480 to 482: what a process holds in [tensor_list] after the
    gather, [inputs] being the [pseudo_label_sum] of every rank and
    [pseudo_label_sum] the object of this process. *)
Definition gather_pseudo_label_sum (world_size : Z) (inputs : list Tensor2)
  (order : list nat) (pseudo_label_sum : ref) (h : heap)
  : option (Tensor2 * heap) :=
  '(c, h1) ← clone h pseudo_label_sum;
  let tensor_list := list_times c world_size in
  let h2 := all_gather tensor_list inputs order h1 in
  t ← cat tensor_list h2; Some (t, h2).

(** [tensor_list.sum(0, keepdim=True).pow(0.5)], for [K] classes. *)
Definition depict_denominator (K : nat) (tensor_list : Tensor2) : Tensor1 :=
  map sqrt (sum0 K tensor_list).

(** Line 487. *)
Definition depict_scaled (K : nat) (tensor_list pseudo_label_sum : Tensor2)
  : Tensor2 :=
  div_row pseudo_label_sum (depict_denominator K tensor_list).

(** Lines 487 and 488. *)
Definition depict_target (K : nat) (tensor_list pseudo_label_sum : Tensor2)
  : Tensor2 :=
  let targets_u_aux := depict_scaled K tensor_list pseudo_label_sum in
  div_col targets_u_aux (sum1 targets_u_aux).

(** Line 489. *)
Definition depict_loss (targets_u_aux logits_u : Tensor2) (mask : Tensor1)
  : R :=
  (- mean (zip_with Rmult (sum1 (mul targets_u_aux (log_softmax logits_u)))
                    mask))%R.

(** [F.cross_entropy(logits, targets, reduction='none')]. *)
Definition cross_entropy_none (logits : Tensor2) (targets : list nat)
  : Tensor1 :=
  zip_with (fun row t => (- nth t (log_softmax_row row) 0)%R) logits targets.

(** Line 491. *)
Definition fixmatch_loss (logits_u : Tensor2) (targets_u : list nat)
  (mask : Tensor1) : R :=
  mean (zip_with Rmult (cross_entropy_none logits_u targets_u) mask).

(** The sum of [f 0], ..., [f (n - 1)]. *)
Definition index_sum (n : nat) (f : nat -> R) : R :=
  sum_list (map f (seq 0 n)).

(** The sum of class [j] over a batch [p] of [B] rows, and the entry
    [(i, j)] of [p] divided by the square root of that sum. *)
Definition class_sum (B : nat) (p : Tensor2) (j : nat) : R :=
  index_sum B (fun i => entry p i j).
Definition scaled_entry (B : nat) (p : Tensor2) (i j : nat) : R :=
  (entry p i j / sqrt (class_sum B p j))%R.

(** The batch is not degenerate: no entry is negative, every class has a
    positive sum over the batch, and every row has a positive entry. *)
Definition non_degenerate (K : nat) (p : Tensor2) : Prop :=
  Forall (Forall (fun v => (0 <= v)%R)) p /\
  Forall (fun c => (0 < c)%R) (sum0 K p) /\
  Forall (Exists (fun v => (0 < v)%R)) p.

(** No division for row [i] of the target is by zero: every class has a
    positive sum over the batch, and the row [i] of [p_sum / denominator]
    does not sum to zero. *)
Definition regular_row (B K : nat) (p : Tensor2) (i : nat) : Prop :=
  (forall j, (j < K)%nat -> (0 < class_sum B p j)%R) /\
  index_sum K (scaled_entry B p i) <> 0%R.
End Loss.

(** *** The depict target where a division has no value (lines 486 to 489)

    Floating point gives a value to every operation: [x / 0] is [inf] or
    [-inf] with the sign of [x], [0 / 0] and [inf / inf] are [nan], the
    power 0.5 of a negative number is [nan], and [nan] spreads through
    every operation.  The entries of [pseudo_label_sum], of the logits and
    of the mask are finite.  A finite result is idealised as a real number
    (no rounding, no overflow), and a zero is the positive zero, as a sum
    or a square root of finite numbers that is zero is. *)
Module Special.
Import Tensor.

Inductive value : Type :=
| Fin (r : R)
| PInf
| NInf
| NaN.

Definition vadd (a b : value) : value :=
  match a, b with
  | NaN, _ | _, NaN => NaN
  | Fin x, Fin y => Fin (x + y)
  | PInf, NInf | NInf, PInf => NaN
  | PInf, _ | _, PInf => PInf
  | NInf, _ | _, NInf => NInf
  end.

Definition vmul (a b : value) : value :=
  match a, b with
  | NaN, _ | _, NaN => NaN
  | Fin x, Fin y => Fin (x * y)
  | PInf, Fin y | Fin y, PInf =>
      if Req_dec_T y 0 then NaN else if Rlt_dec 0 y then PInf else NInf
  | NInf, Fin y | Fin y, NInf =>
      if Req_dec_T y 0 then NaN else if Rlt_dec 0 y then NInf else PInf
  | PInf, PInf | NInf, NInf => PInf
  | PInf, NInf | NInf, PInf => NInf
  end.

Definition vdiv (a b : value) : value :=
  match a, b with
  | NaN, _ | _, NaN => NaN
  | Fin x, Fin y =>
      if Req_dec_T y 0 then
        if Req_dec_T x 0 then NaN else if Rlt_dec 0 x then PInf else NInf
      else Fin (x / y)
  | Fin _, _ => Fin 0
  | PInf, Fin y => if Rlt_dec y 0 then NInf else PInf
  | NInf, Fin y => if Rlt_dec y 0 then PInf else NInf
  | _, _ => NaN
  end.

Definition vneg (a : value) : value :=
  match a with
  | Fin x => Fin (- x)
  | PInf => NInf
  | NInf => PInf
  | NaN => NaN
  end.

(** [x.pow(0.5)] of a finite [x]. *)
Definition pow_half (x : R) : value :=
  if Rlt_dec x 0 then NaN else Fin (sqrt x).

Abbreviation VTensor1 := (list value).
Abbreviation VTensor2 := (list (list value)).

(** A tensor of finite entries. *)
Definition of_tensor (t : Tensor2) : VTensor2 := map (map Fin) t.

Definition entry (t : VTensor2) (i j : nat) : value :=
  nth j (nth i t []) (Fin 0).

(** [t.sum()] of a vector, [t.sum(1)] and [t.mean()]; the mean of an empty
    vector is [0 / 0]. *)
Definition sum_list (l : VTensor1) : value := fold_right vadd (Fin 0) l.
Definition sum1 (t : VTensor2) : VTensor1 := map sum_list t.
Definition mean (l : VTensor1) : value :=
  vdiv (sum_list l) (Fin (INR (length l))).

(** [tensor_list.sum(0, keepdim=True).pow(0.5)], for [K] classes. *)
Definition depict_denominator (K : nat) (tensor_list : Tensor2) : VTensor1 :=
  map pow_half (sum0 K tensor_list).

(** Line 487. *)
Definition depict_scaled (K : nat) (tensor_list pseudo_label_sum : Tensor2)
  : VTensor2 :=
  map (fun row => zip_with vdiv (map Fin row)
                           (depict_denominator K tensor_list))
      pseudo_label_sum.

(** Lines 487 and 488. *)
Definition depict_target (K : nat) (tensor_list pseudo_label_sum : Tensor2)
  : VTensor2 :=
  let targets_u_aux := depict_scaled K tensor_list pseudo_label_sum in
  zip_with (fun row c => map (fun v => vdiv v c) row)
           targets_u_aux (sum1 targets_u_aux).

(** Line 489. *)
Definition depict_loss (targets_u_aux : VTensor2) (logits_u : Tensor2)
  (mask : Tensor1) : value :=
  vneg (mean (zip_with vmul
                (sum1 (zip_with (zip_with vmul) targets_u_aux
                                (of_tensor (log_softmax logits_u))))
                (map Fin mask))).

(** The sum of [f 0], ..., [f (n - 1)]. *)
Definition index_sum (n : nat) (f : nat -> value) : value :=
  sum_list (map f (seq 0 n)).

(** The entry [(i, j)] of a batch [p] of [B] rows divided by the power 0.5
    of the sum of class [j] over the batch. *)
Definition scaled_entry (B : nat) (p : Tensor2) (i j : nat) : value :=
  vdiv (Fin (Tensor.entry p i j)) (pow_half (Loss.class_sum B p j)).
End Special.

(** *** Fetching a batch (lines 435 to 445 of [train])

    An iterator is a state; [next] gives the batch and the advanced
    iterator, or raises.  [fetch] also logs the calls it makes. *)
Module Fetch.

Inductive exn : Type :=
| StopIteration
| OtherError (msg : string).

Inductive result (A : Type) : Type :=
| Ok (a : A)
| Raise (e : exn).
Arguments Ok {A} a.
Arguments Raise {A} e.

Inductive call (Loader Iter : Type) : Type :=
| CallNext (it : Iter)
| CallIter (loader : Loader).
Arguments CallNext {Loader Iter} it.
Arguments CallIter {Loader Iter} loader.

Section Iterator.
Context {Loader Iter Batch : Type}.
Variable iter : Loader -> result Iter.
Variable next : Iter -> result (Batch * Iter).

(** The [except] clause: [it = iter(loader); b = it.next()], after the
    call of [next] that raised. *)
Definition refetch (it : Iter) (loader : Loader)
  : result (Batch * Iter) * list (call Loader Iter) :=
  match iter loader with
  | Ok it' => (next it', [CallNext it; CallIter loader; CallNext it'])
  | Raise e => (Raise e, [CallNext it; CallIter loader])
  end.

(** [try: b = it.next()] / [except: ...].  The [except] clause names no
    exception class. *)
Definition fetch (it : Iter) (loader : Loader)
  : result (Batch * Iter) * list (call Loader Iter) :=
  match next it with
  | Ok r => (Ok r, [CallNext it])
  | Raise _ => refetch it loader
  end.

(** The calls of [next] in a log. *)
Definition next_calls (log : list (call Loader Iter)) : nat :=
  length (List.filter (fun c => match c with CallNext _ => true
                                        | CallIter _ => false end) log).
End Iterator.

(** A loader over a list of samples, of which some cannot be read; its
    iterator is the list of the samples that are left. *)
Definition list_iter {Batch : Type} (loader : list (option Batch))
  : result (list (option Batch)) := Ok loader.

Definition list_next {Batch : Type} (it : list (option Batch))
  : result (Batch * list (option Batch)) :=
  match it with
  | [] => Raise StopIteration
  | Some b :: rest => Ok (b, rest)
  | None :: _ => Raise (OtherError "cannot read the sample")
  end.
End Fetch.

(** *** The metrics of a training step (lines 500 to 502 and 513 to 518)

    [AverageMeter] is imported from [utils], which is not part of the
    sources: the type of the meters and their [update(val, n)] are
    parameters. *)
Module Metrics.
Import Tensor.

Section Meters.
Context {Meter : Type}.
Variable update : Meter -> R -> R -> Meter.

Record meters : Type := {
  losses : Meter;
  losses_x : Meter;
  losses_u : Meter;
  mask_probs : Meter;
  noise_rates : Meter;
  mislabeled_nums : Meter;
  noise_rate_estms : Meter;
  mislabeled_num_estms : Meter
}.

(** [(a != b).float()] for two tensors of labels. *)
Definition ne_float (a b : list nat) : Tensor1 :=
  zip_with (fun x y => if Nat.eq_dec x y then 0%R else 1%R) a b.

(** [v[mask == 1]]. *)
Definition masked_select (v mask : Tensor1) : Tensor1 :=
  map fst
    (List.filter (fun p => if Req_dec_T (snd p) 1%R then true else false)
                 (zip v mask)).

Definition update_metrics (m : meters) (loss Lx Lu : R) (mask : Tensor1)
  (targets_u targets_u_gt : list nat) (logits_x : Tensor2)
  (targets_x : list nat) : option meters :=
  let m1 :=
    {| losses := update (losses m) loss 1;
       losses_x := update (losses_x m) Lx 1;
       losses_u := update (losses_u m) Lu 1;
       mask_probs := update (mask_probs m) (mean mask) 1;
       noise_rates := noise_rates m;
       mislabeled_nums := mislabeled_nums m;
       noise_rate_estms := noise_rate_estms m;
       mislabeled_num_estms := mislabeled_num_estms m |} in
  if Req_dec_T (sum_list mask) 0%R then Some m1
  else
    '(_, pred_x) ← max_last_dim logits_x;
    let wrong_u := masked_select (ne_float targets_u targets_u_gt) mask in
    let wrong_x := ne_float pred_x targets_x in
    Some {| losses := losses m1;
            losses_x := losses_x m1;
            losses_u := losses_u m1;
            mask_probs := mask_probs m1;
            noise_rates :=
              update (noise_rates m) (mean wrong_u) (sum_list mask);
            mislabeled_nums :=
              update (mislabeled_nums m) (sum_list wrong_u) 1;
            noise_rate_estms :=
              update (noise_rate_estms m) (mean wrong_x) 1;
            mislabeled_num_estms :=
              update (mislabeled_num_estms m)
                     (mean wrong_x * sum_list mask) 1 |}.
End Meters.
Arguments meters Meter : clear implicits.

(** Modelled from the spec: [utils.AverageMeter], a (sum, count) pair that
    exposes a running mean; [update(val, n)] adds [val * n] to the sum and
    [n] to the count. *)
Record AverageMeter : Type := {
  meter_sum : R;
  meter_count : R
}.

Definition AverageMeter_update (m : AverageMeter) (val n : R)
  : AverageMeter :=
  {| meter_sum := meter_sum m + val * n;
     meter_count := meter_count m + n |}.

Definition AverageMeter_new : AverageMeter :=
  {| meter_sum := 0; meter_count := 0 |}.

(** Lines 414 to 421: the meters at the start of [train]. *)
Definition meters_new : meters AverageMeter :=
  {| losses := AverageMeter_new; losses_x := AverageMeter_new;
     losses_u := AverageMeter_new; mask_probs := AverageMeter_new;
     noise_rates := AverageMeter_new; mislabeled_nums := AverageMeter_new;
     noise_rate_estms := AverageMeter_new;
     mislabeled_num_estms := AverageMeter_new |}.
End Metrics.

(** *** One training step (lines 449 to 518 of [train])

    The feature extractor [G] and the classifier head [F] are functions of
    the parameters; [F] also consumes the state of the random number
    generator.  [optimize] stands for the backward pass, the steps of the
    optimizer and of the scheduler, the update of the EMA models and
    [zero_grad]: the parameters after the step are determined by the
    parameters before it and by the loss as a function of the parameters.
    The pseudo-labels are computed from detached logits and are constants
    of that function. *)
Module TrainStep.
Import Interleave Tensor PseudoLabel Loss Metrics.

Record config : Type := {
  mu : Z;
  T : R;
  num_classifiers : Z;
  confidence_threshold : R;
  lambda_u : R;
  rm_aug_s : bool;
  method : pseudo_label_method;
  local_rank : Z;
  world_size : Z;
  num_classes : nat
}.

Record batch (Input : Type) : Type := {
  inputs_x : list Input;
  targets_x : list nat;
  inputs_u_w : list Input;
  inputs_u_s : list Input
}.
Arguments inputs_x {Input} _.
Arguments targets_x {Input} _.
Arguments inputs_u_w {Input} _.
Arguments inputs_u_s {Input} _.

Record forward_result (Feature : Type) : Type := {
  logits_x : Tensor2;
  logits_u_w : Tensor2;
  logits_u_s : Tensor2;
  features_u_w : list Feature
}.
Arguments logits_x {Feature} _.
Arguments logits_u_w {Feature} _.
Arguments logits_u_s {Feature} _.
Arguments features_u_w {Feature} _.

Record step_result (Params St Meter : Type) : Type := {
  step_loss : R;
  step_params : Params;
  step_state : St;
  step_meters : meters Meter
}.
Arguments step_loss {Params St Meter} _.
Arguments step_params {Params St Meter} _.
Arguments step_state {Params St Meter} _.
Arguments step_meters {Params St Meter} _.

(** The target of the unsupervised loss, a constant of the gradient. *)
Inductive unsup_target : Type :=
| DepictTarget (targets_u_aux : Tensor2)
| FixmatchTarget (targets_u : list nat).

(** [t.chunk(2)] unpacked into two names: a tensor with one row gives one
    chunk only, and the unpacking raises. *)
Definition chunk2 {A : Type} (l : list A) : option (list A * list A) :=
  if (length l =? 1)%nat then None
  else let c := ((length l + 1) / 2)%nat in Some (take c l, drop c l).

(** [F.cross_entropy(logits, targets, reduction='mean')]. *)
Definition cross_entropy_mean (logits : Tensor2) (targets : list nat) : R :=
  mean (cross_entropy_none logits targets).

Section Step.
Context {Params Input Feature St Meter : Type}.
Variable G : Params -> list Input -> list Feature.
Variable F : Params -> St -> list Feature -> Tensor2 * St.
Variable optimize : (Params -> option R) -> Params -> Params.
Variable update : Meter -> R -> R -> Meter.
(** The [pseudo_label_sum] of every rank, given that of this process, and
    the order in which [all_gather] copies them. *)
Variable world_inputs : Tensor2 -> list Tensor2.
Variable copy_order : list nat.

(** Lines 449 to 457 and 464. *)
Definition forward (cfg : config) (theta : Params) (st : St)
  (b : batch Input) : option (forward_result Feature * St) :=
  let size := Z.to_nat (2 * mu cfg + 1) in
  let batch_size := length (inputs_x b) in
  inputs ← interleave (inputs_x b ++ inputs_u_w b ++ inputs_u_s b) size;
  let features := G theta inputs in
  let '(logits, st1) := F theta st features in
  logits ← de_interleave logits size;
  '(l_u_w, l_u_s) ← chunk2 (drop batch_size logits);
  features ← de_interleave features size;
  Some ({| logits_x := take batch_size logits;
           logits_u_w := l_u_w;
           logits_u_s := l_u_s;
           features_u_w :=
             take (length (inputs_u_w b)) (drop batch_size features) |},
        st1).

(** Lines 477 to 488 and 490. *)
Definition make_target (cfg : config) (pl : pseudo_labels)
  : option unsup_target :=
  match method cfg with
  | depict =>
      let p_sum := pseudo_label_sum pl in
      tensor_list ←
        (if (local_rank cfg =? -1)%Z then Some p_sum
         else fst <$> gather_pseudo_label_sum
                        (world_size cfg) (world_inputs p_sum) copy_order
                        0%nat {[ 0%nat := p_sum ]});
      Some (DepictTarget (depict_target (num_classes cfg) tensor_list p_sum))
  | fixmatch => Some (FixmatchTarget (targets_u pl))
  end.

(** Lines 476, 489 and 491. *)
Definition unsup_loss (cfg : config) (tg : unsup_target) (mask : Tensor1)
  (fw : forward_result Feature) : R :=
  let logits_u := if rm_aug_s cfg then logits_u_w fw else logits_u_s fw in
  match tg with
  | DepictTarget targets_u_aux => depict_loss targets_u_aux logits_u mask
  | FixmatchTarget targets_u => fixmatch_loss logits_u targets_u mask
  end.

Definition sup_loss (b : batch Input) (fw : forward_result Feature) : R :=
  cross_entropy_mean (logits_x fw) (targets_x b).

(** Line 493. *)
Definition total_loss (cfg : config) (tg : unsup_target) (mask : Tensor1)
  (b : batch Input) (fw : forward_result Feature) : R :=
  (sup_loss b fw + lambda_u cfg * unsup_loss cfg tg mask fw)%R.

Definition train_step (cfg : config) (theta : Params) (st : St)
  (m : meters Meter) (b : batch Input) (targets_u_gt : list nat)
  : option (step_result Params St Meter) :=
  '(fw, st1) ← forward cfg theta st b;
  '(pl, st2) ← generate (F theta) (logits_u_w fw) (features_u_w fw) (T cfg)
                        (num_classifiers cfg) (confidence_threshold cfg) st1;
  tg ← make_target cfg pl;
  let loss_at theta' :=
    '(fw', _) ← forward cfg theta' st b;
    Some (total_loss cfg tg (mask pl) b fw') in
  let Lx := sup_loss b fw in
  let Lu := unsup_loss cfg tg (mask pl) fw in
  let loss := total_loss cfg tg (mask pl) b fw in
  let theta' := optimize loss_at theta in
  m' ← update_metrics update m loss Lx Lu (mask pl) (targets_u pl)
                      targets_u_gt (logits_x fw) (targets_x b);
  Some {| step_loss := loss; step_params := theta';
          step_state := st2; step_meters := m' |}.

(** What a step leaves behind, the two meters that compare the
    pseudo-labels with the ground truth apart. *)
Definition without_noise_meters (r : step_result Params St Meter)
  : R * Params * St * list Meter :=
  let m := step_meters r in
  (step_loss r, step_params r, step_state r,
   [losses m; losses_x m; losses_u m; mask_probs m;
    noise_rate_estms m; mislabeled_num_estms m]).
End Step.

(** A single process, FixMatch targets, one unlabeled sample for each
    labeled one, two classes. *)
Definition small_config : config :=
  {| mu := 1; T := 1; num_classifiers := 1; confidence_threshold := 0.95;
     lambda_u := 1; rm_aug_s := false; method := fixmatch; local_rank := -1;
     world_size := 1; num_classes := 2 |}.

Definition small_batch : batch nat :=
  {| inputs_x := [1%nat]; targets_x := [0%nat];
     inputs_u_w := [2%nat]; inputs_u_s := [3%nat] |}.
End TrainStep.

(** *** Resuming ([main], lines 137, 367 and 369 to 376) *)
Module Main.

Record args : Type := {
  start_epoch : Z;
  resume : string;
  epochs : Z;
  out : string
}.

Record checkpoint : Type := {
  epoch : Z;
  best_acc : R
}.

Section Resume.
(** The files: [Some] for a path that [os.path.isfile] accepts, with what
    [torch.load] reads from it. *)
Variable load : string -> option checkpoint.
Variable dirname : string -> string.

(** Lines 367 to 376; [None] is the failed assertion on a path that is not
    a file.  [args.resume] is true when it is not the empty string. *)
Definition resume_training (a : args) (best : R) : option (args * R) :=
  let a := {| start_epoch := 0; resume := resume a;
              epochs := epochs a; out := out a |} in
  if String.eqb (resume a) "" then Some (a, best)
  else
    ck ← load (resume a);
    Some ({| start_epoch := epoch ck; resume := resume a;
             epochs := epochs a; out := dirname (resume a) |},
          best_acc ck).

(** [range(lo, hi)]. *)
Definition range (lo hi : Z) : list Z :=
  map (fun i => (lo + Z.of_nat i)%Z) (seq 0 (Z.to_nat (hi - lo))).

(** The epochs that [train] runs (line 427). *)
Definition epochs_run (a : args) (best : R) : option (list Z) :=
  '(a', _) ← resume_training a best;
  Some (range (start_epoch a') (epochs a')).
End Resume.

(** [--start-epoch v] on the command line. *)
Definition with_start_epoch (v : Z) (a : args) : args :=
  {| start_epoch := v; resume := resume a;
     epochs := epochs a; out := out a |}.
End Main.

(** *** The length of a run ([main], lines 225 to 247 and 340; [train],
    lines 427 and 434) *)
Module Run.

Inductive dataset : Type := stl10 | svhn | cifar10 | cifar100 | imagenet.

(** The options that the dataset branch of [main] reads or writes. *)
Record options : Type := {
  num_classes : Z;
  num_labeled : Z;
  batch_size : Z;
  mu : Z;
  eval_step : Z;
  total_steps : Z;
  warmup : Z;
  lambda_u : Z;
  world_size : Z
}.

(** [a // b]; [None] is the ZeroDivisionError. *)
Definition floordiv (a b : Z) : option Z :=
  if (b =? 0)%Z then None else Some (a / b)%Z.

(** [math.ceil(a / b)], the quotient taken exactly. *)
Definition ceildiv (a b : Z) : option Z :=
  if (b =? 0)%Z then None else Some (- (- a / b))%Z.

(** Lines 225 to 247, the options of the architecture apart.
    [int(0.1 * 1281167 / num_classes)] is the integer part of
    [1281167 / (10 * num_classes)]. *)
Definition configure (d : dataset) (o : options) : option options :=
  match d with
  | cifar10 | svhn | stl10 =>
      Some {| num_classes := 10; num_labeled := num_labeled o;
              batch_size := batch_size o; mu := mu o;
              eval_step := eval_step o; total_steps := total_steps o;
              warmup := warmup o; lambda_u := lambda_u o;
              world_size := world_size o |}
  | cifar100 =>
      Some {| num_classes := 100; num_labeled := num_labeled o;
              batch_size := batch_size o; mu := mu o;
              eval_step := eval_step o; total_steps := total_steps o;
              warmup := warmup o; lambda_u := lambda_u o;
              world_size := world_size o |}
  | imagenet =>
      es ← floordiv 1281167 (batch_size o * 5 * world_size o);
      Some {| num_classes := 1000;
              num_labeled := (1281167 / (10 * 1000) * 1000)%Z;
              batch_size := batch_size o; mu := 5;
              eval_step := es; total_steps := (300 * es)%Z;
              warmup := 5; lambda_u := 10;
              world_size := world_size o |}
  end.

(** Line 340: [args.epochs]. *)
Definition epochs_of (o : options) : option Z :=
  ceildiv (total_steps o) (eval_step o).

(** The steps of [train], as pairs of an epoch and a batch index. *)
Definition training_steps (start_epoch epochs eval_step : Z)
  : list (Z * Z) :=
  flat_map (fun e => map (fun i => (e, i)) (Main.range 0 eval_step))
           (Main.range start_epoch epochs).
End Run.

(** *** Checkpoints ([save_checkpoint]; [train], lines 558 to 571) *)
Module Checkpoint.

(** The record that [train] saves; [payload] stands for the states of the
    models, of the optimizer and of the scheduler. *)
Record snapshot (S : Type) : Type := {
  snap_epoch : Z;
  snap_payload : S;
  snap_acc : R;
  snap_best_acc : R
}.
Arguments snap_epoch {S} _.
Arguments snap_payload {S} _.
Arguments snap_acc {S} _.
Arguments snap_best_acc {S} _.

(** [os.path.join(dir, file)] for a directory without a trailing
    separator. *)
Definition join (dir file : string) : string :=
  (dir ++ "/" ++ file)%string.

Definition checkpoint_path (dir : string) : string :=
  join dir "checkpoint.pth.tar".
Definition best_path (dir : string) : string :=
  join dir "model_best.pth.tar".

Section Files.
Context {S : Type}.

(** The files, by path. *)
Definition files : Type := gmap string (snapshot S).

(** [shutil.copyfile(src, dst)]; the source has just been written. *)
Definition copyfile (src dst : string) (fs : files) : files :=
  match fs !! src with
  | Some c => <[dst := c]> fs
  | None => fs
  end.

Definition save_checkpoint (state : snapshot S) (is_best : bool)
  (checkpoint : string) (fs : files) : files :=
  let filepath := checkpoint_path checkpoint in
  let fs := <[filepath := state]> fs in
  if is_best then copyfile filepath (best_path checkpoint) fs else fs.

(** Lines 558 to 571: the end of epoch [epoch], with the accuracy
    [test_acc] of the evaluation; the global [best_acc] is threaded. *)
Definition end_of_epoch (out : string) (epoch : Z) (payload : S)
  (test_acc : R) (best_acc : R) (fs : files) : R * files :=
  let is_best := if Rgt_dec test_acc best_acc then true else false in
  let best_acc := Rmax test_acc best_acc in
  (best_acc,
   save_checkpoint {| snap_epoch := epoch + 1; snap_payload := payload;
                      snap_acc := test_acc; snap_best_acc := best_acc |}
                   is_best out fs).

(** The ends of the epochs [first], [first + 1], ..., one for each
    evaluation result. *)
Fixpoint end_of_epochs (out : string) (first : Z) (results : list (S * R))
  (best_acc : R) (fs : files) : R * files :=
  match results with
  | [] => (best_acc, fs)
  | (payload, test_acc) :: rest =>
      let '(best_acc, fs) :=
        end_of_epoch out first payload test_acc best_acc fs in
      end_of_epochs out (first + 1) rest best_acc fs
  end.

(** What [main] reads back from a file when it resumes. *)
Definition load (fs : files) (path : string) : option Main.checkpoint :=
  c ← fs !! path;
  Some {| Main.epoch := snap_epoch c; Main.best_acc := snap_best_acc c |}.
End Files.
Arguments files S : clear implicits.
End Checkpoint.

(** *** The parameter groups of the optimizer ([main], lines 326 to 336) *)
Module ParamGroups.

(** [sub in s] for strings. *)
Fixpoint contains (sub s : string) : bool :=
  if String.prefix sub s then true
  else match s with
       | EmptyString => false
       | String _ s' => contains sub s'
       end.

Definition no_decay : list string := ["bias"; "bn"]%string.

(** [any(nd in n for nd in no_decay)]. *)
Definition exempt (n : string) : bool :=
  existsb (fun nd => contains nd n) no_decay.

Record group (P : Type) : Type := {
  params : list P;
  weight_decay : R
}.
Arguments params {P} _.
Arguments weight_decay {P} _.

Section Groups.
Context {P : Type}.

(** [[p for n, p in named if cond(n)]]. *)
Definition select (cond : string -> bool) (named : list (string * P))
  : list P :=
  map snd (List.filter (fun np => cond (fst np)) named).

Definition grouped_parameters (named_G named_F : list (string * P))
  (wdecay : R) : list (group P) :=
  [ {| params := select (fun n => negb (exempt n)) named_G;
       weight_decay := wdecay |};
    {| params := select exempt named_G; weight_decay := 0 |};
    {| params := select (fun n => negb (exempt n)) named_F;
       weight_decay := wdecay |};
    {| params := select exempt named_F; weight_decay := 0 |} ].
End Groups.
End ParamGroups.

(** ** Part II: properties *)

Module InterleaveFacts.
Import Interleave.
Section Facts.
Context {A : Type}.
Implicit Types (x : list A) (m : list (list A)).

Lemma chunks_shape rows cols x :
  length x = (rows * cols)%nat -> has_shape rows cols (chunks rows cols x).
Proof.
  revert x. induction rows as [|r IH]; intros x Hx; simpl.
  - split; [reflexivity | constructor].
  - destruct (IH (drop cols x)) as [Hl Hf].
    { rewrite length_drop. simpl in Hx. lia. }
    split; [simpl; congruence|].
    constructor; [|exact Hf].
    rewrite length_take. simpl in Hx. lia.
Qed.

Lemma flatten_chunks rows cols x :
  length x = (rows * cols)%nat -> flatten (chunks rows cols x) = x.
Proof.
  unfold flatten. revert x. induction rows as [|r IH]; intros x Hx; simpl.
  - destruct x; [reflexivity | discriminate].
  - rewrite IH.
    + apply take_drop.
    + rewrite length_drop. simpl in Hx. lia.
Qed.

Lemma chunks_flatten rows cols m :
  has_shape rows cols m -> chunks rows cols (flatten m) = m.
Proof.
  unfold flatten. revert rows. induction m as [|r m IH]; intros rows [Hl Hf].
  - simpl in Hl. subst rows. reflexivity.
  - simpl in Hl. subst rows. inversion Hf as [|? ? Hr Hm]; subst. simpl.
    rewrite take_app_length, drop_app_length.
    f_equal. apply IH. split; [reflexivity | assumption].
Qed.

Lemma length_flatten rows cols m :
  has_shape rows cols m -> length (flatten m) = (rows * cols)%nat.
Proof.
  unfold flatten. revert rows. induction m as [|r m IH]; intros rows [Hl Hf].
  - simpl in *. subst. reflexivity.
  - simpl in Hl. subst rows. inversion Hf; subst. simpl.
    rewrite length_app. f_equal. apply IH. split; [reflexivity | assumption].
Qed.

Lemma zip_cons_rows n (r : list A) (T : list (list A)) :
  Forall (fun t => length t = n) T ->
  Forall (fun t => length t = S n) (zip_with cons r T).
Proof.
  intros HT. revert r. induction HT as [|t T Ht HT IH]; intros r.
  - destruct r; constructor.
  - destruct r as [|a r]; [constructor|]. simpl.
    constructor; [simpl; congruence | apply IH].
Qed.

Lemma transpose_shape rows cols m :
  has_shape rows cols m -> has_shape cols rows (transpose cols m).
Proof.
  revert rows. induction m as [|r m IH]; intros rows [Hl Hf]; simpl.
  - simpl in Hl. subst rows. split.
    + apply length_replicate.
    + apply Forall_replicate. reflexivity.
  - simpl in Hl. subst rows. inversion Hf as [|? ? Hr Hm]; subst.
    destruct (IH (length m)) as [Hl' Hf']; [split; [reflexivity|assumption]|].
    split.
    + rewrite length_zip_with. lia.
    + apply zip_cons_rows. exact Hf'.
Qed.

(** Transposing a matrix that got a new first column [r] gives the
    transposed matrix with the new first row [r]. *)
Lemma transpose_cons_column n (r : list A) (T : list (list A)) :
  length r = length T -> Forall (fun t => length t = n) T ->
  transpose (S n) (zip_with cons r T) = r :: transpose n T.
Proof.
  intros Hl HT. revert r Hl.
  induction HT as [|t T Ht HT IH]; intros r Hl.
  - destruct r; [reflexivity | discriminate].
  - destruct r as [|a r]; [discriminate|]. simpl.
    rewrite IH by (simpl in Hl; lia). reflexivity.
Qed.

Lemma transpose_involutive rows cols m :
  has_shape rows cols m -> transpose rows (transpose cols m) = m.
Proof.
  revert rows. induction m as [|r m IH]; intros rows [Hl Hf].
  - simpl in Hl. subst rows. simpl. destruct cols; reflexivity.
  - simpl in Hl. subst rows. inversion Hf as [|? ? Hr Hm]; subst. simpl.
    assert (Hs : has_shape (length m) (length r) m)
      by (split; [reflexivity | assumption]).
    destruct (transpose_shape _ _ _ Hs) as [Hl' Hf'].
    rewrite transpose_cons_column by (assumption || congruence).
    f_equal. apply IH, Hs.
Qed.

Lemma interleave_some x k :
  k <> 0%nat -> (length x mod k = 0)%nat ->
  interleave x k
  = Some (flatten (transpose k (chunks (length x / k) k x))).
Proof.
  intros Hk Hmod. unfold interleave, reshape_rows_inferred.
  destruct (Nat.eqb_spec k 0); [contradiction|].
  rewrite Hmod. reflexivity.
Qed.

(** C1: for a tensor whose leading dimension is a positive multiple of
    [k], [interleave] succeeds, and [de_interleave] applied to its result
    gives the tensor back, slice for slice. *)
Theorem de_interleave_interleave x k :
  (0 < length x)%nat -> (length x mod k = 0)%nat ->
  interleave x k ≫= (fun y => de_interleave y k) = Some x.
Proof.
  intros Hpos Hmod.
  assert (Hk : k <> 0%nat) by (intros ->; simpl in Hmod; lia).
  rewrite interleave_some by assumption. simpl.
  set (r := (length x / k)%nat).
  assert (Hlen : length x = (r * k)%nat).
  { unfold r. pose proof (Nat.div_mod_eq (length x) k). lia. }
  pose proof (transpose_shape _ _ _ (chunks_shape r k x Hlen)) as Hsh.
  pose proof (length_flatten _ _ _ Hsh) as Hly.
  unfold de_interleave, reshape_cols_inferred.
  destruct (Nat.eqb_spec k 0); [contradiction|].
  rewrite Hly, (Nat.mul_comm k r), Nat.Div0.mod_mul, Nat.div_mul by assumption.
  simpl.
  rewrite chunks_flatten by assumption.
  rewrite transpose_involutive by (apply chunks_shape; assumption).
  rewrite flatten_chunks by assumption. reflexivity.
Qed.
End Facts.

Lemma de_interleave_interleave_witness :
  (0 < length [10; 11; 12; 13; 14; 15])%nat /\
  (length [10; 11; 12; 13; 14; 15] mod 3 = 0)%nat /\
  interleave [10; 11; 12; 13; 14; 15] 3 ≫= (fun y => de_interleave y 3)
  = Some [10; 11; 12; 13; 14; 15].
Proof.
  split; [simpl; lia|]. split; [reflexivity|].
  apply (@de_interleave_interleave nat [10; 11; 12; 13; 14; 15] 3);
    [simpl; lia | reflexivity].
Defined.

(** The transform is not the identity: labeled and unlabeled slices are
    mixed; a leading dimension that [size] does not divide is an error. *)
Example interleave_6_by_3 :
  interleave [0; 1; 2; 3; 4; 5] 3 = Some [0; 3; 1; 4; 2; 5].
Proof. reflexivity. Qed.

Example de_interleave_6_by_3 :
  de_interleave [0; 3; 1; 4; 2; 5] 3 = Some [0; 1; 2; 3; 4; 5].
Proof. reflexivity. Qed.

Example interleave_not_divisible : interleave [0; 1; 2; 3; 4] 3 = None.
Proof. reflexivity. Qed.
End InterleaveFacts.

Module ScheduleFacts.
Import Schedule.

(** During warmup the floor [max(1, .)] of the divisor is not reached. *)
Lemma warmup_divisor (ws s : Z) :
  (0 <= s)%Z -> (s < ws)%Z -> Z.max 1 ws = ws.
Proof. lia. Qed.

(** C6: with the boundaries [60, 120, 160, 200] and the factor 0.1, the
    step schedule gives [step / warmup_steps] during warmup; from the end
    of warmup on it gives [0.1 ^ k], where [k], between 0 and 4, counts the
    boundaries (in steps) that the step has passed; past the epoch-200
    boundary that is [0.1 ^ 4 = 0.0001]. *)
Theorem step_schedule_default (we te spe s : Z) :
  (0 <= s)%Z ->
  let ws := (we * spe)%Z in
  let lam := step_lr_lambda we te spe default_decay_epochs
                            default_decay_factor s in
  let k := boundaries_passed spe default_decay_epochs s in
  ((s < ws)%Z -> lam = Some (inject_Z s / inject_Z ws)%Q) /\
  ((ws <= s)%Z -> (0 <= k <= 4)%Z /\ lam = Some ((1 # 10) ^ k)%Q) /\
  ((ws <= s)%Z -> (200 * spe < s)%Z -> lam = Some (1 # 10000)%Q).
Proof.
  intros Hs ws lam k. subst lam k. unfold step_lr_lambda. fold ws.
  split; [|split].
  - intros Hlt. destruct (Z.ltb_spec s ws); [|lia].
    rewrite (warmup_divisor ws s) by assumption. reflexivity.
  - intros Hge. destruct (Z.ltb_spec s ws); [lia|].
    unfold boundaries_passed, step_exponent, default_decay_epochs,
      default_decay_factor.
    simpl.
    destruct (Z.ltb_spec (200 * spe) s), (Z.ltb_spec (160 * spe) s),
      (Z.ltb_spec (120 * spe) s), (Z.ltb_spec (60 * spe) s);
      simpl; try lia; (split; [lia | reflexivity]).
  - intros Hge Hpast. destruct (Z.ltb_spec s ws); [lia|].
    unfold step_exponent, default_decay_epochs, default_decay_factor. simpl.
    destruct (Z.ltb_spec (200 * spe) s); [reflexivity | lia].
Qed.

Lemma step_schedule_default_witness :
  (0 <= 250000)%Z /\ (5 * 1000 <= 250000)%Z /\ (200 * 1000 < 250000)%Z /\
  step_lr_lambda 5 300 1000 default_decay_epochs default_decay_factor 250000
  = Some (1 # 10000)%Q.
Proof.
  repeat (split; [lia|]).
  destruct (step_schedule_default 5 300 1000 250000) as (_ & _ & H); [lia|].
  apply H; lia.
Defined.

(** The ImageNet configuration (5 warmup epochs of 1000 steps). *)
Example step_schedule_in_warmup :
  step_lr_lambda 5 300 1000 default_decay_epochs default_decay_factor 2500
  = Some (2500 # 5000).
Proof. reflexivity. Qed.

Example step_schedule_epoch_100 :
  step_lr_lambda 5 300 1000 default_decay_epochs default_decay_factor 100000
  = Some (1 # 10).
Proof. reflexivity. Qed.

Example step_schedule_on_boundary :
  step_lr_lambda 5 300 1000 default_decay_epochs default_decay_factor 60000
  = Some 1%Q.
Proof. reflexivity. Qed.

Example step_schedule_past_200 :
  step_lr_lambda 5 300 1000 default_decay_epochs default_decay_factor 250000
  = Some (1 # 10000).
Proof. reflexivity. Qed.

Example step_schedule_short_list :
  step_lr_lambda 0 300 1000 [60; 120]%Z default_decay_factor 10 = None.
Proof. reflexivity. Qed.

(** The cosine schedule. *)

Lemma Rmax_0_nonpos (x : R) : (x <= 0)%R -> Rmax 0 x = 0%R.
Proof. intros Hx. unfold Rmax. destruct (Rle_dec 0 x); lra. Qed.

Lemma Rmax_0_mono (x y : R) : (x <= y)%R -> (Rmax 0 x <= Rmax 0 y)%R.
Proof.
  intros Hxy. unfold Rmax.
  destruct (Rle_dec 0 x), (Rle_dec 0 y); lra.
Qed.

(** On [0, 3π/2] the clipped cosine does not increase: it decreases up to
    [π/2] and is 0 from there on. *)
Lemma clipped_cos_decreasing (x y : R) :
  (0 <= x)%R -> (x <= y)%R -> (y <= 3 * (PI / 2))%R ->
  (Rmax 0 (cos y) <= Rmax 0 (cos x))%R.
Proof.
  intros Hx Hxy Hy. pose proof PI_RGT_0 as Hpi.
  destruct (Rle_dec y PI) as [HyPI | HyPI].
  - apply Rmax_0_mono, cos_decr_1; lra.
  - rewrite (Rmax_0_nonpos (cos y)); [apply Rmax_l|].
    apply cos_le_0; lra.
Qed.

Lemma cosine_after_warmup (we te spe : Z) (cycles : R) (s : Z) :
  (we * spe <= s)%Z ->
  cosine_lr_lambda we te spe cycles s
  = Rmax 0 (cos (cosine_angle we te spe cycles s)).
Proof.
  intros Hge. unfold cosine_lr_lambda, cosine_angle.
  destruct (Z.ltb_spec s (we * spe)); [lia | reflexivity].
Qed.

Lemma progress_divisor_pos (we te spe : Z) :
  (0 < float (Z.max 1 (te * spe - we * spe)))%R.
Proof. unfold float. apply IZR_lt. lia. Qed.

Lemma cosine_angle_mono (we te spe : Z) (cycles : R) (s s' : Z) :
  (0 <= cycles)%R -> (s <= s')%Z ->
  (cosine_angle we te spe cycles s <= cosine_angle we te spe cycles s')%R.
Proof.
  intros Hc Hss. unfold cosine_angle.
  pose proof PI_RGT_0 as Hpi. pose proof (progress_divisor_pos we te spe) as HD.
  apply Rmult_le_compat_l; [nra|].
  unfold Rdiv. apply Rmult_le_compat_r; [left; apply Rinv_0_lt_compat, HD|].
  unfold float. apply IZR_le. lia.
Qed.

Lemma cosine_angle_nonneg (we te spe : Z) (cycles : R) (s : Z) :
  (0 <= cycles)%R -> (we * spe <= s)%Z ->
  (0 <= cosine_angle we te spe cycles s)%R.
Proof.
  intros Hc Hge. unfold cosine_angle.
  pose proof PI_RGT_0 as Hpi. pose proof (progress_divisor_pos we te spe) as HD.
  apply Rmult_le_pos; [nra|].
  unfold Rdiv. apply Rmult_le_pos; [|left; apply Rinv_0_lt_compat, HD].
  unfold float. apply IZR_le. lia.
Qed.

Lemma cosine_in_warmup (we te spe : Z) (cycles : R) (s : Z) :
  (0 <= s)%Z -> (s < we * spe)%Z ->
  cosine_lr_lambda we te spe cycles s = (float s / float (we * spe))%R.
Proof.
  intros Hs Hlt. unfold cosine_lr_lambda.
  destruct (Z.ltb_spec s (we * spe)); [|lia].
  rewrite (warmup_divisor (we * spe) s) by assumption. reflexivity.
Qed.

Lemma cosine_nonneg (we te spe : Z) (cycles : R) (s : Z) :
  (0 <= s)%Z -> (0 <= cosine_lr_lambda we te spe cycles s)%R.
Proof.
  intros Hs. unfold cosine_lr_lambda.
  destruct (Z.ltb_spec s (we * spe)) as [Hlt | Hge].
  - unfold Rdiv, float. apply Rmult_le_pos; [apply IZR_le; lia|].
    left. apply Rinv_0_lt_compat, IZR_lt. lia.
  - apply Rmax_l.
Qed.

Lemma cosine_nonincreasing (we te spe : Z) (cycles : R) (s s' : Z) :
  (we * spe <= s)%Z -> (s <= s')%Z -> (0 <= cycles)%R ->
  (cosine_angle we te spe cycles s' <= 3 * (PI / 2))%R ->
  (cosine_lr_lambda we te spe cycles s'
   <= cosine_lr_lambda we te spe cycles s)%R.
Proof.
  intros Hge Hss Hc Hangle.
  rewrite !cosine_after_warmup by lia.
  apply clipped_cos_decreasing.
  - apply cosine_angle_nonneg; assumption.
  - apply cosine_angle_mono; assumption.
  - exact Hangle.
Qed.

(** With the default [num_cycles] the angle stays below [π/2] up to the
    last training step. *)
Lemma default_angle_in_horizon (we te spe s : Z) :
  (we * spe <= s)%Z -> (s <= te * spe)%Z ->
  (cosine_angle we te spe default_num_cycles s <= 3 * (PI / 2))%R.
Proof.
  intros Hge Hle. unfold cosine_angle, default_num_cycles.
  pose proof PI_RGT_0 as Hpi. pose proof (progress_divisor_pos we te spe) as HD.
  assert (Hp : (float (s - we * spe)
                / float (Z.max 1 (te * spe - we * spe)) <= 1)%R).
  { apply (Rmult_le_reg_r (float (Z.max 1 (te * spe - we * spe)))); [exact HD|].
    unfold Rdiv. rewrite Rmult_assoc, Rinv_l, Rmult_1_r, Rmult_1_l by lra.
    unfold float. apply IZR_le. lia. }
  assert (H0 : (0 <= float (s - we * spe)
                / float (Z.max 1 (te * spe - we * spe)))%R).
  { unfold Rdiv. apply Rmult_le_pos; [|left; apply Rinv_0_lt_compat, HD].
    unfold float. apply IZR_le. lia. }
  nra.
Qed.

(** C5, as the code has it: during warmup the multiplier is
    [step / warmup_steps]; from the end of warmup on it is
    [max(0, cos(π · cycles · progress))], where the divisor of [progress]
    is [max(1, total_steps - warmup_steps)], which is
    [total_steps - warmup_steps] when warmup ends before training does; the
    multiplier is never negative and is 0.5 at step 5 of 10 warmup steps; from
    the end of warmup on it does not
    increase as long as the angle [π · cycles · progress] is at most
    [3π/2], and so, for the default [cycles = 7/16], up to the last
    training step. *)
Theorem cosine_schedule (we te spe : Z) (cycles : R) (s : Z) :
  (0 <= s)%Z ->
  let ws := (we * spe)%Z in
  let ts := (te * spe)%Z in
  let lam := cosine_lr_lambda we te spe cycles in
  ((s < ws)%Z -> lam s = (float s / float ws)%R) /\
  ((ws <= s)%Z ->
   lam s = Rmax 0 (cos (PI * cycles
                        * (float (s - ws) / float (Z.max 1 (ts - ws)))))) /\
  ((ws <= s)%Z -> (ws < ts)%Z ->
   lam s = Rmax 0 (cos (PI * cycles * (float (s - ws) / float (ts - ws))))) /\
  (0 <= lam s)%R /\
  (forall s', (ws <= s)%Z -> (s <= s')%Z -> (0 <= cycles)%R ->
              (cosine_angle we te spe cycles s' <= 3 * (PI / 2))%R ->
              (lam s' <= lam s)%R) /\
  (forall s', (ws <= s)%Z -> (s <= s')%Z -> (s' <= ts)%Z ->
              cycles = default_num_cycles -> (lam s' <= lam s)%R) /\
  (ws = 10%Z -> s = 5%Z -> lam s = (1 / 2)%R).
Proof.
  intros Hs ws ts lam. subst lam. repeat split.
  - intros Hlt. apply cosine_in_warmup; assumption.
  - intros Hge. rewrite cosine_after_warmup by assumption. reflexivity.
  - intros Hge Hlt. rewrite cosine_after_warmup by assumption.
    unfold cosine_angle. fold ws ts.
    replace (Z.max 1 (ts - ws)) with (ts - ws)%Z by lia. reflexivity.
  - apply cosine_nonneg, Hs.
  - intros s' Hge Hss Hc Hangle. apply cosine_nonincreasing; assumption.
  - intros s' Hge Hss Hle ->.
    apply cosine_nonincreasing; try assumption.
    + unfold default_num_cycles. lra.
    + apply default_angle_in_horizon; [lia | assumption].
  - intros Hws ->. rewrite cosine_in_warmup by lia.
    fold ws. rewrite Hws. unfold float. lra.
Qed.

(** The default CIFAR run: no warmup, 1024 epochs of 1024 steps. *)
Lemma cosine_schedule_witness :
  (0 <= 1024)%Z /\ (0 * 1024 <= 1024)%Z /\ (1024 <= 2048)%Z /\
  (2048 <= 1024 * 1024)%Z /\
  (cosine_lr_lambda 0 1024 1024 default_num_cycles 2048
   <= cosine_lr_lambda 0 1024 1024 default_num_cycles 1024)%R.
Proof.
  repeat (split; [lia|]).
  destruct (cosine_schedule 0 1024 1024 default_num_cycles 1024)
    as (_ & _ & _ & _ & _ & H & _); [lia|].
  apply H; [lia | lia | lia | reflexivity].
Defined.

(** With [warmup_steps = 10], step 5 has the multiplier 0.5. *)
Example cosine_warmup_half (we te spe : Z) (cycles : R) :
  (we * spe = 10)%Z -> cosine_lr_lambda we te spe cycles 5 = (1 / 2)%R.
Proof.
  intros Hws. rewrite cosine_in_warmup by lia.
  rewrite Hws. unfold float. lra.
Qed.

(** C5 does not hold for every step: in the default run (no warmup, 1024
    epochs of 1024 steps, [cycles = 7/16]) the multiplier is 0 at three
    times the training length and positive again at four times. *)
Lemma cosine_increases_past_horizon :
  (0 * 1024 <= 3 * 1048576)%Z /\ (3 * 1048576 <= 4 * 1048576)%Z /\
  ~ (cosine_lr_lambda 0 1024 1024 default_num_cycles (4 * 1048576)
     <= cosine_lr_lambda 0 1024 1024 default_num_cycles (3 * 1048576))%R.
Proof.
  split; [lia|]. split; [lia|].
  pose proof PI_RGT_0 as Hpi.
  rewrite !cosine_after_warmup by lia.
  unfold cosine_angle, default_num_cycles, float.
  replace (Z.max 1 (1024 * 1024 - 0 * 1024)) with 1048576%Z by reflexivity.
  replace (3 * 1048576 - 0 * 1024)%Z with 3145728%Z by reflexivity.
  replace (4 * 1048576 - 0 * 1024)%Z with 4194304%Z by reflexivity.
  replace (PI * (7 / 16) * (3145728 / 1048576))%R with (21 * PI / 16)%R
    by lra.
  replace (PI * (7 / 16) * (4194304 / 1048576))%R with (3 * PI / 4 + PI)%R
    by lra.
  rewrite neg_cos.
  assert (H3 : (cos (21 * PI / 16) <= 0)%R) by (apply cos_le_0; lra).
  assert (H4 : (cos (3 * PI / 4) < 0)%R) by (apply cos_lt_0; lra).
  rewrite (Rmax_0_nonpos _ H3).
  unfold Rmax. destruct (Rle_dec 0 (- cos (3 * PI / 4))); lra.
Qed.

End ScheduleFacts.

Module TensorFacts.
Import Interleave Tensor.

Lemma has_shape_nth {A : Type} rows cols (m : list (list A)) i :
  has_shape rows cols m -> (i < rows)%nat -> length (nth i m []) = cols.
Proof.
  intros [Hl Hf] Hi. rewrite List.Forall_forall in Hf. apply Hf.
  apply nth_In. lia.
Qed.

Lemma nth_zip_with {A B C : Type} (f : A -> B -> C) a b i da db dc :
  (i < length a)%nat -> (i < length b)%nat ->
  nth i (zip_with f a b) dc = f (nth i a da) (nth i b db).
Proof.
  revert b i. induction a as [|x a IH]; intros [|y b] [|i] Ha Hb;
    simpl in *; try lia; [reflexivity|].
  apply IH; lia.
Qed.

Lemma zip_with_shape (f : R -> R -> R) B K (a b : Tensor2) :
  has_shape B K a -> has_shape B K b ->
  has_shape B K (zip_with (zip_with f) a b).
Proof.
  intros [Hla Hfa] [Hlb Hfb]. split.
  - rewrite length_zip_with. lia.
  - clear Hla Hlb. revert b Hfb.
    induction Hfa as [|r a Hr Ha IH]; intros b Hfb; [constructor|].
    destruct Hfb as [|r' b Hr' Hb]; [constructor|]. simpl.
    constructor; [rewrite length_zip_with; lia | apply IH, Hb].
Qed.

Lemma zip_with_entry (f : R -> R -> R) B K (a b : Tensor2) i j :
  has_shape B K a -> has_shape B K b -> (i < B)%nat -> (j < K)%nat ->
  entry (zip_with (zip_with f) a b) i j = f (entry a i j) (entry b i j).
Proof.
  intros Ha Hb Hi Hj. unfold entry.
  rewrite (nth_zip_with _ a b i [] [] [])
    by (destruct Ha, Hb; lia).
  apply nth_zip_with.
  - rewrite (has_shape_nth B K) by assumption. exact Hj.
  - rewrite (has_shape_nth B K) by assumption. exact Hj.
Qed.

Lemma map_rows_shape (f : Tensor1 -> Tensor1) B K (t : Tensor2) :
  (forall r, length (f r) = length r) ->
  has_shape B K t -> has_shape B K (map f t).
Proof.
  intros Hf [Hl Hr]. split; [rewrite length_map; exact Hl|].
  apply Forall_map. eapply Forall_impl; [exact Hr|].
  simpl. intros r Hlen. rewrite Hf. exact Hlen.
Qed.

Lemma div_scalar_shape B K t c :
  has_shape B K t -> has_shape B K (div_scalar t c).
Proof. apply map_rows_shape. intros r. apply length_map. Qed.

Lemma softmax_shape B K t : has_shape B K t -> has_shape B K (softmax t).
Proof.
  apply map_rows_shape. intros r. unfold softmax_row.
  rewrite !length_map. reflexivity.
Qed.

Lemma div_scalar_entry t c i j :
  entry (div_scalar t c) i j = (entry t i j / c)%R.
Proof.
  unfold entry, div_scalar.
  change (@nil R) with (map (fun v => (v / c)%R) []) at 1.
  rewrite map_nth.
  replace 0%R with (0 / c)%R at 1 by (unfold Rdiv; apply Rmult_0_l).
  exact (map_nth (fun v => (v / c)%R) (nth i t []) 0%R j).
Qed.

(** The maximum of a row: its index is in range, its value is the entry at
    that index, and no entry exceeds it. *)
Lemma max_from_spec (l pre : Tensor1) (best : R) (bi i : nat) :
  i = length pre -> (bi < i)%nat -> nth bi pre 0%R = best ->
  (forall j, (j < i)%nat -> (nth j pre 0 <= best)%R) ->
  let '(v, t) := max_from best bi i l in
  (t < length (pre ++ l))%nat /\ nth t (pre ++ l) 0%R = v /\
  forall j, (j < length (pre ++ l))%nat -> (nth j (pre ++ l) 0 <= v)%R.
Proof.
  revert pre best bi i.
  induction l as [|x l IH]; intros pre best bi i Hi Hbi Hnth Hmax.
  - simpl. rewrite app_nil_r. subst i. auto.
  - simpl.
    replace (pre ++ x :: l) with ((pre ++ [x]) ++ l)
      by (rewrite <- app_assoc; reflexivity).
    assert (Hlen : S i = length (pre ++ [x]))
      by (rewrite length_app; simpl; lia).
    destruct (Rlt_dec best x) as [Hlt | Hge].
    + apply IH; [exact Hlen | lia | |].
      * rewrite app_nth2, Hi, Nat.sub_diag by lia. reflexivity.
      * intros j Hj. destruct (Nat.eq_dec j i) as [-> | Hne].
        -- rewrite app_nth2, Hi, Nat.sub_diag by lia. simpl. lra.
        -- rewrite app_nth1 by lia. specialize (Hmax j ltac:(lia)). lra.
    + apply IH; [exact Hlen | lia | |].
      * rewrite app_nth1 by lia. exact Hnth.
      * intros j Hj. destruct (Nat.eq_dec j i) as [-> | Hne].
        -- rewrite app_nth2, Hi, Nat.sub_diag by lia. simpl. lra.
        -- rewrite app_nth1 by lia. apply Hmax. lia.
Qed.

Lemma row_max_spec (row : Tensor1) (v : R) (t : nat) :
  row_max row = Some (v, t) ->
  (t < length row)%nat /\ nth t row 0%R = v /\
  forall j, (j < length row)%nat -> (nth j row 0 <= v)%R.
Proof.
  destruct row as [|x r]; [discriminate|]. simpl. intros [= Heq].
  pose proof (max_from_spec r [x] x 0%nat 1%nat) as H. simpl in H.
  rewrite Heq in H. apply H; [reflexivity | lia | reflexivity|].
  intros [|j] Hj; [lra | lia].
Qed.

Lemma sum_exp_nonneg (row : Tensor1) : (0 <= sum_list (map exp row))%R.
Proof.
  induction row as [|x row IH]; simpl; [lra|].
  pose proof (exp_pos x). lra.
Qed.

Lemma sum_exp_pos (x : R) (row : Tensor1) :
  (0 < sum_list (map exp (x :: row)))%R.
Proof.
  simpl. pose proof (exp_pos x). pose proof (sum_exp_nonneg row). lra.
Qed.

(** In exact arithmetic a softmax has no zero entry. *)
Lemma softmax_row_pos (row : Tensor1) :
  Forall (fun v => (0 < v)%R) (softmax_row row).
Proof.
  destruct row as [|x row]; [constructor|].
  unfold softmax_row. pose proof (sum_exp_pos x row) as HS.
  apply Forall_map, Forall_map, List.Forall_forall. intros v _. simpl.
  unfold Rdiv. apply Rmult_lt_0_compat; [apply exp_pos|].
  apply Rinv_0_lt_compat, HS.
Qed.

Lemma softmax_entry_pos B K (t : Tensor2) (i j : nat) :
  has_shape B K t -> (i < B)%nat -> (j < K)%nat ->
  (0 < entry (softmax t) i j)%R.
Proof.
  intros Ht Hi Hj. unfold entry, softmax.
  change (@nil R) with (softmax_row []) at 1. rewrite map_nth.
  pose proof (softmax_row_pos (nth i t [])) as Hpos.
  rewrite Forall_nth in Hpos. apply Hpos.
  unfold softmax_row. rewrite !length_map.
  rewrite (has_shape_nth B K) by assumption. exact Hj.
Qed.
End TensorFacts.

Module PseudoLabelFacts.
Import Interleave Tensor PseudoLabel TensorFacts.

Lemma Forall2_nth {A B : Type} (P : A -> B -> Prop) l k i da db :
  Forall2 P l k -> (i < length l)%nat -> P (nth i l da) (nth i k db).
Proof.
  intros H. revert i. induction H as [|x y l k Hxy H IH]; intros i Hi.
  - simpl in Hi. lia.
  - destruct i as [|i]; simpl in *; [exact Hxy | apply IH; lia].
Qed.

(** [torch.max] over the last axis succeeds on rows that are not empty and
    gives, row by row, the result of [row_max]. *)
Lemma max_last_dim_spec B K (t : Tensor2) :
  has_shape B K t -> (0 < K)%nat ->
  exists vals idxs,
    max_last_dim t = Some (vals, idxs) /\
    length vals = B /\ length idxs = B /\
    forall i, (i < B)%nat ->
              row_max (nth i t []) = Some (nth i vals 0%R, nth i idxs 0%nat).
Proof.
  intros [Hl Hf] HK.
  assert (Hsome : is_Some (mapM row_max t)).
  { apply mapM_is_Some. eapply Forall_impl; [exact Hf|].
    intros [|x r] Hr; simpl in *; [lia | eexists; reflexivity]. }
  destruct Hsome as [rows Hrows].
  exists (map fst rows), (map snd rows).
  pose proof (length_mapM _ _ _ Hrows) as Hlen.
  unfold max_last_dim. rewrite Hrows. simpl.
  split; [reflexivity|]. rewrite !length_map.
  split; [lia|]. split; [lia|].
  intros i Hi. apply mapM_Some_1 in Hrows.
  pose proof (Forall2_nth _ _ _ i [] (0%R, 0%nat) Hrows ltac:(lia)) as Hrow.
  simpl in Hrow. rewrite Hrow.
  pose proof (map_nth fst rows (0%R, 0%nat) i) as Hv.
  pose proof (map_nth snd rows (0%R, 0%nat) i) as Ht.
  simpl in Hv, Ht. rewrite Hv, Ht.
  destruct (nth i rows (0%R, 0%nat)); reflexivity.
Qed.

Lemma ge_float_nth (v : Tensor1) (c : R) i :
  (i < length v)%nat ->
  nth i (ge_float v c) 0%R = if Rge_dec (nth i v 0%R) c then 1%R else 0%R.
Proof.
  intros Hi. unfold ge_float.
  rewrite (nth_indep _ 0%R ((fun m => if Rge_dec m c then 1%R else 0%R) 0%R))
    by (rewrite length_map; exact Hi).
  exact (map_nth (fun m => if Rge_dec m c then 1%R else 0%R) v 0%R i).
Qed.

Section Generator.
Context {St Features : Type}.
Variable classifier : St -> Features -> Tensor2 * St.
Variables (B K : nat) (features_u_w : Features) (T : R).
Hypothesis classifier_shape :
  forall st, has_shape B K (fst (classifier st features_u_w)).

(** The loop multiplies [p_mul] by, and adds to [p_sum], every sampled
    pass, entry by entry. *)
Lemma resample_spec (n : nat) (st : St) (p_mul p_sum : Tensor2) :
  has_shape B K p_mul -> has_shape B K p_sum ->
  let '(p_mul', p_sum', _) :=
    resample classifier n st features_u_w T p_mul p_sum in
  let ps := sampled_probs classifier n st features_u_w T in
  has_shape B K p_mul' /\ has_shape B K p_sum' /\ length ps = n /\
  forall i j, (i < B)%nat -> (j < K)%nat ->
    entry p_mul' i j = (entry p_mul i j * entry_product ps i j)%R /\
    entry p_sum' i j = (entry p_sum i j + entry_sum ps i j)%R.
Proof.
  revert st p_mul p_sum.
  induction n as [|n IH]; intros st p_mul p_sum Hm Hs; simpl.
  - split; [assumption|]. split; [assumption|]. split; [reflexivity|].
    intros i j _ _. unfold entry_product, entry_sum. simpl. lra.
  - pose proof (classifier_shape st) as Hc.
    destruct (classifier st features_u_w) as [logits st']. simpl in Hc.
    set (prob := softmax (div_scalar logits T)).
    assert (Hp : has_shape B K prob)
      by (apply softmax_shape, div_scalar_shape, Hc).
    specialize (IH st' (mul p_mul prob) (add p_sum prob)
                   (zip_with_shape _ _ _ _ _ Hm Hp)
                   (zip_with_shape _ _ _ _ _ Hs Hp)).
    destruct (resample classifier n st' features_u_w T (mul p_mul prob)
                       (add p_sum prob)) as [[p_mul' p_sum'] st''].
    destruct IH as (Hm' & Hs' & Hlen & Hent).
    split; [assumption|]. split; [assumption|]. split; [simpl; lia|].
    intros i j Hi Hj. destruct (Hent i j Hi Hj) as [He1 He2]. split.
    + rewrite He1. unfold mul. rewrite (zip_with_entry _ B K) by assumption.
      unfold entry_product. simpl. lra.
    + rewrite He2. unfold add. rewrite (zip_with_entry _ B K) by assumption.
      unfold entry_sum. simpl. lra.
Qed.

(** C2: for every threshold [tau], temperature [T] and classifier count
    [C >= 1] the generator succeeds; [p_mul] is the entrywise product of
    the [C] softmax passes and [p_sum] their entrywise sum divided by [C];
    the hard target of a row is the index of a maximal entry of the row of
    [p_mul], and the mask of the row is 1 when that maximum is at least
    [tau] and 0 otherwise.  So a row [0.96, 0.02, 0.02] has, for
    [tau = 0.95], mask 1 and target 0, and a row of maximum 0.80 has
    mask 0. *)
Theorem generate_spec (logits_u_w : Tensor2) (C : Z) (tau : R) (st : St) :
  has_shape B K logits_u_w -> (0 < K)%nat -> (1 <= C)%Z ->
  exists pl st',
    generate classifier logits_u_w features_u_w T C tau st = Some (pl, st') /\
    let ps := passes classifier logits_u_w features_u_w T C st in
    let p_mul := pseudo_label_mul pl in
    length ps = Z.to_nat C /\
    (forall i j, (i < B)%nat -> (j < K)%nat ->
       entry p_mul i j = entry_product ps i j /\
       entry (pseudo_label_sum pl) i j = (entry_sum ps i j / IZR C)%R) /\
    length (targets_u pl) = B /\ length (mask pl) = B /\
    (forall i, (i < B)%nat ->
       let t := nth i (targets_u pl) 0%nat in
       (t < K)%nat /\
       nth i (max_probs pl) 0%R = entry p_mul i t /\
       (forall j, (j < K)%nat -> (entry p_mul i j <= entry p_mul i t)%R) /\
       nth i (mask pl) 0%R
       = if Rge_dec (entry p_mul i t) tau then 1%R else 0%R) /\
    (forall i, (i < B)%nat -> tau = 0.95%R ->
       nth i p_mul [] = [0.96; 0.02; 0.02]%R ->
       nth i (mask pl) 0%R = 1%R /\ nth i (targets_u pl) 0%nat = 0%nat) /\
    (forall i, (i < B)%nat -> tau = 0.95%R ->
       nth i (max_probs pl) 0%R = 0.80%R -> nth i (mask pl) 0%R = 0%R).
Proof.
  intros Hlog HK HC. unfold generate, passes.
  set (p1 := softmax (div_scalar logits_u_w T)).
  assert (Hp1 : has_shape B K p1)
    by (apply softmax_shape, div_scalar_shape, Hlog).
  pose proof (resample_spec (Z.to_nat (C - 1)) st p1 p1 Hp1 Hp1) as Hres.
  destruct (resample classifier (Z.to_nat (C - 1)) st features_u_w T p1 p1)
    as [[p_mul p_sum] st'].
  destruct Hres as (Hm & Hs & Hlen & Hent).
  destruct (max_last_dim_spec B K p_mul Hm HK)
    as (vals & idxs & Hmax & Hlv & Hli & Hrows).
  rewrite Hmax. simpl.
  eexists _, st'. split; [reflexivity|]. simpl.
  assert (Hmask : forall i, (i < B)%nat ->
            nth i (ge_float vals tau) 0%R
            = if Rge_dec (nth i vals 0%R) tau then 1%R else 0%R)
    by (intros i Hi; apply ge_float_nth; lia).
  split; [rewrite Hlen; lia|].
  split.
  { intros i j Hi Hj. destruct (Hent i j Hi Hj) as [He1 He2]. split.
    - rewrite He1. unfold entry_product. simpl. reflexivity.
    - rewrite div_scalar_entry, He2. unfold entry_sum. simpl. reflexivity. }
  split; [exact Hli|].
  split; [unfold ge_float; rewrite length_map; exact Hlv|].
  split; [|split].
  - intros i Hi.
    destruct (row_max_spec _ _ _ (Hrows i Hi)) as (Ht & Hv & Hle).
    rewrite (has_shape_nth B K) in Ht, Hle by assumption.
    split; [exact Ht|]. split; [symmetry; exact Hv|].
    split; [intros j Hj; unfold entry; rewrite Hv; apply Hle, Hj|].
    rewrite Hmask by assumption. unfold entry. rewrite Hv. reflexivity.
  - intros i Hi -> Hrow. specialize (Hrows i Hi). rewrite Hrow in Hrows.
    rewrite Hmask by assumption.
    assert (Hr : row_max [0.96; 0.02; 0.02]%R = Some (0.96%R, 0%nat)).
    { simpl. repeat (destruct (Rlt_dec _ _); [lra|]). reflexivity. }
    rewrite Hr in Hrows. injection Hrows as Hv Ht. rewrite <- Hv, <- Ht.
    split; [|reflexivity]. destruct (Rge_dec 0.96 0.95); [reflexivity | lra].
  - intros i Hi -> Hv. rewrite Hmask by assumption. rewrite Hv.
    destruct (Rge_dec 0.80 0.95); [lra | reflexivity].
Qed.
End Generator.

(** A head whose logits depend on the state of the generator, one row
    over two classes, two classifiers. *)
Lemma generate_spec_witness :
  let classifier := fun (st : nat) (_ : unit) => ([[INR st; 0%R]], S st) in
  (forall st, has_shape 1 2 (fst (classifier st tt))) /\
  has_shape 1 2 [[1; 0]]%R /\ (0 < 2)%nat /\ (1 <= 2)%Z /\
  exists pl st',
    generate classifier [[1; 0]]%R tt 1%R 2 0.95%R 0%nat = Some (pl, st') /\
    length (mask pl) = 1%nat.
Proof.
  intros classifier.
  assert (Hc : forall st, has_shape 1 2 (fst (classifier st tt)))
    by (intros st; split; [reflexivity | repeat constructor]).
  assert (Hl : has_shape 1 2 [[1; 0]]%R)
    by (split; [reflexivity | repeat constructor]).
  split; [exact Hc|]. split; [exact Hl|]. split; [lia|]. split; [lia|].
  destruct (generate_spec classifier 1 2 tt 1%R Hc [[1; 0]]%R 2 0.95%R 0%nat
                          Hl ltac:(lia) ltac:(lia))
    as (pl & st' & Hgen & _ & _ & _ & Hmask & _).
  exists pl, st'. split; [exact Hgen | exact Hmask].
Defined.
End PseudoLabelFacts.

Module LossFacts.
Import Interleave Tensor Loss TensorFacts.
Import Special(value(..), vadd, vmul, vdiv, vneg, pow_half).

Lemma index_sum_S (n : nat) (f : nat -> R) :
  index_sum (S n) f = (f 0%nat + index_sum n (fun i => f (S i)))%R.
Proof.
  unfold index_sum. simpl. rewrite <- seq_shift, map_map. reflexivity.
Qed.

Lemma index_sum_ext (n : nat) (f g : nat -> R) :
  (forall i, (i < n)%nat -> f i = g i) -> index_sum n f = index_sum n g.
Proof.
  revert f g. induction n as [|n IH]; intros f g Hfg; [reflexivity|].
  rewrite !index_sum_S, (Hfg 0%nat) by lia.
  f_equal. apply IH. intros i Hi. apply Hfg. lia.
Qed.

Lemma sum_list_index (l : Tensor1) :
  sum_list l = index_sum (length l) (fun i => nth i l 0%R).
Proof.
  induction l as [|x l IH]; [reflexivity|].
  simpl length. rewrite index_sum_S. simpl. rewrite IH. reflexivity.
Qed.

Lemma sum_list_map_div (l : Tensor1) (c : R) :
  sum_list (map (fun v => (v / c)%R) l) = (sum_list l / c)%R.
Proof.
  induction l as [|x l IH]; simpl.
  - unfold Rdiv. rewrite Rmult_0_l. reflexivity.
  - rewrite IH. unfold Rdiv. ring.
Qed.

Lemma sum1_nth (t : Tensor2) (i : nat) :
  nth i (sum1 t) 0%R = sum_list (nth i t []).
Proof. exact (map_nth sum_list t [] i). Qed.

Lemma length_sum0 B K (t : Tensor2) :
  has_shape B K t -> length (sum0 K t) = K.
Proof.
  intros [_ Hf]. induction Hf as [|r t Hr Ht IH]; simpl.
  - apply length_replicate.
  - rewrite length_zip_with. lia.
Qed.

(** The sum over the batch axis, class by class. *)
Lemma sum0_nth B K (t : Tensor2) (j : nat) :
  has_shape B K t -> (j < K)%nat ->
  nth j (sum0 K t) 0%R = index_sum B (fun i => entry t i j).
Proof.
  intros [Hl Hf] Hj. subst B. induction Hf as [|r t Hr Ht IH].
  - simpl. change (index_sum 0 (fun i => entry [] i j)) with 0%R.
    clear Hj. revert j.
    induction K as [|K IHK]; intros [|j]; simpl; auto.
  - simpl length. rewrite index_sum_S. simpl sum0.
    rewrite (nth_zip_with Rplus r _ j 0%R 0%R 0%R).
    + rewrite IH. reflexivity.
    + lia.
    + rewrite (length_sum0 (length t) K); [lia | split; [reflexivity | exact Ht]].
Qed.

Lemma zip_div_nonneg (row denom : Tensor1) :
  Forall (fun v => (0 <= v)%R) row -> Forall (fun d => (0 < d)%R) denom ->
  (0 <= sum_list (zip_with Rdiv row denom))%R.
Proof.
  intros Hrow. revert denom.
  induction Hrow as [|v row Hv Hrow IH]; intros denom Hd; simpl; [lra|].
  destruct Hd as [|d denom Hd Hds]; simpl; [lra|].
  specialize (IH denom Hds).
  assert (0 <= v / d)%R
    by (unfold Rdiv; apply Rmult_le_pos;
        [exact Hv | left; apply Rinv_0_lt_compat, Hd]).
  lra.
Qed.

(** The sum of a row of [p_sum / denominator] is positive when the row
    has a positive entry. *)
Lemma zip_div_pos (row denom : Tensor1) :
  Forall (fun v => (0 <= v)%R) row -> Exists (fun v => (0 < v)%R) row ->
  Forall (fun d => (0 < d)%R) denom -> (length row <= length denom)%nat ->
  (0 < sum_list (zip_with Rdiv row denom))%R.
Proof.
  intros Hrow Hex. revert denom.
  induction Hex as [v row Hv | v row Hex IH]; intros denom Hd Hlen;
    inversion Hrow as [|? ? Hv0 Hrow']; subst;
    (destruct Hd as [|d denom Hd Hds]; [simpl in Hlen; lia|]); simpl.
  - pose proof (zip_div_nonneg row denom Hrow' Hds).
    assert (0 < v / d)%R
      by (unfold Rdiv; apply Rmult_lt_0_compat;
          [exact Hv | apply Rinv_0_lt_compat, Hd]).
    lra.
  - specialize (IH Hrow' denom Hds ltac:(simpl in Hlen; lia)).
    assert (0 <= v / d)%R
      by (unfold Rdiv; apply Rmult_le_pos;
          [exact Hv0 | left; apply Rinv_0_lt_compat, Hd]).
    lra.
Qed.

Lemma div_col_row (a : Tensor2) (c : Tensor1) (i : nat) :
  (i < length a)%nat -> (i < length c)%nat ->
  nth i (div_col a c) []
  = map (fun v => (v / nth i c 0)%R) (nth i a []).
Proof.
  intros Ha Hc. unfold div_col.
  apply (nth_zip_with (fun row c => map (fun v => (v / c)%R) row));
    assumption.
Qed.

Lemma div_row_row (a : Tensor2) (b : Tensor1) (i : nat) :
  (i < length a)%nat ->
  nth i (div_row a b) [] = zip_with Rdiv (nth i a []) b.
Proof.
  intros Ha. unfold div_row.
  rewrite (nth_indep _ [] ((fun row => zip_with Rdiv row b) []))
    by (rewrite length_map; exact Ha).
  exact (map_nth (fun row => zip_with Rdiv row b) a [] i).
Qed.

Lemma depict_denominator_pos K (p : Tensor2) :
  Forall (fun c => (0 < c)%R) (sum0 K p) ->
  Forall (fun d => (0 < d)%R) (depict_denominator K p).
Proof.
  intros H. unfold depict_denominator. apply Forall_map.
  eapply Forall_impl; [exact H|]. intros c Hc. apply sqrt_lt_R0, Hc.
Qed.

Lemma div_row_shape B K (a : Tensor2) (b : Tensor1) :
  has_shape B K a -> length b = K -> has_shape B K (div_row a b).
Proof.
  intros [Hl Hf] Hb. split; [unfold div_row; rewrite length_map; exact Hl|].
  unfold div_row. apply Forall_map. eapply Forall_impl; [exact Hf|].
  simpl. intros r Hr. rewrite length_zip_with. lia.
Qed.

Lemma div_col_shape B K (a : Tensor2) (c : Tensor1) :
  has_shape B K a -> length c = B -> has_shape B K (div_col a c).
Proof.
  intros [Hl Hf] Hc. unfold div_col. split; [rewrite length_zip_with; lia|].
  clear Hl Hc. revert c. induction Hf as [|r a Hr Ha IH]; intros c.
  - constructor.
  - destruct c as [|x c]; [constructor|]. simpl.
    constructor; [rewrite length_map; exact Hr | apply IH].
Qed.

Lemma nth_map_div (l : Tensor1) (c : R) (j : nat) :
  nth j (map (fun v => (v / c)%R) l) 0%R = (nth j l 0 / c)%R.
Proof.
  replace 0%R with (0 / c)%R at 1 by (unfold Rdiv; apply Rmult_0_l).
  exact (map_nth (fun v => (v / c)%R) l 0%R j).
Qed.

Lemma nth_map_sqrt (l : Tensor1) (j : nat) :
  nth j (map sqrt l) 0%R = sqrt (nth j l 0%R).
Proof.
  rewrite <- sqrt_0 at 1. exact (map_nth sqrt l 0%R j).
Qed.

Section Depict.
Variables (B K : nat) (p_sum : Tensor2).
Hypothesis p_sum_shape : has_shape B K p_sum.

Local Abbreviation scaled := (scaled_entry B p_sum).
Local Abbreviation aux := (depict_scaled K p_sum p_sum).

Lemma length_depict_denominator : length (depict_denominator K p_sum) = K.
Proof.
  unfold depict_denominator. rewrite length_map.
  apply (length_sum0 B), p_sum_shape.
Qed.

Lemma aux_shape : has_shape B K aux.
Proof. apply div_row_shape; [exact p_sum_shape | apply length_depict_denominator]. Qed.

Lemma aux_entry (i j : nat) :
  (i < B)%nat -> (j < K)%nat -> entry aux i j = scaled i j.
Proof.
  intros Hi Hj. unfold entry, depict_scaled.
  rewrite div_row_row by (destruct p_sum_shape; lia).
  rewrite (nth_zip_with Rdiv _ _ j 0%R 0%R 0%R).
  - unfold depict_denominator. rewrite nth_map_sqrt.
    rewrite (sum0_nth B K) by assumption. reflexivity.
  - rewrite (has_shape_nth B K) by assumption. exact Hj.
  - rewrite length_depict_denominator. exact Hj.
Qed.

Lemma aux_row_sum (i : nat) :
  (i < B)%nat -> sum_list (nth i aux []) = index_sum K (scaled i).
Proof.
  intros Hi. rewrite sum_list_index.
  rewrite (has_shape_nth B K) by (exact aux_shape || exact Hi).
  apply index_sum_ext. intros j Hj. apply (aux_entry i j Hi Hj).
Qed.

Lemma aux_row_sum_pos (i : nat) :
  non_degenerate K p_sum -> (i < B)%nat -> (0 < sum_list (nth i aux []))%R.
Proof.
  intros (Hnn & Hcols & Hrows) Hi. unfold depict_scaled.
  rewrite div_row_row by (destruct p_sum_shape; lia).
  assert (Hin : In (nth i p_sum []) p_sum)
    by (apply nth_In; destruct p_sum_shape; lia).
  rewrite List.Forall_forall in Hnn, Hrows.
  apply zip_div_pos.
  - apply Hnn, Hin.
  - apply Hrows, Hin.
  - apply depict_denominator_pos, Hcols.
  - rewrite length_depict_denominator, (has_shape_nth B K) by assumption.
    lia.
Qed.

Lemma depict_target_row (i : nat) :
  (i < B)%nat ->
  nth i (depict_target K p_sum p_sum) []
  = map (fun v => (v / sum_list (nth i aux []))%R) (nth i aux []).
Proof.
  intros Hi. unfold depict_target.
  rewrite div_col_row.
  - rewrite sum1_nth. reflexivity.
  - destruct aux_shape. lia.
  - unfold sum1. rewrite length_map. destruct aux_shape. lia.
Qed.

Lemma depict_target_row_sum (i : nat) :
  non_degenerate K p_sum -> (i < B)%nat ->
  sum_list (nth i (depict_target K p_sum p_sum) []) = 1%R.
Proof.
  intros Hnd Hi.
  rewrite depict_target_row, sum_list_map_div by assumption.
  pose proof (aux_row_sum_pos i Hnd Hi). field. lra.
Qed.

End Depict.

(** The depict target with the values of floating point. *)

Lemma nth_map_lt {X Y : Type} (f : X -> Y) (l : list X) (i : nat) dx dy :
  (i < length l)%nat -> nth i (map f l) dy = f (nth i l dx).
Proof.
  intros Hi. rewrite (nth_indep _ dy (f dx)) by (rewrite length_map; exact Hi).
  apply map_nth.
Qed.

Lemma vdiv_fin (x y : R) : y <> 0%R -> vdiv (Fin x) (Fin y) = Fin (x / y).
Proof.
  intros Hy. unfold vdiv. destruct (Req_dec_T y 0); [contradiction|].
  reflexivity.
Qed.

Lemma vdiv_zero_zero : vdiv (Fin 0) (Fin 0) = NaN.
Proof.
  unfold vdiv. destruct (Req_dec_T 0 0) as [_ | H]; [reflexivity|].
  exfalso. apply H. reflexivity.
Qed.

Lemma vdiv_nan_r (v : value) : vdiv v NaN = NaN.
Proof. destruct v; reflexivity. Qed.

Lemma vadd_nan_r (v : value) : vadd v NaN = NaN.
Proof. destruct v; reflexivity. Qed.

Lemma vmul_nan_l (v : value) : vmul NaN v = NaN.
Proof. reflexivity. Qed.

Lemma pow_half_nonneg (x : R) : (0 <= x)%R -> pow_half x = Fin (sqrt x).
Proof.
  intros Hx. unfold pow_half. destruct (Rlt_dec x 0); [lra | reflexivity].
Qed.

Example special_values :
  vdiv (Fin 1) (Fin 0) = PInf /\ vdiv (Fin (-1)) (Fin 0) = NInf /\
  vdiv (Fin 0) (Fin 0) = NaN /\ vdiv (Fin 1) PInf = Fin 0 /\
  vdiv PInf PInf = NaN /\ vadd PInf NInf = NaN /\
  vmul PInf (Fin 0) = NaN /\ vmul NInf (Fin (-1)) = PInf /\
  pow_half (-1) = NaN /\ pow_half 0 = Fin 0.
Proof.
  rewrite (pow_half_nonneg 0), sqrt_0 by lra. unfold vdiv, vmul, pow_half.
  repeat match goal with
         | |- context [Req_dec_T ?x ?y] => destruct (Req_dec_T x y); try lra
         | |- context [Rlt_dec ?x ?y] => destruct (Rlt_dec x y); try lra
         end.
  repeat split; reflexivity.
Qed.

(** A sum with a [nan] among its terms is [nan]. *)
Lemma vsum_nan (l : Special.VTensor1) :
  In NaN l -> Special.sum_list l = NaN.
Proof.
  induction l as [|v l IH]; simpl; [contradiction|].
  intros [-> | Hin]; [reflexivity|]. rewrite IH by exact Hin.
  apply vadd_nan_r.
Qed.

Lemma vsum_fin (l : Tensor1) :
  Special.sum_list (map Fin l) = Fin (sum_list l).
Proof.
  induction l as [|x l IH]; simpl; [reflexivity|]. rewrite IH. reflexivity.
Qed.

Lemma vindex_sum_S (n : nat) (f : nat -> value) :
  Special.index_sum (S n) f
  = vadd (f 0%nat) (Special.index_sum n (fun i => f (S i))).
Proof.
  unfold Special.index_sum. simpl. rewrite <- seq_shift, map_map.
  reflexivity.
Qed.

Lemma vindex_sum_ext (n : nat) (f g : nat -> value) :
  (forall i, (i < n)%nat -> f i = g i) ->
  Special.index_sum n f = Special.index_sum n g.
Proof.
  revert f g. induction n as [|n IH]; intros f g Hfg; [reflexivity|].
  rewrite !vindex_sum_S, (Hfg 0%nat) by lia.
  f_equal. apply IH. intros i Hi. apply Hfg. lia.
Qed.

Lemma vsum_list_index (l : Special.VTensor1) :
  Special.sum_list l
  = Special.index_sum (length l) (fun i => nth i l (Fin 0)).
Proof.
  induction l as [|x l IH]; [reflexivity|].
  simpl length. rewrite vindex_sum_S. simpl. rewrite IH. reflexivity.
Qed.

Lemma vsum1_nth (t : Special.VTensor2) (i : nat) :
  nth i (Special.sum1 t) (Fin 0) = Special.sum_list (nth i t []).
Proof. exact (map_nth Special.sum_list t [] i). Qed.

(** Where no denominator is zero the divisions are those of the real
    numbers. *)
Lemma zip_vdiv_fin (row d : Tensor1) :
  Forall (fun y => y <> 0%R) d ->
  zip_with vdiv (map Fin row) (map Fin d) = map Fin (zip_with Rdiv row d).
Proof.
  intros Hd. revert row.
  induction Hd as [|y d Hy Hd IH]; intros [|x row]; cbn [zip_with map];
    try reflexivity.
  rewrite IH, vdiv_fin by exact Hy. reflexivity.
Qed.

Lemma depict_denominator_fin K (t : Tensor2) :
  Forall (fun c => (0 < c)%R) (sum0 K t) ->
  Special.depict_denominator K t = map Fin (depict_denominator K t).
Proof.
  intros Hpos. unfold Special.depict_denominator, depict_denominator.
  rewrite map_map. apply map_ext_in. intros c Hc.
  rewrite List.Forall_forall in Hpos. specialize (Hpos c Hc).
  apply pow_half_nonneg. lra.
Qed.

Lemma depict_scaled_fin K (t p : Tensor2) :
  Forall (fun c => (0 < c)%R) (sum0 K t) ->
  Special.depict_scaled K t p = Special.of_tensor (depict_scaled K t p).
Proof.
  intros Hpos.
  unfold Special.depict_scaled, Special.of_tensor, depict_scaled, div_row.
  rewrite depict_denominator_fin by exact Hpos. rewrite map_map.
  apply map_ext. intros row. apply zip_vdiv_fin.
  eapply Forall_impl; [apply depict_denominator_pos, Hpos|].
  simpl. intros d Hd. lra.
Qed.

Lemma normalise_fin (a : Tensor2) :
  Forall (fun row => sum_list row <> 0%R) a ->
  zip_with (fun row c => map (fun v => vdiv v c) row)
           (Special.of_tensor a) (Special.sum1 (Special.of_tensor a))
  = Special.of_tensor (div_col a (sum1 a)).
Proof.
  unfold Special.of_tensor, Special.sum1, div_col, sum1.
  induction 1 as [|row a Hrow Ha IH]; simpl; [reflexivity|].
  rewrite IH, vsum_fin, !map_map. f_equal.
  apply map_ext. intros v. apply vdiv_fin, Hrow.
Qed.

(** The target is that of the real numbers when every class has a
    positive sum and no row of [p_sum / denominator] sums to zero. *)
Lemma depict_target_fin K (t p : Tensor2) :
  Forall (fun c => (0 < c)%R) (sum0 K t) ->
  Forall (fun row => sum_list row <> 0%R) (depict_scaled K t p) ->
  Special.depict_target K t p = Special.of_tensor (depict_target K t p).
Proof.
  intros Hpos Hrows. unfold Special.depict_target, depict_target.
  rewrite depict_scaled_fin by exact Hpos. apply normalise_fin, Hrows.
Qed.

Lemma zip_vmul_fin (a b : Tensor1) :
  zip_with vmul (map Fin a) (map Fin b) = map Fin (zip_with Rmult a b).
Proof.
  revert b. induction a as [|x a IH]; intros [|y b]; simpl; try reflexivity.
  rewrite IH. reflexivity.
Qed.

Lemma mul_fin (a b : Tensor2) :
  zip_with (zip_with vmul) (Special.of_tensor a) (Special.of_tensor b)
  = Special.of_tensor (mul a b).
Proof.
  unfold Special.of_tensor, mul. revert b.
  induction a as [|r a IH]; intros [|s b]; simpl; try reflexivity.
  rewrite IH, zip_vmul_fin. reflexivity.
Qed.

Lemma vsum1_fin (t : Tensor2) :
  Special.sum1 (Special.of_tensor t) = map Fin (sum1 t).
Proof.
  unfold Special.sum1, Special.of_tensor, sum1. rewrite !map_map.
  apply map_ext. intros row. apply vsum_fin.
Qed.

(** The loss of a finite target over a batch that is not empty is that of
    the real numbers. *)
Lemma depict_loss_fin B K (t logits_u : Tensor2) (mask : Tensor1) :
  (0 < B)%nat -> has_shape B K t -> has_shape B K logits_u ->
  length mask = B ->
  Special.depict_loss (Special.of_tensor t) logits_u mask
  = Fin (depict_loss t logits_u mask).
Proof.
  intros HB [Ht _] [Hl _] Hm. unfold Special.depict_loss, depict_loss.
  rewrite mul_fin, vsum1_fin, zip_vmul_fin.
  unfold Special.mean, mean. rewrite vsum_fin, length_map, vdiv_fin.
  - reflexivity.
  - apply not_0_INR. rewrite length_zip_with. unfold sum1, mul, log_softmax.
    rewrite length_map, length_zip_with, length_map. lia.
Qed.

(** The loss in terms of the entries of the target. *)
Lemma depict_loss_entries B K (t : Special.VTensor2) (logits_u : Tensor2)
  (mask : Tensor1) :
  has_shape B K t -> has_shape B K logits_u -> length mask = B ->
  Special.depict_loss t logits_u mask
  = vneg (vdiv
            (Special.index_sum B (fun i =>
               vmul (Special.index_sum K (fun j =>
                       vmul (Special.entry t i j)
                            (Fin (entry (log_softmax logits_u) i j))))
                    (Fin (nth i mask 0%R))))
            (Fin (INR B))).
Proof.
  intros Ht Hl Hm. unfold Special.depict_loss, Special.mean.
  assert (Hlsm : has_shape B K (log_softmax logits_u)).
  { apply map_rows_shape; [|exact Hl].
    intros r. unfold log_softmax_row. apply length_map. }
  set (lsm := log_softmax logits_u) in *.
  set (prod := zip_with (zip_with vmul) t (Special.of_tensor lsm)).
  assert (Hof : length (Special.of_tensor lsm) = B)
    by (unfold Special.of_tensor; rewrite length_map; destruct Hlsm; lia).
  assert (Hprod : length prod = B)
    by (unfold prod; rewrite length_zip_with; destruct Ht; lia).
  assert (Hlen : length (zip_with vmul (Special.sum1 prod) (map Fin mask)) = B)
    by (rewrite length_zip_with; unfold Special.sum1;
        rewrite !length_map; lia).
  rewrite vsum_list_index, Hlen. f_equal. f_equal.
  apply vindex_sum_ext. intros i Hi.
  rewrite (nth_zip_with vmul _ _ i (Fin 0) (Fin 0) (Fin 0))
    by (unfold Special.sum1; rewrite !length_map; lia).
  rewrite vsum1_nth, (nth_map_lt Fin mask i 0%R) by lia. f_equal.
  unfold prod.
  rewrite (nth_zip_with (zip_with vmul) _ _ i [] [] [])
    by (destruct Ht; lia).
  unfold Special.of_tensor. rewrite (nth_map_lt (map Fin) lsm i [])
    by (destruct Hlsm; lia).
  pose proof (has_shape_nth B K t i Ht Hi) as Hrt.
  pose proof (has_shape_nth B K lsm i Hlsm Hi) as Hrl.
  rewrite vsum_list_index, length_zip_with, length_map, Hrt, Hrl, Nat.min_id.
  apply vindex_sum_ext. intros j Hj.
  rewrite (nth_zip_with vmul _ _ j (Fin 0) (Fin 0) (Fin 0))
    by (rewrite ?length_map; lia).
  rewrite (nth_map_lt Fin _ j 0%R) by lia. reflexivity.
Qed.

Lemma vindex_sum_fin (n : nat) (f : nat -> R) :
  Special.index_sum n (fun j => Fin (f j)) = Fin (index_sum n f).
Proof.
  unfold Special.index_sum, index_sum. rewrite <- vsum_fin, map_map.
  reflexivity.
Qed.

Lemma index_sum_div (n : nat) (f : nat -> R) (c : R) :
  index_sum n (fun j => (f j / c)%R) = (index_sum n f / c)%R.
Proof.
  unfold index_sum. rewrite <- sum_list_map_div, map_map. reflexivity.
Qed.

(** A sum is finite only if all its terms are. *)
Lemma vsum_fin_inv (l : Special.VTensor1) (s : R) :
  Special.sum_list l = Fin s -> exists l', l = map Fin l' /\ sum_list l' = s.
Proof.
  revert s. induction l as [|v l IH]; simpl; intros s Hs.
  - exists []. split; [reflexivity|]. injection Hs as <-. reflexivity.
  - destruct v as [x| | |];
      destruct (Special.sum_list l) as [y| | |] eqn:Hl; try discriminate.
    destruct (IH y eq_refl) as (l' & -> & Hy).
    exists (x :: l'). split; [reflexivity|].
    simpl in Hs. injection Hs as <-. simpl. rewrite Hy. reflexivity.
Qed.

(** A quotient is finite only if the numerator is. *)
Lemma vdiv_fin_inv (v d : value) (x : R) :
  vdiv v d = Fin x -> exists y, v = Fin y.
Proof.
  destruct v as [y| | |]; [exists y; reflexivity| | |];
    destruct d as [z| | |]; simpl; try discriminate;
    destruct (Rlt_dec z 0); discriminate.
Qed.

Lemma vdiv_fin_fin_inv (x s y : R) :
  vdiv (Fin x) (Fin s) = Fin y -> s <> 0%R.
Proof.
  unfold vdiv. destruct (Req_dec_T s 0) as [_ | Hs]; [|intros _; exact Hs].
  destruct (Req_dec_T x 0); [discriminate|].
  destruct (Rlt_dec 0 x); discriminate.
Qed.

Lemma vdiv_pow_half_inv (x c y : R) :
  vdiv (Fin x) (pow_half c) = Fin y -> (0 < c)%R.
Proof.
  unfold pow_half. destruct (Rlt_dec c 0) as [Hc | Hc]; [discriminate|].
  intros H. apply vdiv_fin_fin_inv in H.
  destruct (Req_dec_T c 0) as [-> | Hc0]; [|lra].
  exfalso. apply H, sqrt_0.
Qed.

Lemma vdiv_pow_half (x c : R) :
  (0 < c)%R -> vdiv (Fin x) (pow_half c) = Fin (x / sqrt c).
Proof.
  intros Hc. rewrite pow_half_nonneg by lra. apply vdiv_fin.
  pose proof (sqrt_lt_R0 c Hc). lra.
Qed.

Section DepictValues.
Variables (B K : nat) (p_sum : Tensor2).
Hypothesis p_sum_shape : has_shape B K p_sum.

Local Abbreviation vscaled := (Special.scaled_entry B p_sum).
Local Abbreviation vaux := (Special.depict_scaled K p_sum p_sum).

Lemma length_vdenominator :
  length (Special.depict_denominator K p_sum) = K.
Proof.
  unfold Special.depict_denominator. rewrite length_map.
  apply (length_sum0 B), p_sum_shape.
Qed.

Lemma vaux_row (i : nat) :
  (i < B)%nat ->
  nth i vaux []
  = zip_with vdiv (map Fin (nth i p_sum []))
             (Special.depict_denominator K p_sum).
Proof.
  intros Hi. unfold Special.depict_scaled.
  rewrite (nth_map_lt _ p_sum i []) by (destruct p_sum_shape; lia).
  reflexivity.
Qed.

Lemma vaux_shape : has_shape B K vaux.
Proof.
  destruct p_sum_shape as [Hl Hf]. unfold Special.depict_scaled.
  split; [rewrite length_map; exact Hl|].
  apply Forall_map. eapply Forall_impl; [exact Hf|].
  simpl. intros r Hr.
  rewrite length_zip_with, length_map, length_vdenominator. lia.
Qed.

Lemma vaux_entry (i j : nat) :
  (i < B)%nat -> (j < K)%nat -> Special.entry vaux i j = vscaled i j.
Proof.
  intros Hi Hj. unfold Special.entry, Special.scaled_entry.
  rewrite vaux_row by exact Hi.
  pose proof (has_shape_nth B K p_sum i p_sum_shape Hi) as Hrow.
  rewrite (nth_zip_with vdiv _ _ j (Fin 0) (Fin 0) (Fin 0))
    by (rewrite ?length_map, ?length_vdenominator; lia).
  rewrite (nth_map_lt Fin _ j 0%R) by lia.
  unfold Special.depict_denominator.
  rewrite (nth_map_lt pow_half _ j 0%R)
    by (rewrite (length_sum0 B K) by exact p_sum_shape; exact Hj).
  rewrite (sum0_nth B K) by assumption. reflexivity.
Qed.

Lemma vaux_row_sum (i : nat) :
  (i < B)%nat ->
  Special.sum_list (nth i vaux []) = Special.index_sum K (vscaled i).
Proof.
  intros Hi. rewrite vsum_list_index.
  rewrite (has_shape_nth B K) by (exact vaux_shape || exact Hi).
  apply vindex_sum_ext. intros j Hj. apply (vaux_entry i j Hi Hj).
Qed.

Lemma vtarget_row (i : nat) :
  (i < B)%nat ->
  nth i (Special.depict_target K p_sum p_sum) []
  = map (fun v => vdiv v (Special.sum_list (nth i vaux []))) (nth i vaux []).
Proof.
  intros Hi. unfold Special.depict_target. destruct vaux_shape as [Hl _].
  rewrite (nth_zip_with (fun row c => map (fun v => vdiv v c) row)
             _ _ i [] (Fin 0) [])
    by (unfold Special.sum1; rewrite ?length_map; lia).
  rewrite vsum1_nth. reflexivity.
Qed.

Lemma vtarget_shape : has_shape B K (Special.depict_target K p_sum p_sum).
Proof.
  destruct vaux_shape as [Hl Hf]. unfold Special.depict_target. split.
  - rewrite length_zip_with. unfold Special.sum1. rewrite length_map. lia.
  - generalize (Special.sum1 vaux). clear Hl.
    induction Hf as [|r a Hr Ha IH]; intros c; [constructor|].
    destruct c as [|x c]; [constructor|]. simpl.
    constructor; [rewrite length_map; exact Hr | apply IH].
Qed.

Lemma vtarget_entry (i j : nat) :
  (i < B)%nat -> (j < K)%nat ->
  Special.entry (Special.depict_target K p_sum p_sum) i j
  = vdiv (vscaled i j) (Special.index_sum K (vscaled i)).
Proof.
  intros Hi Hj. unfold Special.entry at 1.
  rewrite vtarget_row by exact Hi.
  rewrite (nth_map_lt _ _ j (Fin 0))
    by (rewrite (has_shape_nth B K) by (exact vaux_shape || exact Hi);
        exact Hj).
  rewrite vaux_row_sum by exact Hi.
  change (nth j (nth i vaux []) (Fin 0)) with (Special.entry vaux i j).
  rewrite vaux_entry by assumption. reflexivity.
Qed.

Lemma vtarget_row_sum (i : nat) :
  (i < B)%nat ->
  Special.sum_list (nth i (Special.depict_target K p_sum p_sum) [])
  = Special.index_sum K (fun j =>
      vdiv (vscaled i j) (Special.index_sum K (vscaled i))).
Proof.
  intros Hi. rewrite vsum_list_index.
  rewrite (has_shape_nth B K) by (exact vtarget_shape || exact Hi).
  apply vindex_sum_ext. intros j Hj. apply (vtarget_entry i j Hi Hj).
Qed.

Lemma vscaled_regular (i j : nat) :
  (0 < class_sum B p_sum j)%R -> vscaled i j = Fin (scaled_entry B p_sum i j).
Proof. intros Hc. apply vdiv_pow_half, Hc. Qed.

(** A row of the target sums to 1 exactly when no division for the row is
    by zero. *)
Lemma vtarget_row_sum_one (i : nat) :
  (i < B)%nat ->
  Special.sum_list (nth i (Special.depict_target K p_sum p_sum) []) = Fin 1
  <-> regular_row B K p_sum i.
Proof.
  intros Hi. split.
  - intros Hone.
    destruct (vsum_fin_inv _ _ Hone) as (t & Ht & Hsum).
    pose proof (has_shape_nth B K _ i vtarget_shape Hi) as Hlen.
    rewrite Ht, length_map in Hlen.
    assert (Hfin : forall j, (j < K)%nat ->
              vdiv (vscaled i j) (Special.index_sum K (vscaled i))
              = Fin (nth j t 0%R)).
    { intros j Hj. rewrite <- (vtarget_entry i j Hi Hj).
      unfold Special.entry. rewrite Ht.
      apply (nth_map_lt Fin t j 0%R). lia. }
    assert (Hcols : forall j, (j < K)%nat -> (0 < class_sum B p_sum j)%R).
    { intros j Hj. destruct (vdiv_fin_inv _ _ _ (Hfin j Hj)) as [y Hy].
      apply (vdiv_pow_half_inv _ _ _ Hy). }
    split; [exact Hcols|].
    assert (HK : (0 < K)%nat).
    { destruct K as [|K']; [|lia].
      destruct t; [simpl in Hsum; lra | discriminate]. }
    specialize (Hfin 0%nat HK).
    rewrite (vindex_sum_ext K (vscaled i)
               (fun j => Fin (scaled_entry B p_sum i j))) in Hfin
      by (intros j Hj; apply vscaled_regular, Hcols, Hj).
    rewrite vindex_sum_fin, vscaled_regular in Hfin by (apply Hcols, HK).
    apply (vdiv_fin_fin_inv _ _ _ Hfin).
  - intros [Hcols Hrow]. rewrite vtarget_row_sum by exact Hi.
    rewrite (vindex_sum_ext K (vscaled i)
               (fun j => Fin (scaled_entry B p_sum i j)))
      by (intros j Hj; apply vscaled_regular, Hcols, Hj).
    rewrite vindex_sum_fin.
    rewrite (vindex_sum_ext K _
               (fun j => Fin (scaled_entry B p_sum i j
                              / index_sum K (scaled_entry B p_sum i))))
      by (intros j Hj; rewrite vscaled_regular by (apply Hcols, Hj);
          apply vdiv_fin, Hrow).
    rewrite vindex_sum_fin, index_sum_div. f_equal. field. exact Hrow.
Qed.

(** A batch that is not degenerate has only regular rows. *)
Lemma non_degenerate_regular (i : nat) :
  non_degenerate K p_sum -> (i < B)%nat -> regular_row B K p_sum i.
Proof.
  intros Hnd Hi. pose proof Hnd as (_ & Hcols & _). split.
  - intros j Hj. unfold class_sum.
    rewrite <- (sum0_nth B K p_sum j) by assumption.
    rewrite List.Forall_forall in Hcols. apply Hcols, nth_In.
    rewrite (length_sum0 B K) by exact p_sum_shape. exact Hj.
  - rewrite <- (aux_row_sum B K p_sum p_sum_shape i Hi).
    pose proof (aux_row_sum_pos B K p_sum p_sum_shape i Hnd Hi). lra.
Qed.

(** On a batch that is not degenerate no division is by zero. *)
Lemma non_degenerate_fin :
  non_degenerate K p_sum ->
  Special.depict_target K p_sum p_sum
  = Special.of_tensor (depict_target K p_sum p_sum).
Proof.
  intros Hnd. pose proof Hnd as (_ & Hcols & _).
  apply depict_target_fin; [exact Hcols|].
  apply Forall_nth with (d := []). intros i Hi.
  destruct (aux_shape B K p_sum p_sum_shape) as [Hl _].
  pose proof (aux_row_sum_pos B K p_sum p_sum_shape i Hnd ltac:(lia)). lra.
Qed.

(** C3: on a single process the depict target is [p_sum], divided class
    by class by the power 0.5 of the sum of the class over the batch and
    then row by row by the sum of the row, and the loss is minus the mean
    over the batch of the mask times the sum over the classes of
    [target * log_softmax(logits_u)].  A row of the target sums to 1
    exactly when no division for it is by zero: every class has a positive
    sum over the batch and the row of [p_sum / denominator] does not sum to
    zero.  This is so for every row of a batch that is not degenerate (no
    negative entry, every class with a positive sum, every row with a
    positive entry); the target is then that of the real numbers, and the
    loss of a batch that is not empty is finite. *)
Theorem depict_single_process (logits_u : Tensor2) (mask : Tensor1) :
  has_shape B K logits_u -> length mask = B ->
  let target := Special.depict_target K p_sum p_sum in
  has_shape B K target /\
  (forall i j, (i < B)%nat -> (j < K)%nat ->
     Special.entry target i j
     = vdiv (vscaled i j) (Special.index_sum K (vscaled i))) /\
  Special.depict_loss target logits_u mask
  = vneg (vdiv
            (Special.index_sum B (fun i =>
               vmul (Special.index_sum K (fun j =>
                       vmul (Special.entry target i j)
                            (Fin (entry (log_softmax logits_u) i j))))
                    (Fin (nth i mask 0%R))))
            (Fin (INR B))) /\
  (forall i, (i < B)%nat ->
     Special.sum_list (nth i target []) = Fin 1
     <-> regular_row B K p_sum i) /\
  (non_degenerate K p_sum ->
   (forall i, (i < B)%nat -> regular_row B K p_sum i) /\
   target = Special.of_tensor (depict_target K p_sum p_sum) /\
   ((0 < B)%nat ->
    Special.depict_loss target logits_u mask
    = Fin (depict_loss (depict_target K p_sum p_sum) logits_u mask))).
Proof.
  intros Hlog Hmask target.
  split; [exact vtarget_shape|]. split; [exact vtarget_entry|].
  split; [apply (depict_loss_entries B K);
          [exact vtarget_shape | exact Hlog | exact Hmask]|].
  split; [exact vtarget_row_sum_one|].
  intros Hnd. pose proof (non_degenerate_fin Hnd) as Hfin.
  assert (Hreal : has_shape B K (depict_target K p_sum p_sum)).
  { unfold depict_target. pose proof (aux_shape B K p_sum p_sum_shape) as Ha.
    apply div_col_shape; [exact Ha|].
    unfold sum1. rewrite length_map. destruct Ha. assumption. }
  split; [intros i Hi; apply non_degenerate_regular; assumption|].
  split; [exact Hfin|].
  intros HB. unfold target. rewrite Hfin.
  apply (depict_loss_fin B K); assumption.
Qed.
End DepictValues.

(** A batch of two rows over two classes. *)
Lemma depict_single_process_witness :
  has_shape 2 2 [[0.5; 0.5]; [0.25; 0.75]]%R /\
  has_shape 2 2 [[0; 0]; [0; 0]]%R /\
  length [1; 0]%R = 2%nat /\
  non_degenerate 2 [[0.5; 0.5]; [0.25; 0.75]]%R /\
  Special.sum_list
    (nth 1 (Special.depict_target 2 [[0.5; 0.5]; [0.25; 0.75]]%R
                                  [[0.5; 0.5]; [0.25; 0.75]]%R) [])
  = Fin 1.
Proof.
  assert (Hp : has_shape 2 2 [[0.5; 0.5]; [0.25; 0.75]]%R)
    by (split; [reflexivity | repeat constructor]).
  assert (Hl : has_shape 2 2 [[0; 0]; [0; 0]]%R)
    by (split; [reflexivity | repeat constructor]).
  assert (Hnd : non_degenerate 2 [[0.5; 0.5]; [0.25; 0.75]]%R).
  { unfold non_degenerate. simpl. repeat split.
    - repeat constructor; lra.
    - repeat constructor; lra.
    - repeat (constructor; [apply Exists_cons_hd; lra|]). constructor. }
  split; [exact Hp|]. split; [exact Hl|]. split; [reflexivity|].
  split; [exact Hnd|].
  destruct (depict_single_process 2 2 _ Hp _ [1; 0]%R Hl eq_refl)
    as (_ & _ & _ & Hrows & H).
  destruct (H Hnd) as (Hreg & _).
  apply Hrows; [lia | apply Hreg; lia].
Defined.

(** C3 fails for a batch that is only not all zero: the batch of the one
    row [1.0, 0.0].  The second class sums to 0, its entry of
    [p_sum / denominator] is [0 / 0], the sum of the row is [nan], and
    both entries of the row of the target are [nan]: the row does not sum
    to 1. *)
Theorem depict_row_of_nan :
  let p_sum := [[1; 0]]%R in
  has_shape 1 2 p_sum /\
  Exists (Exists (fun v => v <> 0%R)) p_sum /\
  Special.depict_target 2 p_sum p_sum = [[NaN; NaN]] /\
  Special.sum_list (nth 0 (Special.depict_target 2 p_sum p_sum) []) = NaN /\
  Special.sum_list (nth 0 (Special.depict_target 2 p_sum p_sum) [])
  <> Fin 1.
Proof.
  intros p_sum.
  assert (Ht : Special.depict_target 2 p_sum p_sum = [[NaN; NaN]]).
  { unfold Special.depict_target, Special.depict_scaled,
      Special.depict_denominator, Special.sum1, sum0, p_sum.
    cbn [map zip_with fold_right replicate].
    rewrite !Rplus_0_r.
    rewrite (pow_half_nonneg 1), (pow_half_nonneg 0), sqrt_1, sqrt_0 by lra.
    rewrite vdiv_zero_zero, vdiv_fin by lra. reflexivity. }
  split; [split; [reflexivity | repeat constructor]|].
  split; [apply Exists_cons_hd, Exists_cons_hd; lra|].
  split; [exact Ht|]. rewrite Ht. simpl. split; [reflexivity | discriminate].
Qed.

Lemma index_sum_nonneg (n : nat) (f : nat -> R) :
  (forall i, (i < n)%nat -> (0 <= f i)%R) -> (0 <= index_sum n f)%R.
Proof.
  revert f. induction n as [|n IH]; intros f Hf.
  - unfold index_sum. simpl. lra.
  - rewrite index_sum_S.
    specialize (IH (fun i => f (S i)) ltac:(intros i Hi; apply Hf; lia)).
    specialize (Hf 0%nat ltac:(lia)). lra.
Qed.

Lemma index_sum_pos (n : nat) (f : nat -> R) :
  (0 < n)%nat -> (forall i, (i < n)%nat -> (0 < f i)%R) ->
  (0 < index_sum n f)%R.
Proof.
  intros Hn Hf. destruct n as [|n]; [lia|]. rewrite index_sum_S.
  pose proof (index_sum_nonneg n (fun i => f (S i))
                ltac:(intros i Hi; left; apply Hf; lia)).
  specialize (Hf 0%nat ltac:(lia)). lra.
Qed.

(** A batch without a zero entry is not degenerate. *)
Lemma positive_non_degenerate B K (p : Tensor2) :
  has_shape B K p -> (0 < B)%nat -> (0 < K)%nat ->
  (forall i j, (i < B)%nat -> (j < K)%nat -> (0 < entry p i j)%R) ->
  non_degenerate K p.
Proof.
  intros Hp HB HK Hpos. pose proof Hp as [Hl Hf].
  assert (Hrow : forall r, In r p ->
            exists i, (i < B)%nat /\ nth i p [] = r /\ length r = K).
  { intros r Hin. destruct (In_nth _ _ [] Hin) as (i & Hi & Hnth).
    exists i. split; [lia|]. split; [exact Hnth|].
    rewrite <- Hnth. apply (has_shape_nth B K); [exact Hp | lia]. }
  split; [|split].
  - apply List.Forall_forall. intros r Hin.
    destruct (Hrow r Hin) as (i & Hi & Hnth & Hlen).
    apply List.Forall_forall. intros v Hv.
    destruct (In_nth _ _ 0%R Hv) as (j & Hj & Hvj).
    rewrite <- Hvj, <- Hnth. left. apply (Hpos i j); lia.
  - apply List.Forall_forall. intros c Hc.
    destruct (In_nth _ _ 0%R Hc) as (j & Hj & Hcj).
    rewrite (length_sum0 B K) in Hj by exact Hp.
    rewrite <- Hcj, (sum0_nth B K) by assumption.
    apply index_sum_pos; [exact HB|]. intros i Hi. apply Hpos; assumption.
  - apply List.Forall_forall. intros r Hin.
    destruct (Hrow r Hin) as (i & Hi & Hnth & Hlen).
    destruct r as [|x r]; [simpl in Hlen; lia|].
    apply Exists_cons_hd.
    specialize (Hpos i 0%nat Hi HK). unfold entry in Hpos.
    rewrite Hnth in Hpos. exact Hpos.
Qed.

(** The gather of the depict denominator. *)

Lemma cat_replicate (n : nat) (c : ref) (t : Tensor2) (h : heap) :
  h !! c = Some t -> cat (replicate n c) h = Some (concat (replicate n t)).
Proof.
  intros Hc. unfold cat.
  assert (Hm : mapM (fun r => h !! r) (replicate n c) = Some (replicate n t)).
  { apply mapM_Some_2. induction n as [|n IH]; simpl; constructor; assumption. }
  rewrite Hm. reflexivity.
Qed.

(** When every slot of the list refers to the one object [c], the object
    holds, after the gather, the tensor of the rank that was copied
    last. *)
Lemma all_gather_aliased (n : nat) (c : ref) (inputs : list Tensor2)
  (order : list nat) (k : nat) (t : Tensor2) (h : heap) :
  (k < n)%nat -> inputs !! k = Some t ->
  all_gather (replicate n c) inputs (order ++ [k]) h !! c = Some t.
Proof.
  intros Hk Ht. unfold all_gather. rewrite fold_left_app. simpl.
  rewrite lookup_replicate_2 by exact Hk. rewrite Ht.
  apply lookup_insert_eq.
Qed.

(** The tensor that line 482 concatenates is [world_size] copies of the
    batch of a single process, whatever the batches of the others are. *)
Lemma gather_aliased (inputs : list Tensor2) (order : list nat) (k : nat)
  (t own : Tensor2) (p : ref) (h : heap) :
  h !! p = Some own -> inputs !! k = Some t ->
  fst <$> gather_pseudo_label_sum (Z.of_nat (length inputs)) inputs
                                  (order ++ [k]) p h
  = Some (concat (replicate (length inputs) t)).
Proof.
  intros Hp Ht. unfold gather_pseudo_label_sum, clone, alloc, list_times.
  rewrite Hp. simpl. rewrite Nat2Z.id.
  pose proof (lookup_lt_Some _ _ _ Ht) as Hk.
  rewrite (cat_replicate _ _ t); [reflexivity|].
  apply all_gather_aliased; assumption.
Qed.

(** With a list of distinct objects the gather does collect the batches
    of all processes. *)
Example gather_into_distinct_objects :
  let inputs := [[[0.9; 0.1]]; [[0.2; 0.8]]]%R in
  let h := {[ 1%nat := []; 2%nat := [] ]} : heap in
  cat [1; 2]%nat (all_gather [1; 2]%nat inputs [0; 1]%nat h)
  = Some (concat inputs).
Proof. reflexivity. Qed.

(** C8 fails on the code: two processes with the batches [[0.9, 0.1]] and
    [[0.2, 0.8]].  The slots of [tensor_list] are one object, so the tensor
    that is concatenated holds the batch of rank 1 twice, and the sums of
    the classes are 0.4 and 1.6, not the sums 1.1 and 0.9 over the batches
    of both processes. *)
Theorem gather_world_of_two :
  let inputs := [[[0.9; 0.1]]; [[0.2; 0.8]]]%R in
  let h := {[ 0%nat := [[0.9; 0.1]]%R ]} : heap in
  exists gathered,
    fst <$> gather_pseudo_label_sum 2 inputs [0; 1]%nat 0%nat h
    = Some gathered /\
    gathered = [[0.2; 0.8]; [0.2; 0.8]]%R /\
    gathered <> concat inputs /\
    sum0 2 gathered = [0.2 + (0.2 + 0); 0.8 + (0.8 + 0)]%R /\
    sum0 2 (concat inputs) = [0.9 + (0.2 + 0); 0.1 + (0.8 + 0)]%R /\
    sum0 2 gathered <> sum0 2 (concat inputs).
Proof.
  intros inputs h. eexists. split.
  - apply (gather_aliased inputs [0%nat] 1%nat [[0.2; 0.8]]%R
                          [[0.9; 0.1]]%R 0%nat h); reflexivity.
  - simpl. split; [reflexivity|]. split; [|split; [reflexivity|split]].
    + intros [= H _]. lra.
    + reflexivity.
    + intros [= H _]. lra.
Qed.
End LossFacts.

Module FetchFacts.
Import Fetch.

Section Iterator.
Context {Loader Iter Batch : Type}.
Variable iter : Loader -> result Iter.
Variable next : Iter -> result (Batch * Iter).

(** C9: whatever exception the first [next] raises, [StopIteration] or any
    other, the fetch does what the [except] clause does, which does not
    look at the exception: the iterator is made anew from the loader and
    [next] is called on it once; what that call returns or raises is what
    the fetch returns or raises. *)
Theorem fetch_bare_except (it : Iter) (loader : Loader) (e : exn) :
  next it = Raise e ->
  fetch iter next it loader = refetch iter next it loader /\
  (forall it', iter loader = Ok it' ->
     fst (fetch iter next it loader) = next it' /\
     snd (fetch iter next it loader)
     = [CallNext it; CallIter loader; CallNext it'] /\
     next_calls (snd (fetch iter next it loader)) = 2%nat) /\
  (forall it' e', iter loader = Ok it' -> next it' = Raise e' ->
     fst (fetch iter next it loader) = Raise e') /\
  (forall e', iter loader = Raise e' ->
     fetch iter next it loader
     = (Raise e', [CallNext it; CallIter loader])).
Proof.
  intros Hraise.
  assert (Hfetch : fetch iter next it loader = refetch iter next it loader)
    by (unfold fetch; rewrite Hraise; reflexivity).
  rewrite Hfetch. unfold refetch.
  split; [reflexivity|]. split; [|split].
  - intros it' ->. simpl. auto.
  - intros it' e' -> Hnext. simpl. exact Hnext.
  - intros e' ->. reflexivity.
Qed.

(** A fetch whose first [next] returns makes no other call. *)
Lemma fetch_ok (it : Iter) (loader : Loader) (r : Batch * Iter) :
  next it = Ok r -> fetch iter next it loader = (Ok r, [CallNext it]).
Proof. intros H. unfold fetch. rewrite H. reflexivity. Qed.
End Iterator.

(** An exhausted iterator over a loader of two batches. *)
Lemma fetch_bare_except_witness :
  list_next (Batch := nat) [] = Raise StopIteration /\
  fetch list_iter list_next [] [Some 1%nat; Some 2%nat]
  = refetch list_iter list_next [] [Some 1%nat; Some 2%nat].
Proof.
  split; [reflexivity|].
  apply (fetch_bare_except list_iter list_next [] [Some 1%nat; Some 2%nat]
                           StopIteration).
  reflexivity.
Defined.

(** The end of the data wraps around to the first batch. *)
Example fetch_wraps_around :
  fst (fetch list_iter list_next [] [Some 1%nat; Some 2%nat])
  = Ok (1%nat, [Some 2%nat]).
Proof. reflexivity. Qed.

(** A sample that cannot be read does so too: the batches behind it are
    never reached, and no error is reported. *)
Example fetch_hides_read_error :
  fst (fetch list_iter list_next [None; Some 3%nat]
             [Some 1%nat; None; Some 3%nat])
  = Ok (1%nat, [None; Some 3%nat]).
Proof. reflexivity. Qed.

(** The exception of the second [next] is not caught. *)
Example fetch_empty_loader :
  fst (fetch (Batch := nat) list_iter list_next [] []) = Raise StopIteration.
Proof. reflexivity. Qed.

Example fetch_unreadable_first_sample :
  fst (fetch (Batch := nat) list_iter list_next [] [None; Some 1%nat])
  = Raise (OtherError "cannot read the sample").
Proof. reflexivity. Qed.
End FetchFacts.

Module MainFacts.
Import Main.

Section Resume.
Variable load : string -> option checkpoint.
Variable dirname : string -> string.

Lemma resume_training_start_epoch (a : args) (best : R) (v : Z) :
  resume_training load dirname (with_start_epoch v a) best
  = resume_training load dirname a best.
Proof. reflexivity. Qed.

(** C10: the value of [--start-epoch] has no effect on what [main] hands
    to [train], nor on the epochs that are run; without [--resume] the
    first epoch is 0, and with it the first epoch is the [epoch] field of
    the checkpoint, so that a first epoch other than 0 needs
    [--resume]. *)
Theorem start_epoch_has_no_effect (a : args) (best : R) (v : Z) :
  resume_training load dirname (with_start_epoch v a) best
  = resume_training load dirname a best /\
  epochs_run load dirname (with_start_epoch v a) best
  = epochs_run load dirname a best /\
  (resume a = ""%string ->
   exists a', resume_training load dirname a best = Some (a', best) /\
              start_epoch a' = 0%Z /\
              epochs_run load dirname a best = Some (range 0 (epochs a))) /\
  (forall ck, resume a <> ""%string -> load (resume a) = Some ck ->
   exists a', resume_training load dirname a best = Some (a', best_acc ck) /\
              start_epoch a' = epoch ck /\
              epochs_run load dirname a best
              = Some (range (epoch ck) (epochs a))) /\
  (forall a' best', resume_training load dirname a best = Some (a', best') ->
     start_epoch a' <> 0%Z -> resume a <> ""%string).
Proof.
  split; [reflexivity|]. split; [reflexivity|].
  unfold epochs_run, resume_training. simpl.
  split; [|split].
  - intros ->. simpl. eexists. repeat split; reflexivity.
  - intros ck Hne Hload. apply String.eqb_neq in Hne. rewrite Hne, Hload.
    simpl. eexists. repeat split; reflexivity.
  - intros a' best' Hres Hstart Hempty. rewrite Hempty in Hres.
    simpl in Hres. injection Hres as <- _. apply Hstart. reflexivity.
Qed.
End Resume.

(** [--start-epoch 7 --resume ckpt] with a checkpoint of epoch 3, in a run
    of 10 epochs. *)
Lemma start_epoch_has_no_effect_witness :
  let load := fun _ : string => Some {| epoch := 3; best_acc := 0%R |} in
  let a := {| start_epoch := 7; resume := "ckpt"; epochs := 10;
              out := "results" |} in
  resume a <> ""%string /\
  epochs_run load (fun p => p) a 0%R = Some [3; 4; 5; 6; 7; 8; 9]%Z.
Proof.
  intros load a. split; [discriminate|].
  destruct (start_epoch_has_no_effect load (fun p => p) a 0%R 0%Z)
    as (_ & _ & _ & H & _).
  destruct (H {| epoch := 3; best_acc := 0%R |}) as (a' & _ & _ & Hrun);
    [discriminate | reflexivity|].
  exact Hrun.
Defined.

Example start_epoch_without_resume :
  epochs_run (fun _ => None) (fun p => p)
    {| start_epoch := 7; resume := ""; epochs := 4; out := "results" |} 0%R
  = Some [0; 1; 2; 3]%Z.
Proof. reflexivity. Qed.

Example resume_missing_file :
  epochs_run (fun _ => None) (fun p => p)
    {| start_epoch := 7; resume := "ckpt"; epochs := 4; out := "results" |}
    0%R
  = None.
Proof. reflexivity. Qed.
End MainFacts.

Module MetricsFacts.
Import Interleave Tensor Metrics TensorFacts PseudoLabelFacts.

Section Meters.
Context {Meter : Type}.
Variable update : Meter -> R -> R -> Meter.

(** C7: when the mask sums to zero the step leaves the four diagnostic
    meters as they are and updates the meters of the losses and of the
    mask rate; when the sum is not zero it updates the four diagnostic
    meters too. *)
Theorem zero_mask_skips_diagnostics (m : meters Meter) (loss Lx Lu : R)
  (mask : Tensor1) (targets_u targets_u_gt : list nat) (B K : nat)
  (logits_x : Tensor2) (targets_x : list nat) :
  has_shape B K logits_x -> (0 < K)%nat ->
  exists m',
    update_metrics update m loss Lx Lu mask targets_u targets_u_gt
                   logits_x targets_x = Some m' /\
    losses m' = update (losses m) loss 1 /\
    losses_x m' = update (losses_x m) Lx 1 /\
    losses_u m' = update (losses_u m) Lu 1 /\
    mask_probs m' = update (mask_probs m) (mean mask) 1 /\
    (sum_list mask = 0%R ->
     noise_rates m' = noise_rates m /\
     mislabeled_nums m' = mislabeled_nums m /\
     noise_rate_estms m' = noise_rate_estms m /\
     mislabeled_num_estms m' = mislabeled_num_estms m) /\
    (sum_list mask <> 0%R ->
     exists pred_x,
       fmap snd (max_last_dim logits_x) = Some pred_x /\
       let wrong_u := masked_select (ne_float targets_u targets_u_gt) mask in
       let wrong_x := ne_float pred_x targets_x in
       noise_rates m'
       = update (noise_rates m) (mean wrong_u) (sum_list mask) /\
       mislabeled_nums m' = update (mislabeled_nums m) (sum_list wrong_u) 1 /\
       noise_rate_estms m' = update (noise_rate_estms m) (mean wrong_x) 1 /\
       mislabeled_num_estms m'
       = update (mislabeled_num_estms m) (mean wrong_x * sum_list mask) 1).
Proof.
  intros Hshape HK. unfold update_metrics.
  destruct (Req_dec_T (sum_list mask) 0) as [Hz | Hnz].
  - eexists. split; [reflexivity|]. simpl.
    repeat (split; [reflexivity|]).
    split; [intros _; repeat split | intros Hne; contradiction].
  - destruct (max_last_dim_spec B K logits_x Hshape HK)
      as (vals & idxs & Hmax & _).
    rewrite Hmax. simpl.
    eexists. split; [reflexivity|]. simpl.
    repeat (split; [reflexivity|]).
    split; [intros Hz; contradiction|].
    intros _. exists idxs. repeat split.
Qed.
End Meters.

(** One labeled row over two classes and a mask of two zeros, with the
    meters of [utils]. *)
Lemma zero_mask_skips_diagnostics_witness :
  has_shape 1 2 [[1; 0]]%R /\ (0 < 2)%nat /\ sum_list [0; 0]%R = 0%R /\
  exists m',
    update_metrics AverageMeter_update meters_new 3 2 1 [0; 0]%R [0; 1]%nat
                   [1; 1]%nat [[1; 0]]%R [0]%nat = Some m' /\
    noise_rates m' = AverageMeter_new /\
    meter_count (losses m') = (0 + 1)%R.
Proof.
  assert (Hs : has_shape 1 2 [[1; 0]]%R)
    by (split; [reflexivity | repeat constructor]).
  assert (Hz : sum_list [0; 0]%R = 0%R) by (simpl; lra).
  split; [exact Hs|]. split; [lia|]. split; [exact Hz|].
  destruct (zero_mask_skips_diagnostics AverageMeter_update meters_new 3 2 1
              [0; 0]%R [0; 1]%nat [1; 1]%nat 1 2 [[1; 0]]%R [0]%nat Hs
              ltac:(lia))
    as (m' & Hm' & Hl & _ & _ & _ & Hzero & _).
  exists m'. split; [exact Hm'|].
  destruct (Hzero Hz) as (Hn & _). split; [exact Hn|].
  rewrite Hl. reflexivity.
Defined.

(** With a confident sample the count of [noise_rates] grows by the sum
    of the mask, and the sum of [mislabeled_nums] by the number of masked
    samples whose pseudo-label is not the ground truth. *)
Example diagnostics_with_confident_sample :
  exists m',
    update_metrics AverageMeter_update meters_new 3 2 1 [1; 0]%R [0; 1]%nat
                   [1; 1]%nat [[1; 0]]%R [0]%nat = Some m' /\
    meter_count (noise_rates m') = 1%R /\
    meter_sum (mislabeled_nums m') = 1%R.
Proof.
  unfold update_metrics.
  destruct (Req_dec_T (sum_list [1; 0]%R) 0) as [Hz | Hnz];
    [simpl in Hz; lra|].
  simpl. eexists. split; [reflexivity|].
  unfold masked_select. simpl.
  destruct (Req_dec_T 1 1); [|lra].
  destruct (Req_dec_T 0 1); [lra|]. simpl.
  split; lra.
Qed.

(** The ground truth does reach the two meters set apart in C4. *)
Example ground_truth_reaches_noise_meters :
  exists m1 m2,
    update_metrics AverageMeter_update meters_new 3 2 1 [1; 0]%R [0; 1]%nat
                   [1; 1]%nat [[1; 0]]%R [0]%nat = Some m1 /\
    update_metrics AverageMeter_update meters_new 3 2 1 [1; 0]%R [0; 1]%nat
                   [0; 1]%nat [[1; 0]]%R [0]%nat = Some m2 /\
    mislabeled_nums m1 <> mislabeled_nums m2.
Proof.
  unfold update_metrics.
  destruct (Req_dec_T (sum_list [1; 0]%R) 0) as [Hz | Hnz];
    [simpl in Hz; lra|].
  simpl. eexists _, _. split; [reflexivity|]. split; [reflexivity|].
  unfold masked_select. simpl.
  destruct (Req_dec_T 1 1); [|lra].
  destruct (Req_dec_T 0 1); [lra|]. simpl.
  unfold AverageMeter_update. simpl. intros [= H]. lra.
Qed.
End MetricsFacts.

Module TrainStepFacts.
Import Interleave Tensor PseudoLabel Loss Metrics TrainStep.

Section Step.
Context {Params Input Feature St Meter : Type}.
Variable G : Params -> list Input -> list Feature.
Variable F : Params -> St -> list Feature -> Tensor2 * St.
Variable optimize : (Params -> option R) -> Params -> Params.
Variable update : Meter -> R -> R -> Meter.
Variable world_inputs : Tensor2 -> list Tensor2.
Variable copy_order : list nat.

(** C4: two steps that differ in [targets_u_gt] only both raise or both
    return, with the same loss, the same parameters and the same meters,
    the two meters that compare the pseudo-labels with the ground truth,
    [noise_rates] and [mislabeled_nums], apart. *)
Theorem targets_u_gt_only_diagnostic (cfg : config) (theta : Params)
  (st : St) (m : meters Meter) (b : batch Input) (gt1 gt2 : list nat) :
  without_noise_meters
    <$> train_step G F optimize update world_inputs copy_order
                   cfg theta st m b gt1
  = without_noise_meters
    <$> train_step G F optimize update world_inputs copy_order
                   cfg theta st m b gt2.
Proof.
  unfold train_step.
  destruct (forward G F cfg theta st b) as [[fw st1]|]; [|reflexivity].
  simpl.
  destruct (generate (F theta) (logits_u_w fw) (features_u_w fw) (T cfg)
                     (num_classifiers cfg) (confidence_threshold cfg) st1)
    as [[pl st2]|]; [|reflexivity].
  simpl.
  destruct (make_target world_inputs copy_order cfg pl) as [tg|];
    [|reflexivity].
  simpl. unfold update_metrics.
  destruct (Req_dec_T (sum_list (mask pl)) 0); [reflexivity|].
  destruct (max_last_dim (logits_x fw)) as [[vals idxs]|]; reflexivity.
Qed.
End Step.

(** A step of the small configuration returns, whatever the ground truth
    of the unlabeled batch is. *)
Example small_step_returns (targets_u_gt : list nat) :
  is_Some (train_step (Params := unit) (St := unit)
             (fun _ inputs => inputs)
             (fun _ st features => (map (fun _ => [0; 0]%R) features, st))
             (fun _ theta => theta) AverageMeter_update
             (fun p_sum => [p_sum]) [0%nat]
             small_config tt tt meters_new small_batch targets_u_gt).
Proof.
  unfold train_step. simpl. unfold update_metrics.
  match goal with
  | |- context [Req_dec_T ?a ?b] => destruct (Req_dec_T a b)
  end.
  - eexists. reflexivity.
  - simpl. eexists. reflexivity.
Qed.
End TrainStepFacts.

(** *** More on the batch interleaving *)
Module InterleaveMore.
Import Interleave InterleaveFacts.

Section Facts.
Context {A : Type}.
Implicit Types (x y : list A) (m : list (list A)).

Lemma de_interleave_some x k :
  k <> 0%nat -> (length x mod k = 0)%nat ->
  de_interleave x k
  = Some (flatten (transpose (length x / k) (chunks k (length x / k) x))).
Proof.
  intros Hk Hmod. unfold de_interleave, reshape_cols_inferred.
  destruct (Nat.eqb_spec k 0); [contradiction|].
  rewrite Hmod. reflexivity.
Qed.

Lemma divides_length x k :
  k <> 0%nat -> (length x mod k = 0)%nat ->
  length x = (length x / k * k)%nat /\ length x = (k * (length x / k))%nat.
Proof.
  intros Hk Hmod. pose proof (Nat.div_mod_eq (length x) k). lia.
Qed.

(** X1: the round trip in the other order. *)
Theorem interleave_de_interleave x k :
  k <> 0%nat -> (length x mod k = 0)%nat ->
  de_interleave x k ≫= (fun y => interleave y k) = Some x.
Proof.
  intros Hk Hmod. rewrite de_interleave_some by assumption. simpl.
  set (c := (length x / k)%nat).
  destruct (divides_length x k Hk Hmod) as [_ Hlen]. fold c in Hlen.
  pose proof (transpose_shape _ _ _ (chunks_shape k c x Hlen)) as Hsh.
  pose proof (length_flatten _ _ _ Hsh) as Hly.
  rewrite interleave_some; [|exact Hk|rewrite Hly; apply Nat.Div0.mod_mul].
  rewrite Hly, Nat.div_mul by exact Hk.
  rewrite chunks_flatten by exact Hsh.
  rewrite transpose_involutive by (apply chunks_shape; exact Hlen).
  rewrite flatten_chunks by exact Hlen. reflexivity.
Qed.

Lemma flatten_zip_cons (r : list A) (T : list (list A)) :
  length r = length T -> flatten (zip_with cons r T) ≡ₚ r ++ flatten T.
Proof.
  unfold flatten. revert T. induction r as [|a r IH]; intros [|t T] Hl;
    simpl in *; try discriminate; [reflexivity|].
  rewrite IH by lia. constructor.
  rewrite !app_assoc. apply Permutation_app_tail, Permutation_app_comm.
Qed.

(** Transposing moves the slices and neither drops nor repeats one. *)
Lemma flatten_transpose rows cols m :
  has_shape rows cols m -> flatten (transpose cols m) ≡ₚ flatten m.
Proof.
  revert rows. induction m as [|r m IH]; intros rows [Hl Hf].
  - simpl. unfold flatten. induction cols as [|c IHc]; simpl; auto.
  - inversion Hf as [|? ? Hr Hm]; subst. simpl.
    assert (Hs : has_shape (length m) (length r) m)
      by (split; [reflexivity | assumption]).
    destruct (transpose_shape _ _ _ Hs) as [Hl' _].
    rewrite flatten_zip_cons by congruence.
    unfold flatten at 2. simpl. apply Permutation_app_head.
    apply (IH (length m)), Hs.
Qed.

(** X2: [interleave] raises exactly when [size] is 0 or does not divide the
    leading dimension; otherwise its result holds the slices of its
    argument, each as often as the argument does.  The same for
    [de_interleave]. *)
Theorem interleave_error_or_permutation x k :
  (interleave x k = None <-> k = 0%nat \/ (length x mod k <> 0)%nat) /\
  (de_interleave x k = None <-> k = 0%nat \/ (length x mod k <> 0)%nat) /\
  (forall y, interleave x k = Some y -> y ≡ₚ x) /\
  (forall y, de_interleave x k = Some y -> y ≡ₚ x).
Proof.
  unfold interleave, de_interleave, reshape_rows_inferred,
    reshape_cols_inferred.
  destruct (Nat.eqb_spec k 0) as [-> | Hk].
  { repeat split; auto; discriminate. }
  destruct (Nat.eqb_spec (length x mod k) 0) as [Hmod | Hmod].
  - destruct (divides_length x k Hk Hmod) as [Hr Hc].
    split; [split; [discriminate | intros [? | ?]; contradiction]|].
    split; [split; [discriminate | intros [? | ?]; contradiction]|].
    split; intros y [= <-].
    + rewrite (flatten_transpose (length x / k) k)
        by (apply chunks_shape; exact Hr).
      rewrite flatten_chunks by exact Hr. reflexivity.
    + rewrite (flatten_transpose k (length x / k))
        by (apply chunks_shape; exact Hc).
      rewrite flatten_chunks by exact Hc. reflexivity.
  - repeat split; auto; discriminate.
Qed.
End Facts.

Lemma interleave_inv {A : Type} (x y : list A) (k : nat) :
  interleave x k = Some y ->
  k <> 0%nat /\ (length x mod k = 0)%nat /\
  y = flatten (transpose k (chunks (length x / k) k x)).
Proof.
  unfold interleave, reshape_rows_inferred.
  destruct (Nat.eqb_spec k 0) as [-> | Hk]; [discriminate|].
  destruct (Nat.eqb_spec (length x mod k) 0) as [Hmod | Hmod];
    [|discriminate].
  intros [= <-]. auto.
Qed.

Section Index.
Context {A : Type}.
Implicit Types (x y : list A) (m : list (list A)).

Lemma nth_flatten rows cols m (i j : nat) (d : A) :
  has_shape rows cols m -> (i < rows)%nat -> (j < cols)%nat ->
  nth (i * cols + j) (flatten m) d = nth j (nth i m []) d.
Proof.
  unfold flatten. revert rows i.
  induction m as [|r m IH]; intros rows i [Hl Hf] Hi Hj.
  - simpl in Hl. lia.
  - inversion Hf as [|? ? Hr Hm]; subst. simpl in Hi. destruct i as [|i].
    + simpl. apply app_nth1. exact Hj.
    + simpl. rewrite <- Nat.add_assoc, app_nth2_plus.
      apply (IH (length m));
        [split; [reflexivity | assumption] | lia | exact Hj].
Qed.

Lemma nth_transpose rows cols m (i j : nat) (d : A) :
  has_shape rows cols m -> (i < rows)%nat -> (j < cols)%nat ->
  nth i (nth j (transpose cols m) []) d = nth j (nth i m []) d.
Proof.
  revert rows i. induction m as [|r m IH]; intros rows i [Hl Hf] Hi Hj.
  - simpl in Hl. lia.
  - inversion Hf as [|? ? Hr Hm]; subst. simpl in Hi.
    assert (Hs : has_shape (length m) (length r) m)
      by (split; [reflexivity | assumption]).
    destruct (transpose_shape _ _ _ Hs) as [Hl' _]. simpl.
    rewrite (TensorFacts.nth_zip_with cons r _ j d [] [])
      by (assumption || lia).
    destruct i as [|i]; [reflexivity|]. simpl.
    apply (IH (length m)); [exact Hs | lia | exact Hj].
Qed.

(** X3: where the slices go: with [N / size] groups of [size] slices, slice
    [j] of group [i] becomes slice [i] of block [j]. *)
Theorem interleave_index x y (k i j : nat) (d : A) :
  interleave x k = Some y ->
  (i < length x / k)%nat -> (j < k)%nat ->
  nth (j * (length x / k) + i) y d = nth (i * k + j) x d.
Proof.
  intros Hint Hi Hj.
  destruct (interleave_inv x y k Hint) as (Hk & Hmod & ->).
  destruct (divides_length x k Hk Hmod) as [Hlen _].
  pose proof (chunks_shape (length x / k) k x Hlen) as Hch.
  rewrite (nth_flatten k (length x / k))
    by (try apply transpose_shape; assumption).
  rewrite (nth_transpose (length x / k) k) by assumption.
  rewrite <- (nth_flatten (length x / k) k) by assumption.
  rewrite flatten_chunks by exact Hlen. reflexivity.
Qed.
End Index.

Lemma interleave_index_witness :
  interleave [10; 11; 12; 13; 14; 15] 3 = Some [10; 13; 11; 14; 12; 15] /\
  nth (2 * (6 / 3) + 1) [10; 13; 11; 14; 12; 15] 0 = 15.
Proof.
  split; [reflexivity|].
  apply (interleave_index [10; 11; 12; 13; 14; 15] [10; 13; 11; 14; 12; 15]
                          3 1 2 0); [reflexivity | simpl; lia | lia].
Defined.

Lemma interleave_de_interleave_witness :
  3 <> 0 /\ length [10; 13; 11; 14; 12; 15] mod 3 = 0 /\
  de_interleave [10; 13; 11; 14; 12; 15] 3 ≫= (fun y => interleave y 3)
  = Some [10; 13; 11; 14; 12; 15].
Proof.
  split; [lia|]. split; [reflexivity|].
  apply (@interleave_de_interleave nat [10; 13; 11; 14; 12; 15] 3);
    [lia | reflexivity].
Defined.

Lemma interleave_error_or_permutation_witness :
  interleave [10; 11; 12; 13; 14; 15] 3 = Some [10; 13; 11; 14; 12; 15] /\
  [10; 13; 11; 14; 12; 15] ≡ₚ [10; 11; 12; 13; 14; 15].
Proof.
  split; [reflexivity|].
  destruct (interleave_error_or_permutation [10; 11; 12; 13; 14; 15] 3)
    as (_ & _ & H & _).
  apply H. reflexivity.
Defined.

Section PerSample.
Context {A B : Type}.
Variable f : A -> B.

Lemma chunks_map rows cols (x : list A) :
  chunks rows cols (map f x) = map (map f) (chunks rows cols x).
Proof.
  revert x. induction rows as [|r IH]; intros x; [reflexivity|]. simpl.
  rewrite firstn_map, skipn_map, IH. reflexivity.
Qed.

Lemma zip_cons_map (r : list A) (T : list (list A)) :
  zip_with cons (map f r) (map (map f) T) = map (map f) (zip_with cons r T).
Proof.
  revert T. induction r as [|a r IH]; intros [|t T]; simpl; try reflexivity.
  rewrite IH. reflexivity.
Qed.

Lemma transpose_map cols (m : list (list A)) :
  transpose cols (map (map f) m) = map (map f) (transpose cols m).
Proof.
  induction m as [|r m IH]; simpl.
  - induction cols as [|c IHc]; simpl; [reflexivity|]. rewrite IHc.
    reflexivity.
  - rewrite IH. apply zip_cons_map.
Qed.

Lemma interleave_map (x : list A) (k : nat) :
  interleave (map f x) k = map f <$> interleave x k.
Proof.
  unfold interleave, reshape_rows_inferred. rewrite length_map.
  destruct (k =? 0)%nat; [reflexivity|].
  destruct (length x mod k =? 0)%nat; [|reflexivity]. simpl.
  rewrite chunks_map, transpose_map. unfold flatten.
  rewrite <- concat_map. reflexivity.
Qed.

Lemma de_interleave_map (x : list A) (k : nat) :
  de_interleave (map f x) k = map f <$> de_interleave x k.
Proof.
  unfold de_interleave, reshape_cols_inferred. rewrite length_map.
  destruct (k =? 0)%nat; [reflexivity|].
  destruct (length x mod k =? 0)%nat; [|reflexivity]. simpl.
  rewrite chunks_map, transpose_map. unfold flatten.
  rewrite <- concat_map. reflexivity.
Qed.
End PerSample.

Lemma de_interleave_of_interleave {A : Type} (x y : list A) (k : nat) :
  interleave x k = Some y -> de_interleave y k = Some x.
Proof.
  intros Hint.
  destruct (interleave_inv x y k Hint) as (Hk & Hmod & ->).
  destruct (divides_length x k Hk Hmod) as [Hlen Hlen'].
  pose proof (chunks_shape (length x / k) k x Hlen) as Hch.
  pose proof (length_flatten _ _ _ (transpose_shape _ _ _ Hch)) as Hly.
  rewrite <- Hlen' in Hly.
  rewrite de_interleave_some by (rewrite ?Hly; assumption).
  rewrite Hly, chunks_flatten by (apply transpose_shape; exact Hch).
  rewrite transpose_involutive by exact Hch.
  rewrite flatten_chunks by exact Hlen. reflexivity.
Qed.

(** X4: a network that maps every sample by itself does not see the
    interleaving: de-interleaving its outputs on the interleaved batch
    gives its outputs on the batch. *)
Theorem de_interleave_per_sample {A B : Type} (f : A -> B) (x y : list A)
  (k : nat) :
  interleave x k = Some y -> de_interleave (map f y) k = Some (map f x).
Proof.
  intros Hint. rewrite de_interleave_map.
  rewrite (de_interleave_of_interleave x y k Hint). reflexivity.
Qed.

Lemma de_interleave_per_sample_witness :
  interleave [10; 11; 12; 13; 14; 15] 3 = Some [10; 13; 11; 14; 12; 15] /\
  de_interleave (map S [10; 13; 11; 14; 12; 15]) 3
  = Some (map S [10; 11; 12; 13; 14; 15]).
Proof.
  split; [reflexivity|].
  apply (de_interleave_per_sample S [10; 11; 12; 13; 14; 15]
                                  [10; 13; 11; 14; 12; 15] 3).
  reflexivity.
Defined.

Example interleave_of_size_zero : interleave [1; 2; 3] 0 = None.
Proof. reflexivity. Qed.
End InterleaveMore.

(** *** The forward pass of a training step *)
Module ForwardFacts.
Import Interleave InterleaveFacts InterleaveMore Tensor TrainStep.

Lemma chunk2_halves {A : Type} (u v : list A) :
  length u = length v -> chunk2 (u ++ v) = Some (u, v).
Proof.
  intros Hl. unfold chunk2. rewrite length_app.
  destruct (Nat.eqb_spec (length u + length v) 1) as [H | _]; [lia|].
  assert (Hc : ((length u + length v + 1) / 2 = length u)%nat)
    by (symmetry; apply (Nat.div_unique _ 2 (length u) 1); lia).
  rewrite Hc, take_app_length, drop_app_length. reflexivity.
Qed.

Section PerSample.
Context {Params Input Feature St : Type}.
Variable G : Params -> list Input -> list Feature.
Variable F : Params -> St -> list Feature -> Tensor2 * St.

(** X5: with [mu] unlabeled samples for each labeled one and networks that map
    every sample by itself, the forward pass on the interleaved batch
    gives back, group by group, the logits of the labeled, of the weakly
    and of the strongly augmented samples, and the features kept for the
    other classifiers are those of the weakly augmented samples. *)
Theorem forward_per_sample (cfg : config) (theta : Params) (st st1 : St)
  (b : batch Input) (g : Input -> Feature) (f : Feature -> list R) :
  (forall xs, G theta xs = map g xs) ->
  (forall fs, F theta st fs = (map f fs, st1)) ->
  (0 <= mu cfg)%Z ->
  length (inputs_u_w b) = (Z.to_nat (mu cfg) * length (inputs_x b))%nat ->
  length (inputs_u_s b) = (Z.to_nat (mu cfg) * length (inputs_x b))%nat ->
  forward G F cfg theta st b
  = Some ({| logits_x := map f (map g (inputs_x b));
             logits_u_w := map f (map g (inputs_u_w b));
             logits_u_s := map f (map g (inputs_u_s b));
             features_u_w := map g (inputs_u_w b) |}, st1).
Proof.
  intros HG HF Hmu Hw Hs. unfold forward.
  set (all := inputs_x b ++ inputs_u_w b ++ inputs_u_s b).
  set (k := Z.to_nat (2 * mu cfg + 1)).
  assert (Hk : k = (2 * Z.to_nat (mu cfg) + 1)%nat) by (unfold k; lia).
  assert (Hk0 : k <> 0%nat) by lia.
  assert (Hlen : length all = (length (inputs_x b) * k)%nat).
  { unfold all. rewrite !length_app, Hw, Hs, Hk. lia. }
  assert (Hmod : (length all mod k = 0)%nat)
    by (rewrite Hlen; apply Nat.Div0.mod_mul).
  pose proof (interleave_some all k Hk0 Hmod) as Hint.
  rewrite Hint. simpl. rewrite HG, HF.
  rewrite de_interleave_map, de_interleave_map.
  rewrite (de_interleave_of_interleave all _ k Hint). simpl.
  rewrite de_interleave_map.
  rewrite (de_interleave_of_interleave all _ k Hint). simpl.
  unfold all. rewrite !map_app.
  rewrite !drop_app_length' by (rewrite !length_map; reflexivity).
  rewrite chunk2_halves by (rewrite !length_map; lia). simpl.
  rewrite !take_app_length' by (rewrite !length_map; reflexivity).
  reflexivity.
Qed.
End PerSample.

(** Two labeled samples, [mu = 2]: a batch of ten inputs. *)
Lemma forward_per_sample_witness :
  let cfg := {| mu := 2; T := 1; num_classifiers := 1;
                confidence_threshold := 0.95; lambda_u := 1;
                rm_aug_s := false; method := Loss.fixmatch;
                local_rank := -1; world_size := 1; num_classes := 2 |} in
  let b := {| inputs_x := [1; 2]%nat; targets_x := [0; 1]%nat;
              inputs_u_w := [3; 4; 5; 6]%nat;
              inputs_u_s := [7; 8; 9; 10]%nat |} in
  let f := fun n : nat => [INR n; 0%R] in
  (0 <= mu cfg)%Z /\
  length (inputs_u_w b) = (Z.to_nat (mu cfg) * length (inputs_x b))%nat /\
  fst <$> forward (Params := unit) (fun _ xs => map S xs)
                  (fun _ (st : unit) fs => (map f fs, st)) cfg tt tt b
  = Some {| logits_x := map f [2; 3]%nat;
            logits_u_w := map f [4; 5; 6; 7]%nat;
            logits_u_s := map f [8; 9; 10; 11]%nat;
            features_u_w := [4; 5; 6; 7]%nat |}.
Proof.
  intros cfg b f. split; [simpl; lia|]. split; [reflexivity|].
  rewrite (forward_per_sample (fun _ xs => map S xs)
             (fun _ (st : unit) fs => (map f fs, st)) cfg tt tt tt b S f);
    [reflexivity | reflexivity | reflexivity | simpl; lia | reflexivity
     | reflexivity].
Defined.
End ForwardFacts.

(** *** More on the learning-rate schedules *)
Module ScheduleMore.
Import Schedule ScheduleFacts.

(** X6: the cosine multiplier lies between 0 and 1, and it is 1 at the first
    step after warmup. *)
Theorem cosine_bounds (we te spe : Z) (cycles : R) (s : Z) :
  (0 <= s)%Z ->
  (0 <= cosine_lr_lambda we te spe cycles s <= 1)%R /\
  (s = (we * spe)%Z -> cosine_lr_lambda we te spe cycles s = 1%R).
Proof.
  intros Hs. split; [split; [apply cosine_nonneg, Hs|]|].
  - destruct (Z.lt_ge_cases s (we * spe)) as [Hlt | Hge].
    + rewrite cosine_in_warmup by assumption. unfold float.
      assert (H0 : (0 < IZR (we * spe))%R) by (apply IZR_lt; lia).
      apply (Rmult_le_reg_r (IZR (we * spe))); [exact H0|].
      unfold Rdiv. rewrite Rmult_assoc, Rinv_l, Rmult_1_r, Rmult_1_l by lra.
      apply IZR_le. lia.
    + rewrite cosine_after_warmup by assumption.
      pose proof (COS_bound (cosine_angle we te spe cycles s)) as [_ Hc].
      unfold Rmax. destruct (Rle_dec 0 _); lra.
  - intros ->. rewrite cosine_after_warmup by lia.
    unfold cosine_angle, float. rewrite Z.sub_diag.
    unfold Rdiv. rewrite Rmult_0_l, Rmult_0_r, cos_0.
    unfold Rmax. destruct (Rle_dec 0 1); lra.
Qed.

Lemma cosine_bounds_witness :
  (0 <= 1024)%Z /\ (0 <= cosine_lr_lambda 1 1024 1024 (7 / 16) 1024 <= 1)%R /\
  cosine_lr_lambda 1 1024 1024 (7 / 16) 1024 = 1%R.
Proof.
  destruct (cosine_bounds 1 1024 1024 (7 / 16) 1024) as [Hb H1]; [lia|].
  split; [lia|]. split; [exact Hb | apply H1; reflexivity].
Defined.

(** X7: during warmup the multiplier starts at 0, grows with every step and
    stays below 1. *)
Theorem cosine_warmup_increasing (we te spe : Z) (cycles : R) (s s' : Z) :
  (0 <= s)%Z -> (s < s')%Z -> (s' < we * spe)%Z ->
  cosine_lr_lambda we te spe cycles 0 = 0%R /\
  (cosine_lr_lambda we te spe cycles s
   < cosine_lr_lambda we te spe cycles s')%R /\
  (cosine_lr_lambda we te spe cycles s' < 1)%R.
Proof.
  intros Hs Hss Hws.
  rewrite !cosine_in_warmup by lia. unfold float.
  assert (H0 : (0 < IZR (we * spe))%R) by (apply IZR_lt; lia).
  assert (Hi : (0 < / IZR (we * spe))%R) by (apply Rinv_0_lt_compat, H0).
  split; [unfold Rdiv; apply Rmult_0_l|]. split.
  - unfold Rdiv. apply Rmult_lt_compat_r; [exact Hi|]. apply IZR_lt, Hss.
  - apply (Rmult_lt_reg_r (IZR (we * spe))); [exact H0|].
    unfold Rdiv. rewrite Rmult_assoc, Rinv_l, Rmult_1_r, Rmult_1_l by lra.
    apply IZR_lt, Hws.
Qed.

Lemma cosine_warmup_increasing_witness :
  (0 <= 3)%Z /\ (3 < 4)%Z /\ (4 < 1 * 1024)%Z /\
  (cosine_lr_lambda 1 1024 1024 (7 / 16) 3
   < cosine_lr_lambda 1 1024 1024 (7 / 16) 4)%R.
Proof.
  repeat (split; [lia|]).
  destruct (cosine_warmup_increasing 1 1024 1024 (7 / 16) 3 4)
    as (_ & H & _); [lia | lia | lia | exact H].
Defined.

(** X8: with the default [num_cycles] the multiplier does not reach 0 in a
    run: from the end of warmup to the last training step it is at least
    [cos (7π/16)], which is positive. *)
Theorem cosine_positive_in_horizon (we te spe s : Z) :
  (we * spe <= s)%Z -> (s <= te * spe)%Z ->
  (0 < cos (7 * PI / 16) <= cosine_lr_lambda we te spe default_num_cycles s)%R.
Proof.
  intros Hge Hle. pose proof PI_RGT_0 as Hpi.
  assert (Hpos : (0 < cos (7 * PI / 16))%R) by (apply cos_gt_0; lra).
  split; [exact Hpos|].
  rewrite cosine_after_warmup by assumption.
  assert (H0 : (0 <= cosine_angle we te spe default_num_cycles s)%R)
    by (apply cosine_angle_nonneg;
        [unfold default_num_cycles; lra | exact Hge]).
  assert (H1 : (cosine_angle we te spe default_num_cycles s <= 7 * PI / 16)%R).
  { unfold cosine_angle, default_num_cycles.
    pose proof (progress_divisor_pos we te spe) as HD.
    assert (Hp : (float (s - we * spe)
                  / float (Z.max 1 (te * spe - we * spe)) <= 1)%R).
    { apply (Rmult_le_reg_r (float (Z.max 1 (te * spe - we * spe))));
        [exact HD|].
      unfold Rdiv. rewrite Rmult_assoc, Rinv_l, Rmult_1_r, Rmult_1_l by lra.
      unfold float. apply IZR_le. lia. }
    nra. }
  assert (Hc : (cos (7 * PI / 16)
                <= cos (cosine_angle we te spe default_num_cycles s))%R)
    by (apply cos_decr_1; lra).
  unfold Rmax. destruct (Rle_dec 0 _); lra.
Qed.

Lemma cosine_positive_in_horizon_witness :
  (0 * 1024 <= 1048576)%Z /\ (1048576 <= 1024 * 1024)%Z /\
  (0 < cosine_lr_lambda 0 1024 1024 default_num_cycles 1048576)%R.
Proof.
  split; [lia|]. split; [lia|].
  destruct (cosine_positive_in_horizon 0 1024 1024 1048576) as [H1 H2];
    [lia | lia | lra].
Defined.

(** The step schedule. *)

Lemma step_exponent_four (d0 d1 d2 d3 : Z) (rest : list Z) (s : Z) :
  step_exponent (d0 :: d1 :: d2 :: d3 :: rest) s
  = Some (if (d3 <? s)%Z then 4%Z else if (d2 <? s)%Z then 3%Z
          else if (d1 <? s)%Z then 2%Z else if (d0 <? s)%Z then 1%Z
          else 0%Z).
Proof.
  unfold step_exponent. simpl.
  destruct (d3 <? s)%Z, (d2 <? s)%Z, (d1 <? s)%Z, (d0 <? s)%Z; reflexivity.
Qed.

(** X9: from the end of warmup on the step schedule raises an IndexError
    exactly when fewer than four decay epochs are configured; during
    warmup it never does; and decay epochs after the fourth are never
    read. *)
Theorem step_schedule_index_error (we te spe : Z) (decay_epochs : list Z)
  (decay_factor : Q) (s : Z) :
  ((s < we * spe)%Z ->
   step_lr_lambda we te spe decay_epochs decay_factor s <> None) /\
  ((we * spe <= s)%Z ->
   (step_lr_lambda we te spe decay_epochs decay_factor s = None
    <-> (length decay_epochs < 4)%nat)) /\
  step_lr_lambda we te spe (take 4 decay_epochs) decay_factor s
  = step_lr_lambda we te spe decay_epochs decay_factor s.
Proof.
  unfold step_lr_lambda.
  destruct (Z.ltb_spec s (we * spe)) as [Hlt | Hge].
  - split; [discriminate|]. split; [lia | reflexivity].
  - split; [lia|]. split.
    + intros _.
      destruct decay_epochs as [|e0 [|e1 [|e2 [|e3 rest]]]];
        try (split; [intros _; simpl; lia | intros _; reflexivity]).
      simpl map. rewrite step_exponent_four. simpl.
      split; [discriminate | lia].
    + destruct decay_epochs as [|e0 [|e1 [|e2 [|e3 rest]]]]; reflexivity.
Qed.

Lemma step_schedule_index_error_witness :
  (0 * 1000 <= 10)%Z /\
  step_lr_lambda 0 300 1000 [30; 60; 90]%Z (1 # 10) 10 = None.
Proof.
  split; [lia|].
  destruct (step_schedule_index_error 0 300 1000 [30; 60; 90]%Z (1 # 10) 10)
    as (_ & H & _).
  apply H; simpl; lia.
Defined.

Lemma Qpower_chain (f : Q) :
  (0 <= f)%Q -> (f <= 1)%Q ->
  (f ^ 1 <= f ^ 0 /\ f ^ 2 <= f ^ 1 /\ f ^ 3 <= f ^ 2 /\ f ^ 4 <= f ^ 3)%Q.
Proof.
  intros H0 H1. simpl.
  assert (H2 : (0 <= f * f)%Q) by (apply Qmult_le_0_compat; assumption).
  assert (P2 : (f * f <= f)%Q).
  { rewrite <- (Qmult_1_l f) at 3. apply Qmult_le_compat_r; assumption. }
  split; [exact H1|]. split; [exact P2|]. split.
  - rewrite <- (Qmult_1_l (f * f)) at 2. apply Qmult_le_compat_r; assumption.
  - apply Qmult_le_compat_r; assumption.
Qed.

(** X10: with four decay epochs or more, in whatever order, and a decay factor
    between 0 and 1, the multiplier does not increase from the end of
    warmup on. *)
Theorem step_schedule_nonincreasing (we te spe e0 e1 e2 e3 : Z)
  (rest : list Z) (f : Q) (s s' : Z) :
  (0 <= f)%Q -> (f <= 1)%Q -> (we * spe <= s)%Z -> (s <= s')%Z ->
  exists q q',
    step_lr_lambda we te spe (e0 :: e1 :: e2 :: e3 :: rest) f s = Some q /\
    step_lr_lambda we te spe (e0 :: e1 :: e2 :: e3 :: rest) f s' = Some q' /\
    (q' <= q)%Q.
Proof.
  intros Hf0 Hf1 Hge Hss.
  destruct (Qpower_chain f Hf0 Hf1) as (P1 & P2 & P3 & P4).
  unfold step_lr_lambda.
  destruct (Z.ltb_spec s (we * spe)); [lia|].
  destruct (Z.ltb_spec s' (we * spe)); [lia|].
  simpl map. rewrite !step_exponent_four. simpl.
  eexists _, _. split; [reflexivity|]. split; [reflexivity|].
  destruct (Z.ltb_spec (e3 * spe) s), (Z.ltb_spec (e2 * spe) s),
    (Z.ltb_spec (e1 * spe) s), (Z.ltb_spec (e0 * spe) s);
    destruct (Z.ltb_spec (e3 * spe) s'), (Z.ltb_spec (e2 * spe) s'),
      (Z.ltb_spec (e1 * spe) s'), (Z.ltb_spec (e0 * spe) s');
    try lia;
    repeat first [ apply Qle_refl
                 | eapply Qle_trans; [eassumption|] ].
Qed.

Lemma step_schedule_nonincreasing_witness :
  (0 <= 1 # 10)%Q /\ (1 # 10 <= 1)%Q /\ (5 * 1000 <= 100000)%Z /\
  (100000 <= 130000)%Z /\
  exists q q',
    step_lr_lambda 5 300 1000 [60; 120; 160; 200]%Z (1 # 10) 100000
    = Some q /\
    step_lr_lambda 5 300 1000 [60; 120; 160; 200]%Z (1 # 10) 130000
    = Some q' /\
    (q' <= q)%Q.
Proof.
  assert (H0 : (0 <= 1 # 10)%Q) by (unfold Qle; simpl; lia).
  assert (H1 : (1 # 10 <= 1)%Q) by (unfold Qle; simpl; lia).
  split; [exact H0|]. split; [exact H1|]. split; [lia|]. split; [lia|].
  apply (step_schedule_nonincreasing 5 300 1000 60 120 160 200 []
                                     (1 # 10) 100000 130000); [| |lia|lia];
    assumption.
Defined.

(** When the decay epochs do not ascend the exponent is not the number of
    boundaries passed: step 55000 has passed one of them. *)
Example step_schedule_unsorted :
  step_lr_lambda 0 300 1000 [60; 120; 50; 200]%Z (1 # 10) 55000
  = Some (1 # 1000).
Proof. reflexivity. Qed.
End ScheduleMore.

(** *** More on softmax and on the pseudo-label generator *)
Module PseudoLabelMore.
Import Interleave Tensor PseudoLabel TensorFacts PseudoLabelFacts LossFacts.

Lemma sum_list_nonneg (l : Tensor1) :
  Forall (fun v => (0 <= v)%R) l -> (0 <= sum_list l)%R.
Proof. induction 1 as [|v l Hv Hl IH]; simpl; lra. Qed.

Lemma sum_list_ge_member (l : Tensor1) (v : R) :
  Forall (fun v => (0 <= v)%R) l -> In v l -> (v <= sum_list l)%R.
Proof.
  induction 1 as [|w l Hw Hl IH]; simpl; [contradiction|].
  pose proof (sum_list_nonneg l Hl).
  intros [-> | Hin]; [lra | specialize (IH Hin); lra].
Qed.

Lemma softmax_row_sum (x : R) (row : Tensor1) :
  sum_list (softmax_row (x :: row)) = 1%R.
Proof.
  unfold softmax_row. rewrite sum_list_map_div.
  pose proof (sum_exp_pos x row). field. lra.
Qed.

Lemma softmax_row_le_1 (row : Tensor1) :
  Forall (fun v => (v <= 1)%R) (softmax_row row).
Proof.
  destruct row as [|x row]; [constructor|].
  apply List.Forall_forall. intros v Hv.
  rewrite <- (softmax_row_sum x row). apply sum_list_ge_member; [|exact Hv].
  eapply Forall_impl; [apply softmax_row_pos|]. simpl. intros; lra.
Qed.

Lemma softmax_nth_row (t : Tensor2) (i : nat) :
  nth i (softmax t) [] = softmax_row (nth i t []).
Proof. exact (map_nth softmax_row t [] i). Qed.

Lemma softmax_rows_sum B K (t : Tensor2) (i : nat) :
  has_shape B K t -> (0 < K)%nat -> (i < B)%nat ->
  sum_list (nth i (softmax t) []) = 1%R.
Proof.
  intros Ht HK Hi. rewrite softmax_nth_row.
  pose proof (has_shape_nth B K t i Ht Hi) as Hlen.
  destruct (nth i t []) as [|x row]; [simpl in Hlen; lia|].
  apply softmax_row_sum.
Qed.

Lemma softmax_entry_bounds B K (t : Tensor2) (i j : nat) :
  has_shape B K t -> (i < B)%nat -> (j < K)%nat ->
  (0 < entry (softmax t) i j <= 1)%R.
Proof.
  intros Ht Hi Hj. split; [apply (softmax_entry_pos B K); assumption|].
  unfold entry. rewrite softmax_nth_row.
  pose proof (softmax_row_le_1 (nth i t [])) as Hle.
  rewrite List.Forall_forall in Hle. apply Hle, nth_In.
  unfold softmax_row. rewrite !length_map.
  rewrite (has_shape_nth B K) by assumption. exact Hj.
Qed.

(** Every row of a softmax is a probability distribution. *)
Theorem softmax_distribution B K (t : Tensor2) (i : nat) :
  has_shape B K t -> (0 < K)%nat -> (i < B)%nat ->
  sum_list (nth i (softmax t) []) = 1%R /\
  forall j, (j < K)%nat -> (0 < entry (softmax t) i j <= 1)%R.
Proof.
  intros Ht HK Hi. split.
  - apply (softmax_rows_sum B K); assumption.
  - intros j Hj. apply (softmax_entry_bounds B K); assumption.
Qed.

Lemma softmax_distribution_witness :
  has_shape 1 2 [[3; 1]]%R /\ (0 < 2)%nat /\ (0 < 1)%nat /\
  sum_list (nth 0 (softmax [[3; 1]]%R) []) = 1%R.
Proof.
  assert (Hs : has_shape 1 2 [[3; 1]]%R)
    by (split; [reflexivity | repeat constructor]).
  split; [exact Hs|]. split; [lia|]. split; [lia|].
  destruct (softmax_distribution 1 2 [[3; 1]]%R 0 Hs) as [H _];
    [lia | lia | exact H].
Defined.

(** No entry of a log-softmax is positive. *)
Lemma log_softmax_row_nonpos (row : Tensor1) :
  Forall (fun v => (v <= 0)%R) (log_softmax_row row).
Proof.
  unfold log_softmax_row. apply Forall_map, List.Forall_forall.
  intros v Hv. simpl.
  assert (Hle : (exp v <= sum_list (map exp row))%R).
  { apply sum_list_ge_member; [|apply in_map, Hv].
    apply Forall_map, List.Forall_forall. intros w _. simpl.
    left. apply exp_pos. }
  pose proof (exp_pos v) as Hpos.
  destruct Hle as [Hlt | Heq].
  - pose proof (ln_increasing _ _ Hpos Hlt) as Hln.
    rewrite ln_exp in Hln. lra.
  - rewrite <- Heq, ln_exp. lra.
Qed.

Lemma sum_list_zip_plus (a b : Tensor1) :
  length a = length b ->
  sum_list (zip_with Rplus a b) = (sum_list a + sum_list b)%R.
Proof.
  revert b. induction a as [|x a IH]; intros [|y b] Hl; simpl in *;
    try discriminate; [lra|].
  rewrite IH by lia. lra.
Qed.

Lemma add_row_sum B K (a b : Tensor2) (i : nat) :
  has_shape B K a -> has_shape B K b -> (i < B)%nat ->
  sum_list (nth i (add a b) [])
  = (sum_list (nth i a []) + sum_list (nth i b []))%R.
Proof.
  intros Ha Hb Hi. unfold add.
  rewrite (nth_zip_with _ a b i [] [] []) by (destruct Ha, Hb; lia).
  apply sum_list_zip_plus.
  rewrite !(has_shape_nth B K) by assumption. reflexivity.
Qed.

Lemma div_scalar_row_sum (t : Tensor2) (c : R) (i : nat) :
  sum_list (nth i (div_scalar t c) []) = (sum_list (nth i t []) / c)%R.
Proof.
  unfold div_scalar.
  change (@nil R) with (map (fun v => (v / c)%R) []) at 1.
  rewrite map_nth. apply sum_list_map_div.
Qed.

Lemma entry_product_bounds (ps : list Tensor2) (i j : nat) :
  (forall P, In P ps -> (0 < entry P i j <= 1)%R) ->
  (0 < entry_product ps i j <= 1)%R /\
  forall P, In P ps -> (entry_product ps i j <= entry P i j)%R.
Proof.
  unfold entry_product.
  induction ps as [|Q ps IH]; intros Hb; simpl.
  - split; [lra | contradiction].
  - destruct IH as [[IH0 IH1] IHle];
      [intros P HP; apply Hb; right; exact HP|].
    pose proof (Hb Q (or_introl eq_refl)) as [HQ0 HQ1].
    split; [nra|].
    intros P [<- | HP]; [nra | specialize (IHle P HP); nra].
Qed.

Section Generator.
Context {St Features : Type}.
Variable classifier : St -> Features -> Tensor2 * St.
Variables (B K : nat) (features_u_w : Features) (T : R).
Hypothesis classifier_shape :
  forall st, has_shape B K (fst (classifier st features_u_w)).

(** What [generate] returns, in terms of the loop and of [torch.max]. *)
Lemma generate_inv (logits_u_w : Tensor2) (C : Z) (tau : R) (st st' : St)
  (pl : pseudo_labels) :
  generate classifier logits_u_w features_u_w T C tau st = Some (pl, st') ->
  exists p_mul p_sum vals idxs,
    resample classifier (Z.to_nat (C - 1)) st features_u_w T
             (softmax (div_scalar logits_u_w T))
             (softmax (div_scalar logits_u_w T)) = (p_mul, p_sum, st') /\
    max_last_dim p_mul = Some (vals, idxs) /\
    pl = {| pseudo_label_mul := p_mul;
            pseudo_label_sum := div_scalar p_sum (IZR C);
            max_probs := vals; targets_u := idxs;
            mask := ge_float vals tau |}.
Proof.
  unfold generate.
  destruct (resample classifier (Z.to_nat (C - 1)) st features_u_w T _ _)
    as [[p_mul p_sum] st''].
  destruct (max_last_dim p_mul) as [[vals idxs]|] eqn:Hmax; [|discriminate].
  simpl. intros [= <- <-]. exists p_mul, p_sum, vals, idxs. auto.
Qed.

Lemma sampled_probs_shape (n : nat) (st : St) (P : Tensor2) :
  In P (sampled_probs classifier n st features_u_w T) -> has_shape B K P.
Proof.
  revert st. induction n as [|n IH]; intros st; simpl; [contradiction|].
  pose proof (classifier_shape st) as Hc.
  destruct (classifier st features_u_w) as [logits st1]. simpl in Hc.
  intros [<- | Hin]; [apply softmax_shape, div_scalar_shape, Hc|].
  apply (IH st1 Hin).
Qed.

Lemma resample_row_sums (n : nat) (st : St) (p_mul p_sum : Tensor2) (i : nat) :
  has_shape B K p_mul -> has_shape B K p_sum -> (0 < K)%nat -> (i < B)%nat ->
  let '(_, p_sum', _) :=
    resample classifier n st features_u_w T p_mul p_sum in
  sum_list (nth i p_sum' []) = (sum_list (nth i p_sum []) + INR n)%R.
Proof.
  revert st p_mul p_sum.
  induction n as [|n IH]; intros st p_mul p_sum Hm Hs HK Hi.
  - simpl. lra.
  - cbn [resample].
    pose proof (classifier_shape st) as Hc.
    destruct (classifier st features_u_w) as [logits st1]. simpl in Hc.
    set (prob := softmax (div_scalar logits T)).
    assert (Hp : has_shape B K prob)
      by (apply softmax_shape, div_scalar_shape, Hc).
    specialize (IH st1 (mul p_mul prob) (add p_sum prob)
                   (zip_with_shape _ _ _ _ _ Hm Hp)
                   (zip_with_shape _ _ _ _ _ Hs Hp) HK Hi).
    destruct (resample classifier n st1 features_u_w T (mul p_mul prob)
                       (add p_sum prob)) as [[p_mul' p_sum'] st2].
    rewrite IH, (add_row_sum B K) by assumption.
    pose proof (softmax_rows_sum B K (div_scalar logits T) i
                  (div_scalar_shape _ _ _ _ Hc) HK Hi) as Hone.
    fold prob in Hone. rewrite Hone, S_INR. lra.
Qed.

(** X11: every row of the [p_sum] that the generator returns sums to 1. *)
Theorem p_sum_rows_sum_to_one (logits_u_w : Tensor2) (C : Z) (tau : R)
  (st st' : St) (pl : pseudo_labels) (i : nat) :
  has_shape B K logits_u_w -> (0 < K)%nat -> (1 <= C)%Z -> (i < B)%nat ->
  generate classifier logits_u_w features_u_w T C tau st = Some (pl, st') ->
  sum_list (nth i (pseudo_label_sum pl) []) = 1%R.
Proof.
  intros Hlog HK HC Hi Hgen.
  destruct (generate_inv _ _ _ _ _ _ Hgen)
    as (p_mul & p_sum & vals & idxs & Hres & _ & ->). simpl.
  set (p1 := softmax (div_scalar logits_u_w T)) in *.
  assert (Hp1 : has_shape B K p1)
    by (apply softmax_shape, div_scalar_shape, Hlog).
  pose proof (resample_row_sums (Z.to_nat (C - 1)) st p1 p1 i Hp1 Hp1 HK Hi)
    as Hsum.
  rewrite Hres in Hsum.
  pose proof (softmax_rows_sum B K (div_scalar logits_u_w T) i
                (div_scalar_shape _ _ _ _ Hlog) HK Hi) as Hone.
  fold p1 in Hone.
  rewrite div_scalar_row_sum, Hsum, Hone, INR_IZR_INZ, Z2Nat.id by lia.
  rewrite minus_IZR. assert (IZR C <> 0%R) by (apply not_0_IZR; lia).
  field. assumption.
Qed.

Lemma sampled_probs_bounds (n : nat) (st : St) (P : Tensor2) (i j : nat) :
  (0 < K)%nat -> (i < B)%nat -> (j < K)%nat ->
  In P (sampled_probs classifier n st features_u_w T) ->
  (0 < entry P i j <= 1)%R.
Proof.
  intros HK Hi Hj. revert st.
  induction n as [|n IH]; intros st; simpl; [contradiction|].
  pose proof (classifier_shape st) as Hc.
  destruct (classifier st features_u_w) as [logits st1]. simpl in Hc.
  intros [<- | Hin]; [|apply (IH st1 Hin)].
  apply (softmax_entry_bounds B K);
    [apply div_scalar_shape, Hc | exact Hi | exact Hj].
Qed.

Lemma passes_bounds (logits_u_w : Tensor2) (C : Z) (st : St) (P : Tensor2)
  (i j : nat) :
  has_shape B K logits_u_w -> (0 < K)%nat -> (i < B)%nat -> (j < K)%nat ->
  In P (passes classifier logits_u_w features_u_w T C st) ->
  (0 < entry P i j <= 1)%R.
Proof.
  intros Hlog HK Hi Hj [<- | Hin].
  - apply (softmax_entry_bounds B K);
      [apply div_scalar_shape, Hlog | exact Hi | exact Hj].
  - apply (sampled_probs_bounds _ _ _ _ _ HK Hi Hj Hin).
Qed.

(** The maximum of a row of [p_mul], as the generator returns it: the
    product, over the passes, of the probabilities of the target. *)
Lemma max_prob_is_product (logits_u_w : Tensor2) (C : Z) (tau : R)
  (st st' : St) (pl : pseudo_labels) (i : nat) :
  has_shape B K logits_u_w -> (0 < K)%nat -> (i < B)%nat ->
  generate classifier logits_u_w features_u_w T C tau st = Some (pl, st') ->
  let t := nth i (targets_u pl) 0%nat in
  length (max_probs pl) = B /\ (t < K)%nat /\
  nth i (max_probs pl) 0%R
  = entry_product (passes classifier logits_u_w features_u_w T C st) i t /\
  nth i (mask pl) 0%R
  = if Rge_dec (nth i (max_probs pl) 0%R) tau then 1%R else 0%R.
Proof.
  intros Hlog HK Hi Hgen.
  destruct (generate_inv _ _ _ _ _ _ Hgen)
    as (p_mul & p_sum & vals & idxs & Hres & Hmax & ->). simpl.
  set (p1 := softmax (div_scalar logits_u_w T)) in *.
  assert (Hp1 : has_shape B K p1)
    by (apply softmax_shape, div_scalar_shape, Hlog).
  pose proof (resample_spec classifier B K features_u_w T classifier_shape
                (Z.to_nat (C - 1)) st p1 p1 Hp1 Hp1) as Hspec.
  rewrite Hres in Hspec. destruct Hspec as (Hm & _ & _ & Hent).
  destruct (max_last_dim_spec B K p_mul Hm HK)
    as (vals' & idxs' & Hmax' & Hlv & Hli & Hrows).
  rewrite Hmax in Hmax'. injection Hmax' as <- <-.
  destruct (row_max_spec _ _ _ (Hrows i Hi)) as (Ht & Hv & _).
  rewrite (has_shape_nth B K) in Ht by assumption.
  split; [exact Hlv|]. split; [exact Ht|]. split.
  - rewrite <- Hv. change (nth (nth i idxs 0%nat) (nth i p_mul []) 0%R)
      with (entry p_mul i (nth i idxs 0%nat)).
    destruct (Hent i _ Hi Ht) as [He _]. rewrite He.
    unfold passes, entry_product. simpl. reflexivity.
  - apply ge_float_nth. lia.
Qed.

(** X12: a sample is selected only if every one of the [C] passes gives its
    target a probability of at least the threshold. *)
Theorem confident_in_every_pass (logits_u_w : Tensor2) (C : Z) (tau : R)
  (st st' : St) (pl : pseudo_labels) (i : nat) (P : Tensor2) :
  has_shape B K logits_u_w -> (0 < K)%nat -> (i < B)%nat ->
  generate classifier logits_u_w features_u_w T C tau st = Some (pl, st') ->
  nth i (mask pl) 0%R = 1%R ->
  In P (passes classifier logits_u_w features_u_w T C st) ->
  (tau <= entry P i (nth i (targets_u pl) 0%nat))%R.
Proof.
  intros Hlog HK Hi Hgen Hmask HP.
  destruct (max_prob_is_product _ _ _ _ _ _ _ Hlog HK Hi Hgen)
    as (_ & Ht & Hv & Hm).
  rewrite Hm in Hmask.
  destruct (Rge_dec (nth i (max_probs pl) 0%R) tau) as [Hge | _]; [|lra].
  rewrite Hv in Hge.
  destruct (entry_product_bounds
              (passes classifier logits_u_w features_u_w T C st) i
              (nth i (targets_u pl) 0%nat)) as [_ Hle].
  { intros Q HQ. apply (passes_bounds logits_u_w C st); assumption. }
  specialize (Hle P HP). lra.
Qed.

(** X13: the mask holds zeros and ones; a threshold above 1 selects no sample
    and a threshold of 0 or less selects every sample. *)
Theorem mask_and_threshold (logits_u_w : Tensor2) (C : Z) (tau : R)
  (st st' : St) (pl : pseudo_labels) :
  has_shape B K logits_u_w -> (0 < K)%nat ->
  generate classifier logits_u_w features_u_w T C tau st = Some (pl, st') ->
  Forall (fun m => m = 0%R \/ m = 1%R) (mask pl) /\
  ((1 < tau)%R -> Forall (fun m => m = 0%R) (mask pl)) /\
  ((tau <= 0)%R -> Forall (fun m => m = 1%R) (mask pl)).
Proof.
  intros Hlog HK Hgen.
  assert (Hall : forall i, (i < length (mask pl))%nat ->
            (0 < nth i (max_probs pl) 0 <= 1)%R /\
            nth i (mask pl) 0%R
            = if Rge_dec (nth i (max_probs pl) 0%R) tau then 1%R else 0%R).
  { intros i Hi.
    assert (HiB : (i < B)%nat).
    { destruct (generate_inv _ _ _ _ _ _ Hgen)
        as (p_mul & p_sum & vals & idxs & Hres & Hmax & ->).
      simpl in Hi. unfold ge_float in Hi. rewrite length_map in Hi.
      set (p1 := softmax (div_scalar logits_u_w T)) in *.
      assert (Hp1 : has_shape B K p1)
        by (apply softmax_shape, div_scalar_shape, Hlog).
      pose proof (resample_spec classifier B K features_u_w T
                    classifier_shape (Z.to_nat (C - 1)) st p1 p1 Hp1 Hp1)
        as Hspec.
      rewrite Hres in Hspec. destruct Hspec as (Hm & _).
      destruct (max_last_dim_spec B K p_mul Hm HK)
        as (vals' & idxs' & Hmax' & Hlv & _).
      rewrite Hmax in Hmax'. injection Hmax' as <- <-. lia. }
    destruct (max_prob_is_product _ _ _ _ _ _ _ Hlog HK HiB Hgen)
      as (_ & Ht & Hv & Hm).
    split; [|exact Hm]. rewrite Hv.
    apply entry_product_bounds. intros Q HQ.
    apply (passes_bounds logits_u_w C st); assumption. }
  split; [|split].
  - apply Forall_nth with (d := 0%R). intros i Hi.
    destruct (Hall i Hi) as [_ ->]. destruct (Rge_dec _ _); auto.
  - intros Htau. apply Forall_nth with (d := 0%R). intros i Hi.
    destruct (Hall i Hi) as [Hb ->]. destruct (Rge_dec _ _); lra.
  - intros Htau. apply Forall_nth with (d := 0%R). intros i Hi.
    destruct (Hall i Hi) as [Hb ->]. destruct (Rge_dec _ _); lra.
Qed.
End Generator.

(** A head whose logits depend on the state of the generator, one row
    over two classes, two classifiers. *)
Lemma p_sum_rows_sum_to_one_witness :
  let classifier := fun (st : nat) (_ : unit) => ([[INR st; 0%R]], S st) in
  (forall st, has_shape 1 2 (fst (classifier st tt))) /\
  has_shape 1 2 [[1; 0]]%R /\ (0 < 2)%nat /\ (1 <= 2)%Z /\ (0 < 1)%nat /\
  exists pl st',
    generate classifier [[1; 0]]%R tt 1%R 2 0.95%R 0%nat = Some (pl, st') /\
    sum_list (nth 0 (pseudo_label_sum pl) []) = 1%R.
Proof.
  intros classifier.
  assert (Hc : forall st, has_shape 1 2 (fst (classifier st tt)))
    by (intros st; split; [reflexivity | repeat constructor]).
  assert (Hl : has_shape 1 2 [[1; 0]]%R)
    by (split; [reflexivity | repeat constructor]).
  split; [exact Hc|]. split; [exact Hl|]. repeat (split; [lia|]).
  destruct (generate classifier [[1; 0]]%R tt 1%R 2 0.95%R 0%nat)
    as [[pl st']|] eqn:Hgen; [|simpl in Hgen; discriminate].
  exists pl, st'. split; [reflexivity|].
  apply (p_sum_rows_sum_to_one classifier 1 2 tt 1%R Hc [[1; 0]]%R 2 0.95%R
                               0%nat st' pl 0%nat Hl);
    [lia | lia | lia | exact Hgen].
Defined.

Lemma mask_and_threshold_witness :
  let classifier := fun (st : nat) (_ : unit) => ([[INR st; 0%R]], S st) in
  (forall st, has_shape 1 2 (fst (classifier st tt))) /\
  has_shape 1 2 [[1; 0]]%R /\ (0 < 2)%nat /\ (1 < 2)%R /\
  exists pl st',
    generate classifier [[1; 0]]%R tt 1%R 2 2%R 0%nat = Some (pl, st') /\
    Forall (fun m => m = 0%R) (mask pl).
Proof.
  intros classifier.
  assert (Hc : forall st, has_shape 1 2 (fst (classifier st tt)))
    by (intros st; split; [reflexivity | repeat constructor]).
  assert (Hl : has_shape 1 2 [[1; 0]]%R)
    by (split; [reflexivity | repeat constructor]).
  split; [exact Hc|]. split; [exact Hl|]. split; [lia|]. split; [lra|].
  destruct (generate classifier [[1; 0]]%R tt 1%R 2 2%R 0%nat)
    as [[pl st']|] eqn:Hgen; [|simpl in Hgen; discriminate].
  exists pl, st'. split; [reflexivity|].
  destruct (mask_and_threshold classifier 1 2 tt 1%R Hc [[1; 0]]%R 2 2%R
                               0%nat st' pl Hl ltac:(lia) Hgen)
    as (_ & H & _).
  apply H. lra.
Defined.

(** Two rows over two classes and two classifiers with the same logits:
    the passes of the first row are [0.99, 0.01], those of the second
    [0.5, 0.5]; for the threshold 0.95 the first row is selected
    ([0.99 * 0.99 >= 0.95]) and the second is not. *)
Local Abbreviation two_rows := ([[ln 99; 0]; [0; 0]]%R).

Lemma softmax_two_rows :
  softmax (div_scalar two_rows 1) = [[0.99; 0.01]; [0.5; 0.5]]%R.
Proof.
  unfold softmax, div_scalar, softmax_row.
  cbn [map sum_list fold_right].
  rewrite !Rdiv_1_r, exp_0, exp_ln by lra.
  repeat f_equal; lra.
Qed.

Lemma generate_two_rows :
  let classifier := fun (st : nat) (_ : unit) => (two_rows, S st) in
  generate classifier two_rows tt 1%R 2 0.95%R 0%nat
  = Some ({| pseudo_label_mul :=
               [[0.99 * 0.99; 0.01 * 0.01]; [0.5 * 0.5; 0.5 * 0.5]]%R;
             pseudo_label_sum :=
               div_scalar
                 [[0.99 + 0.99; 0.01 + 0.01]; [0.5 + 0.5; 0.5 + 0.5]]%R 2;
             max_probs := [0.99 * 0.99; 0.5 * 0.5]%R;
             targets_u := [0; 0]%nat;
             mask := [1; 0]%R |}, 1%nat).
Proof.
  intros classifier. unfold generate.
  change (Z.to_nat (2 - 1)) with 1%nat.
  cbn [resample]. unfold classifier at 1. cbn beta iota.
  rewrite softmax_two_rows.
  cbn [mul add zip_with].
  unfold max_last_dim. cbn [mapM row_max max_from].
  destruct (Rlt_dec (0.99 * 0.99) (0.01 * 0.01)) as [H | _]; [lra|].
  destruct (Rlt_dec (0.5 * 0.5) (0.5 * 0.5)) as [H | _]; [lra|].
  simpl. unfold ge_float. cbn [map].
  destruct (Rge_dec (0.99 * 0.99) 0.95) as [_ | H]; [|lra].
  destruct (Rge_dec (0.5 * 0.5) 0.95) as [H | _]; [lra|].
  reflexivity.
Qed.

Lemma confident_in_every_pass_witness :
  let classifier := fun (st : nat) (_ : unit) => (two_rows, S st) in
  (forall st, has_shape 2 2 (fst (classifier st tt))) /\
  has_shape 2 2 two_rows /\ (0 < 2)%nat /\ (0 < 2)%nat /\
  exists pl st',
    generate classifier two_rows tt 1%R 2 0.95%R 0%nat = Some (pl, st') /\
    mask pl = [1; 0]%R /\ nth 0 (mask pl) 0%R = 1%R /\
    nth 0 (targets_u pl) 0%nat = 0%nat /\
    (0.95 <= entry (softmax (div_scalar two_rows 1)) 0
                   (nth 0 (targets_u pl) 0%nat))%R.
Proof.
  intros classifier.
  assert (Hl : has_shape 2 2 two_rows)
    by (split; [reflexivity | repeat constructor]).
  assert (Hc : forall st, has_shape 2 2 (fst (classifier st tt)))
    by (intros st; exact Hl).
  split; [exact Hc|]. split; [exact Hl|]. split; [lia|]. split; [lia|].
  pose proof generate_two_rows as Hgen. cbv zeta in Hgen.
  fold classifier in Hgen.
  eexists _, _. split; [exact Hgen|].
  split; [reflexivity|]. split; [reflexivity|]. split; [reflexivity|].
  apply (confident_in_every_pass classifier 2 2 tt 1%R Hc two_rows 2 0.95%R
           0%nat _ _ 0%nat _ Hl ltac:(lia) ltac:(lia) Hgen eq_refl).
  left. reflexivity.
Defined.
End PseudoLabelMore.

(** *** More on the unsupervised loss *)
Module LossMore.
Import Interleave Tensor Loss TensorFacts LossFacts PseudoLabelMore.
Import Special(value(..), vadd, vmul, vdiv, vneg, pow_half).




Lemma length_cross_entropy_none (logits : Tensor2) (targets : list nat) :
  length (cross_entropy_none logits targets)
  = Nat.min (length logits) (length targets).
Proof. unfold cross_entropy_none. apply length_zip_with. Qed.



Lemma mean_nonneg (l : Tensor1) :
  l <> [] -> Forall (fun v => (0 <= v)%R) l -> (0 <= mean l)%R.
Proof.
  intros Hne Hl. unfold mean, Rdiv.
  apply Rmult_le_pos; [apply sum_list_nonneg, Hl|].
  left. apply Rinv_0_lt_compat, lt_0_INR.
  destruct l; [contradiction | simpl; lia].
Qed.

Lemma mean_nonpos (l : Tensor1) :
  l <> [] -> Forall (fun v => (v <= 0)%R) l -> (mean l <= 0)%R.
Proof.
  intros Hne Hl.
  assert (Hs : (sum_list l <= 0)%R)
    by (clear Hne; induction Hl as [|v l Hv Hl IH]; simpl; lra).
  assert (Hi : (0 < / INR (length l))%R).
  { apply Rinv_0_lt_compat, lt_0_INR. destruct l; [contradiction|simpl; lia]. }
  unfold mean, Rdiv. nra.
Qed.

Lemma zip_mult_signs (v mask : Tensor1) :
  Forall (fun x => (x <= 0)%R) v -> Forall (fun m => (0 <= m)%R) mask ->
  Forall (fun x => (x <= 0)%R) (zip_with Rmult v mask).
Proof.
  intros Hv. revert mask.
  induction Hv as [|x v Hx Hv IH]; intros mask Hm; [constructor|].
  destruct Hm as [|m mask Hm0 Hm]; simpl; constructor; [nra | apply IH, Hm].
Qed.

Lemma zip_mult_nonneg (v mask : Tensor1) :
  Forall (fun x => (0 <= x)%R) v -> Forall (fun m => (0 <= m)%R) mask ->
  Forall (fun x => (0 <= x)%R) (zip_with Rmult v mask).
Proof.
  intros Hv. revert mask.
  induction Hv as [|x v Hx Hv IH]; intros mask Hm; [constructor|].
  destruct Hm as [|m mask Hm0 Hm]; simpl; constructor; [nra | apply IH, Hm].
Qed.

Lemma sum_zip_mult_nonpos (a b : Tensor1) :
  Forall (fun x => (0 <= x)%R) a -> Forall (fun x => (x <= 0)%R) b ->
  (sum_list (zip_with Rmult a b) <= 0)%R.
Proof.
  intros Ha. revert b.
  induction Ha as [|x a Hx Ha IH]; intros b Hb; simpl; [lra|].
  destruct Hb as [|y b Hy Hb]; simpl; [lra|].
  specialize (IH b Hb). nra.
Qed.

(** X15: neither unsupervised loss is negative: a depict target has no negative
    entry, a log-softmax no positive one, and the mask holds zeros and
    ones. *)
Theorem unsupervised_loss_nonneg B K (targets_u_aux logits_u : Tensor2)
  (targets_u : list nat) (mask : Tensor1) :
  (0 < B)%nat -> has_shape B K targets_u_aux -> has_shape B K logits_u ->
  length targets_u = B -> length mask = B ->
  Forall (fun m => m = 0%R \/ m = 1%R) mask ->
  Forall (Forall (fun v => (0 <= v)%R)) targets_u_aux ->
  (0 <= depict_loss targets_u_aux logits_u mask)%R /\
  (0 <= fixmatch_loss logits_u targets_u mask)%R.
Proof.
  intros HB Ht Hl Htu Hm H01 Hpos.
  assert (Hmask : Forall (fun m => (0 <= m)%R) mask)
    by (eapply Forall_impl; [exact H01|]; simpl; intros x [-> | ->]; lra).
  destruct Ht as [Htl _]. destruct Hl as [Hll _].
  split.
  - unfold depict_loss.
    assert (Hrows : Forall (fun x => (x <= 0)%R)
                      (sum1 (mul targets_u_aux (log_softmax logits_u)))).
    { unfold sum1, mul, log_softmax. apply Forall_map.
      clear Htl Hll. revert logits_u.
      induction Hpos as [|r t Hr Ht IH]; intros [|l logits]; simpl;
        constructor; [|apply IH].
      simpl. apply sum_zip_mult_nonpos; [exact Hr|].
      apply log_softmax_row_nonpos. }
    assert (Hne : zip_with Rmult
                    (sum1 (mul targets_u_aux (log_softmax logits_u))) mask
                  <> []).
    { intros Hnil. apply (f_equal length) in Hnil.
      rewrite length_zip_with in Hnil. unfold sum1, mul, log_softmax in Hnil.
      rewrite length_map, length_zip_with, length_map in Hnil.
      simpl in Hnil. lia. }
    pose proof (mean_nonpos _ Hne (zip_mult_signs _ _ Hrows Hmask)). lra.
  - unfold fixmatch_loss. apply mean_nonneg.
    + intros Hnil. apply (f_equal length) in Hnil.
      rewrite length_zip_with, length_cross_entropy_none in Hnil.
      simpl in Hnil. lia.
    + apply zip_mult_nonneg; [|exact Hmask].
      unfold cross_entropy_none. clear Htu Hll. revert targets_u.
      induction logits_u as [|row logits IH]; intros [|t targets]; simpl;
        constructor; [|apply IH].
      pose proof (log_softmax_row_nonpos row) as Hrow.
      destruct (Nat.lt_ge_cases t (length (log_softmax_row row))) as [H | H].
      * rewrite List.Forall_forall in Hrow.
        specialize (Hrow _ (nth_In _ 0%R H)). lra.
      * rewrite nth_overflow by exact H. lra.
Qed.

Lemma unsupervised_loss_nonneg_witness :
  (0 < 1)%nat /\ has_shape 1 2 [[0.5; 0.5]]%R /\ has_shape 1 2 [[3; 1]]%R /\
  length [0%nat] = 1%nat /\ length [1%R] = 1%nat /\
  Forall (fun m => m = 0%R \/ m = 1%R) [1%R] /\
  Forall (Forall (fun v => (0 <= v)%R)) [[0.5; 0.5]]%R /\
  (0 <= depict_loss [[0.5; 0.5]]%R [[3; 1]]%R [1%R])%R.
Proof.
  assert (H1 : has_shape 1 2 [[0.5; 0.5]]%R)
    by (split; [reflexivity | repeat constructor]).
  assert (H2 : has_shape 1 2 [[3; 1]]%R)
    by (split; [reflexivity | repeat constructor]).
  assert (H3 : Forall (fun m => m = 0%R \/ m = 1%R) [1%R])
    by (repeat constructor; right; reflexivity).
  assert (H4 : Forall (Forall (fun v => (0 <= v)%R)) [[0.5; 0.5]]%R)
    by (repeat constructor; lra).
  split; [lia|]. split; [exact H1|]. split; [exact H2|].
  split; [reflexivity|]. split; [reflexivity|]. split; [exact H3|].
  split; [exact H4|].
  destruct (unsupervised_loss_nonneg 1 2 [[0.5; 0.5]]%R [[3; 1]]%R [0%nat]
              [1%R] ltac:(lia) H1 H2 eq_refl eq_refl H3 H4) as [H _].
  exact H.
Defined.

(** The depict target under the gather of line 481. *)

Lemma zip_plus_zero_l (K : nat) (l : Tensor1) :
  length l = K -> zip_with Rplus (replicate K 0%R) l = l.
Proof.
  revert K. induction l as [|x l IH]; intros [|K] Hl; simpl in *;
    try discriminate; [reflexivity|].
  rewrite IH by lia. f_equal. apply Rplus_0_l.
Qed.

Lemma zip_plus_assoc (a b c : Tensor1) :
  zip_with Rplus a (zip_with Rplus b c)
  = zip_with Rplus (zip_with Rplus a b) c.
Proof.
  revert b c. induction a as [|x a IH]; intros [|y b] [|z c]; simpl;
    try reflexivity.
  rewrite IH. f_equal. symmetry. apply Rplus_assoc.
Qed.

Lemma length_sum0_rows (K : nat) (t : Tensor2) :
  Forall (fun r => length r = K) t -> length (sum0 K t) = K.
Proof.
  intros Ht. apply (length_sum0 (length t) K). split; [reflexivity | exact Ht].
Qed.

Lemma sum0_app (K : nat) (a b : Tensor2) :
  Forall (fun r => length r = K) b ->
  sum0 K (a ++ b) = zip_with Rplus (sum0 K a) (sum0 K b).
Proof.
  intros Hb. induction a as [|r a IH]; simpl.
  - symmetry. apply zip_plus_zero_l, length_sum0_rows, Hb.
  - rewrite IH. apply zip_plus_assoc.
Qed.

Lemma replicate_rows (K n : nat) (t : Tensor2) :
  Forall (fun r => length r = K) t ->
  Forall (fun r => length r = K) (concat (replicate n t)).
Proof.
  intros Ht. induction n as [|n IH]; simpl; [constructor|].
  apply Forall_app. split; assumption.
Qed.

Lemma zip_plus_scale (n : nat) (l : Tensor1) :
  zip_with Rplus l (map (Rmult (INR n)) l) = map (Rmult (INR (S n))) l.
Proof.
  induction l as [|x l IH]; simpl; [reflexivity|].
  rewrite IH. f_equal. destruct n; simpl; ring.
Qed.

(** The class sums of [n] copies of a batch are [n] times its class
    sums. *)
Lemma sum0_replicate (K n : nat) (t : Tensor2) :
  Forall (fun r => length r = K) t ->
  sum0 K (concat (replicate n t)) = map (Rmult (INR n)) (sum0 K t).
Proof.
  intros Ht. induction n as [|n IH].
  - simpl. pose proof (length_sum0_rows K t Ht) as Hl. revert Hl.
    generalize (sum0 K t). clear. intros l. revert K.
    induction l as [|x l IH]; intros [|K] Hl; simpl in *; try discriminate;
      [reflexivity|].
    rewrite (IH K) by lia. f_equal. ring.
  - change (concat (replicate (S n) t)) with (t ++ concat (replicate n t)).
    rewrite sum0_app by (apply replicate_rows, Ht).
    rewrite IH. apply zip_plus_scale.
Qed.

Lemma depict_denominator_replicate (K n : nat) (t : Tensor2) :
  Forall (fun r => length r = K) t ->
  Forall (fun c => (0 < c)%R) (sum0 K t) ->
  depict_denominator K (concat (replicate n t))
  = map (Rmult (sqrt (INR n))) (depict_denominator K t).
Proof.
  intros Ht Hpos. unfold depict_denominator.
  rewrite sum0_replicate by exact Ht. rewrite !map_map.
  apply map_ext_in. intros s Hs. rewrite List.Forall_forall in Hpos.
  specialize (Hpos s Hs).
  apply sqrt_mult; [apply pos_INR | lra].
Qed.

Lemma zip_div_scale (c : R) (row d : Tensor1) :
  zip_with Rdiv row (map (Rmult c) d)
  = map (fun v => (v / c)%R) (zip_with Rdiv row d).
Proof.
  revert d. induction row as [|x row IH]; intros [|y d]; simpl;
    try reflexivity.
  rewrite IH. f_equal. unfold Rdiv. rewrite Rinv_mult. ring.
Qed.

Lemma div_row_scale (c : R) (p : Tensor2) (d : Tensor1) :
  div_row p (map (Rmult c) d) = div_scalar (div_row p d) c.
Proof.
  unfold div_row, div_scalar. rewrite map_map.
  apply map_ext. intros row. apply zip_div_scale.
Qed.

(** Rows that are divided by their sums do not change when the tensor is
    first divided by a constant. *)
Lemma div_col_scale (c : R) (a : Tensor2) :
  c <> 0%R ->
  div_col (div_scalar a c) (sum1 (div_scalar a c)) = div_col a (sum1 a).
Proof.
  intros Hc. unfold div_col, sum1, div_scalar.
  induction a as [|r a IH]; simpl; [reflexivity|].
  rewrite IH. f_equal. rewrite map_map, sum_list_map_div.
  apply map_ext. intros v. unfold Rdiv.
  rewrite Rinv_mult, Rinv_inv.
  replace (v * / c * (/ sum_list r * c))%R
    with (v * / sum_list r * (/ c * c))%R by ring.
  rewrite Rinv_l by exact Hc. ring.
Qed.

(** Against [n >= 1] copies of a batch the depict target is the target
    against the batch itself: the factor [sqrt n] of the denominators is
    divided out when the rows are normalised. *)
Lemma depict_target_replicate (K n : nat) (t p : Tensor2) :
  (0 < n)%nat -> Forall (fun r => length r = K) t ->
  Forall (fun c => (0 < c)%R) (sum0 K t) ->
  depict_target K (concat (replicate n t)) p = depict_target K t p.
Proof.
  intros Hn Ht Hpos. unfold depict_target, depict_scaled.
  rewrite depict_denominator_replicate by assumption.
  rewrite div_row_scale. apply div_col_scale.
  assert (0 < sqrt (INR n))%R by (apply sqrt_lt_R0, lt_0_INR, Hn). lra.
Qed.

Section Distributed.
Variable world_inputs : Tensor2 -> list Tensor2.

(** X16: in distributed mode the depict target of a process is its [p_sum]
    normalised by the class sums of a single batch, that of the rank that
    the gather copies last: the batches of the other ranks do not enter,
    and on that rank the target is the single-process target. *)
Theorem distributed_depict_target (cfg : TrainStep.config)
  (pl : PseudoLabel.pseudo_labels) (order : list nat) (k : nat)
  (t : Tensor2) :
  let p_sum := PseudoLabel.pseudo_label_sum pl in
  let K := TrainStep.num_classes cfg in
  TrainStep.method cfg = depict -> TrainStep.local_rank cfg <> (-1)%Z ->
  TrainStep.world_size cfg = Z.of_nat (length (world_inputs p_sum)) ->
  world_inputs p_sum !! k = Some t ->
  Forall (fun r => length r = K) t ->
  Forall (fun c => (0 < c)%R) (sum0 K t) ->
  TrainStep.make_target world_inputs (order ++ [k]) cfg pl
  = Some (TrainStep.DepictTarget (depict_target K t p_sum)) /\
  (t = p_sum ->
   TrainStep.make_target world_inputs (order ++ [k]) cfg pl
   = Some (TrainStep.DepictTarget (depict_target K p_sum p_sum))).
Proof.
  intros p_sum K Hmethod Hrank Hws Hk Ht Hpos.
  assert (Hmk : TrainStep.make_target world_inputs (order ++ [k]) cfg pl
                = Some (TrainStep.DepictTarget (depict_target K t p_sum))).
  { unfold TrainStep.make_target. rewrite Hmethod. fold p_sum.
    destruct (Z.eqb_spec (TrainStep.local_rank cfg) (-1)); [contradiction|].
    rewrite Hws.
    rewrite (gather_aliased (world_inputs p_sum) order k t p_sum 0%nat
               {[ 0%nat := p_sum ]}); [|apply lookup_singleton_eq|exact Hk].
    simpl. fold K. rewrite depict_target_replicate; [reflexivity| |exact Ht
                                                    |exact Hpos].
    apply lookup_lt_Some in Hk. lia. }
  split; [exact Hmk|]. intros <-. exact Hmk.
Qed.
End Distributed.

(** Two processes, the batches of the failing gather. *)
Lemma distributed_depict_target_witness :
  let cfg := {| TrainStep.mu := 1; TrainStep.T := 1;
                TrainStep.num_classifiers := 1;
                TrainStep.confidence_threshold := 0.95;
                TrainStep.lambda_u := 1; TrainStep.rm_aug_s := false;
                TrainStep.method := depict; TrainStep.local_rank := 0;
                TrainStep.world_size := 2; TrainStep.num_classes := 2 |} in
  let pl := {| PseudoLabel.pseudo_label_mul := [[0.9; 0.1]]%R;
               PseudoLabel.pseudo_label_sum := [[0.9; 0.1]]%R;
               PseudoLabel.max_probs := [0.9%R];
               PseudoLabel.targets_u := [0%nat];
               PseudoLabel.mask := [0%R] |} in
  let world := fun p : Tensor2 => [p; [[0.2; 0.8]]%R] in
  TrainStep.local_rank cfg <> (-1)%Z /\
  Forall (fun c => (0 < c)%R) (sum0 2 [[0.2; 0.8]]%R) /\
  TrainStep.make_target world [0; 1]%nat cfg pl
  = Some (TrainStep.DepictTarget
            (depict_target 2 [[0.2; 0.8]]%R [[0.9; 0.1]]%R)).
Proof.
  intros cfg pl world.
  assert (Hpos : Forall (fun c => (0 < c)%R) (sum0 2 [[0.2; 0.8]]%R))
    by (simpl; repeat constructor; lra).
  split; [discriminate|]. split; [exact Hpos|].
  destruct (distributed_depict_target world cfg pl [0%nat] 1%nat
              [[0.2; 0.8]]%R eq_refl ltac:(discriminate) eq_refl eq_refl
              ltac:(repeat constructor) Hpos) as [H _].
  exact H.
Defined.

(** The depict target of a batch with a class of probability zero. *)

Lemma index_sum_zero (n : nat) (f : nat -> R) :
  (forall i, (i < n)%nat -> f i = 0%R) -> index_sum n f = 0%R.
Proof.
  revert f. induction n as [|n IH]; intros f Hf; [reflexivity|].
  rewrite index_sum_S, (Hf 0%nat) by lia.
  rewrite IH by (intros i Hi; apply Hf; lia). lra.
Qed.

Lemma vindex_sum_has_nan (n : nat) (f : nat -> value) (j : nat) :
  (j < n)%nat -> f j = NaN -> Special.index_sum n f = NaN.
Proof.
  intros Hj Hf. unfold Special.index_sum. apply vsum_nan.
  rewrite <- Hf. apply in_map, in_seq. lia.
Qed.

Lemma map_vdiv_nan (l : Special.VTensor1) :
  map (fun v => vdiv v NaN) l = replicate (length l) NaN.
Proof.
  induction l as [|v l IH]; simpl; [reflexivity|].
  rewrite IH, vdiv_nan_r. reflexivity.
Qed.

(** X23: when a class has the probability 0 in every row of [p_sum], as
    when the softmax underflows for it, and the batch is not empty, then
    every entry of the depict target is [nan], and so is the loss,
    whatever the mask and the logits. *)
Theorem zero_class_gives_nan B K (p_sum logits_u : Tensor2) (mask : Tensor1)
  (j0 : nat) :
  has_shape B K p_sum -> has_shape B K logits_u -> length mask = B ->
  (0 < B)%nat -> (j0 < K)%nat ->
  (forall i, (i < B)%nat -> entry p_sum i j0 = 0%R) ->
  Special.depict_target K p_sum p_sum = replicate B (replicate K NaN) /\
  Special.depict_loss (Special.depict_target K p_sum p_sum) logits_u mask
  = NaN.
Proof.
  intros Hp Hl Hm HB Hj0 Hzero.
  assert (Hscaled : forall i, (i < B)%nat ->
            Special.scaled_entry B p_sum i j0 = NaN).
  { intros i Hi. unfold Special.scaled_entry, class_sum.
    rewrite (index_sum_zero B) by exact Hzero.
    rewrite (Hzero i Hi), pow_half_nonneg, sqrt_0 by lra.
    apply vdiv_zero_zero. }
  assert (Hsum : forall i, (i < B)%nat ->
            Special.index_sum K (Special.scaled_entry B p_sum i) = NaN)
    by (intros i Hi; apply (vindex_sum_has_nan K _ j0 Hj0), Hscaled, Hi).
  assert (Hentry : forall i j, (i < B)%nat -> (j < K)%nat ->
            Special.entry (Special.depict_target K p_sum p_sum) i j = NaN).
  { intros i j Hi Hj. rewrite (vtarget_entry B K p_sum Hp i j Hi Hj).
    rewrite Hsum by exact Hi. apply vdiv_nan_r. }
  split.
  - pose proof (vtarget_shape B K p_sum Hp) as [Hlen _].
    symmetry. apply replicate_as_Forall. split; [exact Hlen|].
    apply Forall_nth with (d := []). intros i Hi. rewrite Hlen in Hi.
    rewrite (vtarget_row B K p_sum Hp i Hi).
    rewrite (vaux_row_sum B K p_sum Hp i Hi), (Hsum i Hi), map_vdiv_nan.
    rewrite (has_shape_nth B K) by (exact (vaux_shape B K p_sum Hp) || lia).
    reflexivity.
  - rewrite (depict_loss_entries B K)
      by (exact (vtarget_shape B K p_sum Hp) || assumption).
    rewrite (vindex_sum_has_nan B _ 0%nat HB); [reflexivity|].
    rewrite (vindex_sum_has_nan K _ j0 Hj0); [reflexivity|].
    rewrite Hentry by assumption. reflexivity.
Qed.

(** The row [1.0, 0.0], which a softmax returns when it underflows, with a
    mask of zero. *)
Lemma zero_class_gives_nan_witness :
  has_shape 1 2 [[1; 0]]%R /\ has_shape 1 2 [[3; 1]]%R /\
  length [0%R] = 1%nat /\ (0 < 1)%nat /\ (1 < 2)%nat /\
  (forall i, (i < 1)%nat -> entry [[1; 0]]%R i 1 = 0%R) /\
  Special.depict_target 2 [[1; 0]]%R [[1; 0]]%R = [[NaN; NaN]] /\
  Special.depict_loss (Special.depict_target 2 [[1; 0]]%R [[1; 0]]%R)
                      [[3; 1]]%R [0%R]
  = NaN.
Proof.
  assert (H1 : has_shape 1 2 [[1; 0]]%R)
    by (split; [reflexivity | repeat constructor]).
  assert (H2 : has_shape 1 2 [[3; 1]]%R)
    by (split; [reflexivity | repeat constructor]).
  assert (H3 : forall i, (i < 1)%nat -> entry [[1; 0]]%R i 1 = 0%R)
    by (intros [|i] Hi; [reflexivity | lia]).
  split; [exact H1|]. split; [exact H2|]. split; [reflexivity|].
  split; [lia|]. split; [lia|]. split; [exact H3|].
  exact (zero_class_gives_nan 1 2 [[1; 0]]%R [[3; 1]]%R [0%R] 1%nat H1 H2
           eq_refl ltac:(lia) ltac:(lia) H3).
Defined.
End LossMore.

(** *** The length of a run *)
Module RunFacts.
Import Main Run.

Lemma length_range (lo hi : Z) : length (range lo hi) = Z.to_nat (hi - lo).
Proof. unfold range. rewrite length_map, length_seq. reflexivity. Qed.

Lemma length_training_steps (start_epoch epochs eval_step : Z) :
  length (training_steps start_epoch epochs eval_step)
  = (Z.to_nat (epochs - start_epoch) * Z.to_nat eval_step)%nat.
Proof.
  unfold training_steps. rewrite <- length_range.
  induction (range start_epoch epochs) as [|e l IH]; simpl; [reflexivity|].
  rewrite length_app, IH, length_map, length_range, Z.sub_0_r. reflexivity.
Qed.

Lemma ceildiv_bounds (a b q : Z) :
  (0 < b)%Z -> ceildiv a b = Some q -> (a <= q * b < a + b)%Z.
Proof.
  intros Hb. unfold ceildiv.
  destruct (Z.eqb_spec b 0); [lia|]. intros [= <-].
  pose proof (Z.div_mod (- a) b ltac:(lia)) as Hdm.
  pose proof (Z.mod_pos_bound (- a) b Hb) as Hm. nia.
Qed.

(** X17: with a positive [eval_step] the number of epochs is defined, and a run
    from epoch 0 makes at least [total_steps] steps and fewer than
    [total_steps + eval_step]; a run from a later epoch makes [eval_step]
    steps for each epoch that is left.  With [eval_step = 0] the number of
    epochs is a division by zero. *)
Theorem run_covers_total_steps (o : options) :
  ((0 < eval_step o)%Z ->
   exists e,
     epochs_of o = Some e /\
     (total_steps o <= e * eval_step o < total_steps o + eval_step o)%Z /\
     ((0 <= total_steps o)%Z ->
      Z.of_nat (length (training_steps 0 e (eval_step o)))
      = (e * eval_step o)%Z) /\
     (forall start, (0 <= start <= e)%Z ->
        Z.of_nat (length (training_steps start e (eval_step o)))
        = ((e - start) * eval_step o)%Z)) /\
  (eval_step o = 0%Z -> epochs_of o = None).
Proof.
  split.
  - intros Hes. unfold epochs_of.
    destruct (ceildiv (total_steps o) (eval_step o)) as [e|] eqn:He.
    + pose proof (ceildiv_bounds _ _ _ Hes He) as Hb.
      exists e. split; [reflexivity|]. split; [exact Hb|].
      split.
      * intros Htot. rewrite length_training_steps. nia.
      * intros start Hstart. rewrite length_training_steps. nia.
    + unfold ceildiv in He. destruct (Z.eqb_spec (eval_step o) 0);
        [lia | discriminate].
  - intros Hz. unfold epochs_of, ceildiv. rewrite Hz. reflexivity.
Qed.

(** The defaults of the command line: [2^20] steps, evaluation every 1024
    steps. *)
Lemma run_covers_total_steps_witness :
  let o := {| num_classes := 10; num_labeled := 4000; batch_size := 64;
              mu := 7; eval_step := 1024; total_steps := 1048576;
              warmup := 0; lambda_u := 1; world_size := 1 |} in
  (0 < eval_step o)%Z /\
  exists e, epochs_of o = Some e /\
            (total_steps o <= e * eval_step o < total_steps o + eval_step o)%Z.
Proof.
  intros o. split; [simpl; lia|].
  destruct (run_covers_total_steps o) as [H _].
  destruct (H ltac:(simpl; lia)) as (e & He & Hb & _).
  exists e. split; [exact He | exact Hb].
Defined.

Example default_run_epochs :
  epochs_of {| num_classes := 10; num_labeled := 4000; batch_size := 64;
               mu := 7; eval_step := 1024; total_steps := 1048576;
               warmup := 0; lambda_u := 1; world_size := 1 |} = Some 1024%Z.
Proof. reflexivity. Qed.

Example uneven_run_epochs :
  epochs_of {| num_classes := 10; num_labeled := 4000; batch_size := 64;
               mu := 7; eval_step := 1000; total_steps := 2500;
               warmup := 0; lambda_u := 1; world_size := 1 |} = Some 3%Z.
Proof. reflexivity. Qed.

(** X18: for ImageNet the command-line values of [mu], [eval_step],
    [total_steps], [warmup], [lambda_u] and [num_labeled] are replaced;
    when one evaluation period of [batch_size * 5 * world_size] samples
    fits into the 1281167 training images the run has 300 epochs, when it
    does not [eval_step] is 0 and the number of epochs is a division by
    zero, and a product of 0 is a division by zero at once. *)
Theorem imagenet_run (o : options) :
  let samples := (batch_size o * 5 * world_size o)%Z in
  ((0 < samples <= 1281167)%Z ->
   exists o',
     configure imagenet o = Some o' /\
     num_classes o' = 1000%Z /\ num_labeled o' = 128000%Z /\
     mu o' = 5%Z /\ warmup o' = 5%Z /\ lambda_u o' = 10%Z /\
     (1 <= eval_step o')%Z /\ total_steps o' = (300 * eval_step o')%Z /\
     epochs_of o' = Some 300%Z) /\
  ((1281167 < samples)%Z ->
   exists o',
     configure imagenet o = Some o' /\ eval_step o' = 0%Z /\
     epochs_of o' = None) /\
  (samples = 0%Z -> configure imagenet o = None).
Proof.
  intros samples. unfold configure, floordiv. fold samples.
  split; [|split].
  - intros [Hpos Hle]. destruct (Z.eqb_spec samples 0); [lia|]. simpl.
    assert (Hes : (1 <= 1281167 / samples)%Z)
      by (apply Z.div_le_lower_bound; lia).
    eexists. split; [reflexivity|]. simpl.
    repeat (split; [reflexivity || exact Hes|]).
    unfold epochs_of, ceildiv. simpl eval_step. simpl total_steps.
    destruct (Z.eqb_spec (1281167 / samples) 0); [lia|].
    f_equal.
    replace (- (300 * (1281167 / samples)))%Z
      with (-300 * (1281167 / samples))%Z by lia.
    rewrite Z.div_mul by assumption. reflexivity.
  - intros Hgt. destruct (Z.eqb_spec samples 0); [lia|]. simpl.
    assert (Hes : (1281167 / samples = 0)%Z) by (apply Z.div_small; lia).
    eexists. split; [reflexivity|]. simpl.
    split; [exact Hes|].
    unfold epochs_of, ceildiv. simpl eval_step. rewrite Hes. reflexivity.
  - intros ->. reflexivity.
Qed.

(** The batch size 64 on four processes. *)
Lemma imagenet_run_witness :
  let o := {| num_classes := 10; num_labeled := 4000; batch_size := 64;
              mu := 7; eval_step := 1024; total_steps := 1048576;
              warmup := 0; lambda_u := 1; world_size := 4 |} in
  (0 < batch_size o * 5 * world_size o <= 1281167)%Z /\
  exists o', configure imagenet o = Some o' /\ epochs_of o' = Some 300%Z.
Proof.
  intros o. split; [simpl; lia|].
  destruct (imagenet_run o) as [H _].
  destruct (H ltac:(simpl; lia))
    as (o' & Hc & _ & _ & _ & _ & _ & _ & _ & He).
  exists o'. split; [exact Hc | exact He].
Defined.

Example imagenet_eval_step :
  eval_step <$> configure imagenet
    {| num_classes := 10; num_labeled := 4000; batch_size := 64;
       mu := 7; eval_step := 1024; total_steps := 1048576;
       warmup := 0; lambda_u := 1; world_size := 4 |} = Some 1000%Z.
Proof. reflexivity. Qed.
End RunFacts.

(** *** Checkpoints *)
Module CheckpointFacts.
Import Main Checkpoint.

Lemma append_inj_l (s a b : string) :
  (s ++ a)%string = (s ++ b)%string -> a = b.
Proof.
  induction s as [|c s IH]; simpl; [auto|]. intros [= H]. apply IH, H.
Qed.

Lemma paths_differ (dir : string) : checkpoint_path dir <> best_path dir.
Proof.
  unfold checkpoint_path, best_path, join. intros H.
  apply append_inj_l in H. discriminate.
Qed.

Lemma checkpoint_path_not_empty (dir : string) :
  String.eqb (checkpoint_path dir) "" = false.
Proof.
  apply String.eqb_neq. unfold checkpoint_path, join.
  destruct dir; discriminate.
Qed.

Section Files.
Context {S : Type}.
Implicit Types (fs : files S) (results : list (S * R)).

(** [save_checkpoint] writes the rolling file, writes the best file when
    [is_best] holds, and leaves every other file alone. *)
Lemma save_checkpoint_lookup (state : snapshot S) (is_best : bool) dir fs :
  save_checkpoint state is_best dir fs !! checkpoint_path dir = Some state /\
  save_checkpoint state is_best dir fs !! best_path dir
  = (if is_best then Some state else fs !! best_path dir) /\
  forall p, p <> checkpoint_path dir -> p <> best_path dir ->
            save_checkpoint state is_best dir fs !! p = fs !! p.
Proof.
  pose proof (paths_differ dir) as Hd.
  unfold save_checkpoint, copyfile, files in *.
  rewrite lookup_insert_eq.
  destruct is_best.
  - split; [|split].
    + rewrite lookup_insert_ne by (apply not_eq_sym, Hd).
      apply lookup_insert_eq.
    + apply lookup_insert_eq.
    + intros p Hp1 Hp2.
      rewrite !lookup_insert_ne by (apply not_eq_sym; assumption).
      reflexivity.
  - split; [|split].
    + apply lookup_insert_eq.
    + apply lookup_insert_ne, Hd.
    + intros p Hp1 Hp2. apply lookup_insert_ne, not_eq_sym, Hp1.
Qed.

Lemma end_of_epoch_checkpoint out epoch payload test_acc best fs :
  snd (end_of_epoch out epoch payload test_acc best fs)
  !! checkpoint_path out
  = Some {| snap_epoch := epoch + 1; snap_payload := payload;
            snap_acc := test_acc; snap_best_acc := Rmax test_acc best |}.
Proof. unfold end_of_epoch. cbn [snd]. apply save_checkpoint_lookup. Qed.

Lemma end_of_epoch_best out epoch payload test_acc best fs :
  fst (end_of_epoch out epoch payload test_acc best fs) = Rmax test_acc best /\
  ((test_acc > best)%R ->
   snd (end_of_epoch out epoch payload test_acc best fs) !! best_path out
   = Some {| snap_epoch := epoch + 1; snap_payload := payload;
             snap_acc := test_acc; snap_best_acc := test_acc |}) /\
  (~ (test_acc > best)%R ->
   Rmax test_acc best = best /\
   snd (end_of_epoch out epoch payload test_acc best fs) !! best_path out
   = fs !! best_path out).
Proof.
  unfold end_of_epoch. cbn [fst snd].
  split; [reflexivity|].
  match goal with
  | |- context [save_checkpoint ?st ?b out fs] =>
      destruct (save_checkpoint_lookup st b out fs) as (_ & Hbest & _)
  end.
  rewrite Hbest. clear Hbest.
  destruct (Rgt_dec test_acc best) as [Hgt | Hle].
  - split; [|contradiction]. intros _. do 2 f_equal.
    unfold Rmax. destruct (Rle_dec test_acc best); lra.
  - split; [contradiction|]. intros _. split; [|reflexivity].
    unfold Rmax. destruct (Rle_dec test_acc best); lra.
Qed.

(** X19: [best_acc] after a run is the largest of its value before the run and
    of the accuracies of the epochs. *)
Theorem best_acc_is_running_max out first results best fs :
  let best' := fst (end_of_epochs out first results best fs) in
  (best <= best')%R /\
  Forall (fun r => (snd r <= best')%R) results /\
  (best' = best \/ In best' (map snd results)).
Proof.
  revert first best fs.
  induction results as [|[payload acc] results IH]; intros first best fs.
  - simpl. split; [lra|]. split; [constructor | left; reflexivity].
  - cbn [end_of_epochs].
    destruct (end_of_epoch out first payload acc best fs) as [b1 fs1] eqn:He.
    assert (Hb1 : b1 = Rmax acc best)
      by (pose proof (end_of_epoch_best out first payload acc best fs) as [H _];
          rewrite He in H; exact H).
    specialize (IH (first + 1)%Z b1 fs1). cbv zeta in IH.
    destruct IH as (Hle & Hall & Hin).
    pose proof (Rmax_l acc best). pose proof (Rmax_r acc best).
    split; [lra|]. split.
    + constructor; [simpl; lra | exact Hall].
    + destruct Hin as [-> | Hin]; [|right; right; exact Hin].
      rewrite Hb1. unfold Rmax.
      destruct (Rle_dec acc best); [left | right; left]; reflexivity.
Qed.

Lemma best_acc_mono out first results best fs :
  (best <= fst (end_of_epochs out first results best fs))%R.
Proof.
  revert first best fs.
  induction results as [|[payload acc] results IH]; intros first best fs.
  - simpl. lra.
  - cbn [end_of_epochs].
    pose proof (end_of_epoch_best out first payload acc best fs) as [Hb _].
    destruct (end_of_epoch out first payload acc best fs) as [b1 fs1].
    simpl in Hb. specialize (IH (first + 1)%Z b1 fs1).
    pose proof (Rmax_r acc best). lra.
Qed.

(** The invariant of [model_best.pth.tar] once it is written: its
    accuracy is the best accuracy. *)
Lemma best_file_invariant out first results best fs :
  (exists c, fs !! best_path out = Some c /\
             snap_acc c = best /\ snap_best_acc c = best) ->
  let '(best', fs') := end_of_epochs out first results best fs in
  exists c, fs' !! best_path out = Some c /\
            snap_acc c = best' /\ snap_best_acc c = best'.
Proof.
  revert first best fs.
  induction results as [|[payload acc] results IH]; intros first best fs Hinv.
  - simpl. exact Hinv.
  - cbn [end_of_epochs].
    pose proof (end_of_epoch_best out first payload acc best fs)
      as (Hb & Hgt & Hle).
    destruct (end_of_epoch out first payload acc best fs) as [b1 fs1].
    simpl in Hb, Hgt, Hle. apply IH.
    destruct (Rgt_dec acc best) as [H | H].
    + eexists. split; [apply Hgt, H|]. simpl. rewrite Hb.
      unfold Rmax. destruct (Rle_dec acc best); split; lra.
    + destruct (Hle H) as [Hmax Hfile]. rewrite Hfile, Hb, Hmax.
      exact Hinv.
Qed.

(** X20: when an epoch of the run improves on [best_acc], the file
    [model_best.pth.tar] holds after the run a checkpoint whose accuracy
    is the best accuracy; when none does, the run leaves the file as it
    was. *)
Theorem best_file_holds_best out first results best fs :
  let best' := fst (end_of_epochs out first results best fs) in
  let fs' := snd (end_of_epochs out first results best fs) in
  ((best < best')%R ->
   exists c, fs' !! best_path out = Some c /\
             snap_acc c = best' /\ snap_best_acc c = best') /\
  (best' = best -> fs' !! best_path out = fs !! best_path out).
Proof.
  revert first best fs.
  induction results as [|[payload acc] results IH]; intros first best fs.
  - simpl. split; [lra | reflexivity].
  - cbn [end_of_epochs].
    pose proof (end_of_epoch_best out first payload acc best fs)
      as (Hb & Hgt & Hle).
    destruct (end_of_epoch out first payload acc best fs) as [b1 fs1].
    simpl in Hb, Hgt, Hle.
    pose proof (best_acc_mono out (first + 1)%Z results b1 fs1) as Hmono.
    pose proof (best_file_invariant out (first + 1)%Z results b1 fs1) as Hinv.
    specialize (IH (first + 1)%Z b1 fs1).
    destruct (end_of_epochs out (first + 1) results b1 fs1) as [b2 fs2].
    simpl in *.
    destruct IH as [IHgt IHeq].
    destruct (Rgt_dec acc best) as [H | H].
    + assert (Hb1 : b1 = acc)
        by (rewrite Hb; unfold Rmax; destruct (Rle_dec acc best); lra).
      split; [|intros ->; lra].
      intros _. apply Hinv. eexists. split; [apply Hgt, H|].
      simpl. rewrite Hb1. split; reflexivity.
    + destruct (Hle H) as [Hmax Hfile]. rewrite Hmax in Hb. subst b1.
      split.
      * intros Hlt. apply IHgt, Hlt.
      * intros Heq. rewrite IHeq by exact Heq. exact Hfile.
Qed.
Lemma last_checkpoint out first payload acc rest best fs :
  let '(best', fs') :=
    end_of_epochs out first ((payload, acc) :: rest) best fs in
  exists c, fs' !! checkpoint_path out = Some c /\
            snap_epoch c = (first + 1 + Z.of_nat (length rest))%Z /\
            snap_best_acc c = best'.
Proof.
  revert first payload acc best fs.
  induction rest as [|[payload' acc'] rest IH];
    intros first payload acc best fs.
  - cbn [end_of_epochs].
    pose proof (end_of_epoch_checkpoint out first payload acc best fs) as Hc.
    pose proof (end_of_epoch_best out first payload acc best fs) as [Hb _].
    destruct (end_of_epoch out first payload acc best fs) as [b1 fs1].
    simpl in *. eexists. split; [exact Hc|]. simpl. split; [lia | auto].
  - cbn [end_of_epochs].
    destruct (end_of_epoch out first payload acc best fs) as [b1 fs1].
    specialize (IH (first + 1)%Z payload' acc' b1 fs1).
    cbn [end_of_epochs] in IH.
    destruct (end_of_epoch out (first + 1) payload' acc' b1 fs1)
      as [b2 fs2].
    destruct (end_of_epochs out (first + 1 + 1) rest b2 fs2) as [b3 fs3].
    destruct IH as (c & Hc & He & Hb). exists c.
    split; [exact Hc|]. split; [|exact Hb].
    rewrite He. simpl length. lia.
Qed.

(** X21: resuming from the rolling checkpoint of a run of [n >= 1] epochs, the
    first of which is [first]: training goes on with epoch [first + n] and
    with the best accuracy of the run, whatever [--start-epoch] and the
    value of [best_acc] at the start of the process are. *)
Theorem resume_after_run out first results best fs (dirname : string -> string)
  (a : args) (best0 : R) :
  results <> [] -> resume a = checkpoint_path out ->
  let best' := fst (end_of_epochs out first results best fs) in
  let fs' := snd (end_of_epochs out first results best fs) in
  let next := (first + Z.of_nat (length results))%Z in
  resume_training (load fs') dirname a best0
  = Some ({| start_epoch := next; resume := resume a;
             epochs := epochs a; Main.out := dirname (resume a) |}, best') /\
  epochs_run (load fs') dirname a best0 = Some (range next (epochs a)).
Proof.
  intros Hne Hres. destruct results as [|[payload acc] rest]; [contradiction|].
  pose proof (last_checkpoint out first payload acc rest best fs) as Hlast.
  destruct (end_of_epochs out first ((payload, acc) :: rest) best fs)
    as [b' fs'].
  destruct Hlast as (c & Hc & He & Hb). cbn [fst snd].
  assert (Hrt : resume_training (load fs') dirname a best0
                = Some ({| start_epoch :=
                             first + Z.of_nat (length ((payload, acc) :: rest));
                           resume := resume a; epochs := epochs a;
                           Main.out := dirname (resume a) |}, b')).
  { unfold resume_training. cbn [resume].
    rewrite Hres, checkpoint_path_not_empty.
    unfold load. rewrite Hc. simpl. rewrite He, Hb.
    do 3 f_equal. lia. }
  split; [exact Hrt|].
  unfold epochs_run. rewrite Hrt. reflexivity.
Qed.
End Files.

(** Two epochs with the accuracies 50 and 40, into an empty directory. *)
Lemma resume_after_run_witness :
  let results := [(tt, 50%R); (tt, 40%R)] in
  let a := {| start_epoch := 7; resume := "results/checkpoint.pth.tar";
              epochs := 5; Main.out := "elsewhere" |} in
  results <> [] /\ resume a = checkpoint_path "results" /\
  epochs_run (load (snd (end_of_epochs "results" 0 results 0%R ∅)))
             (fun p => p) a 0%R
  = Some [2; 3; 4]%Z.
Proof.
  intros results a. split; [discriminate|]. split; [reflexivity|].
  destruct (resume_after_run "results" 0 results 0%R ∅ (fun p => p) a 0%R)
    as [_ H]; [discriminate | reflexivity|].
  exact H.
Defined.

Lemma best_file_holds_best_witness :
  let results := [(tt, 50%R); (tt, 40%R)] in
  (0 < fst (end_of_epochs "results" 0 results 0%R ∅))%R /\
  exists c,
    snd (end_of_epochs "results" 0 results 0%R ∅) !! best_path "results"
    = Some c /\
    snap_acc c = fst (end_of_epochs "results" 0 results 0%R ∅).
Proof.
  intros results.
  assert (Hlt : (0 < fst (end_of_epochs "results" 0 results 0%R ∅))%R).
  { pose proof (best_acc_mono "results" (0 + 1) [(tt, 40%R)] (Rmax 50 0)
                  (snd (end_of_epoch "results" 0 tt 50%R 0%R ∅))) as Hm.
    pose proof (Rmax_l 50 0).
    change (fst (end_of_epochs "results" 0 results 0%R ∅))
      with (fst (end_of_epochs "results" (0 + 1) [(tt, 40%R)] (Rmax 50 0)
                   (snd (end_of_epoch "results" 0 tt 50%R 0%R ∅)))).
    lra. }
  split; [exact Hlt|].
  destruct (best_file_holds_best "results" 0 results 0%R ∅) as [H _].
  destruct (H Hlt) as (c & Hc & Hacc & _).
  exists c. split; [exact Hc | exact Hacc].
Defined.

(** The accuracies 50, 40 and 60: the best file holds the third epoch. *)
Example best_file_of_three_epochs :
  let run := end_of_epochs "results" 0
               [(tt, 50%R); (tt, 40%R); (tt, 60%R)] 0%R ∅ in
  fst run = 60%R /\
  snap_epoch <$> snd run !! best_path "results" = Some 3%Z /\
  snap_epoch <$> snd run !! checkpoint_path "results" = Some 3%Z.
Proof.
  cbn [end_of_epochs]. unfold end_of_epoch.
  assert (H1 : Rmax 50 0 = 50%R)
    by (unfold Rmax; destruct (Rle_dec 50 0); lra).
  assert (H2 : Rmax 40 50 = 50%R)
    by (unfold Rmax; destruct (Rle_dec 40 50); lra).
  assert (H3 : Rmax 60 50 = 60%R)
    by (unfold Rmax; destruct (Rle_dec 60 50); lra).
  rewrite H1, H2, H3.
  destruct (Rgt_dec 50 0); [|lra]. destruct (Rgt_dec 40 50); [lra|].
  destruct (Rgt_dec 60 50); [|lra].
  split; [reflexivity|]. split; reflexivity.
Qed.
End CheckpointFacts.

(** *** The parameter groups of the optimizer *)
Module ParamGroupsFacts.
Import ParamGroups.

Lemma prefix_spec (sub s : string) :
  String.prefix sub s = true <-> exists post, s = (sub ++ post)%string.
Proof.
  revert s. induction sub as [|a sub IH]; intros s.
  - destruct s; simpl; (split; [intros _; eexists; reflexivity | reflexivity]).
  - destruct s as [|b s]; simpl.
    + split; [discriminate | intros [post H]; discriminate].
    + destruct (Ascii.ascii_dec a b) as [-> | Hne].
      * rewrite IH. split; intros [post H]; exists post.
        -- rewrite H. reflexivity.
        -- injection H as H. exact H.
      * split; [discriminate|]. intros [post H]. injection H as H1 H2.
        congruence.
Qed.

Lemma contains_eq (sub s : string) :
  contains sub s
  = if String.prefix sub s then true
    else match s with
         | EmptyString => false
         | String _ s' => contains sub s'
         end.
Proof. destruct s; reflexivity. Qed.

(** [contains sub s] holds exactly when [sub] occurs in [s]. *)
Lemma contains_spec (sub s : string) :
  contains sub s = true
  <-> exists pre post, s = (pre ++ sub ++ post)%string.
Proof.
  induction s as [|c s IH]; rewrite contains_eq.
  - destruct (String.prefix sub "") eqn:Hp.
    + split; [intros _|reflexivity].
      apply prefix_spec in Hp. destruct Hp as [post Hp].
      exists ""%string, post. exact Hp.
    + split; [discriminate|]. intros (pre & post & H).
      destruct pre as [|c pre]; [|discriminate]. simpl in H.
      assert (String.prefix sub "" = true)
        by (apply prefix_spec; exists post; exact H).
      congruence.
  - destruct (String.prefix sub (String c s)) eqn:Hp.
    + split; [intros _|reflexivity].
      apply prefix_spec in Hp. destruct Hp as [post Hp].
      exists ""%string, post. exact Hp.
    + rewrite IH. split.
      * intros (pre & post & ->). exists (String c pre), post. reflexivity.
      * intros (pre & post & H). destruct pre as [|c' pre].
        -- simpl in H.
           assert (String.prefix sub (String c s) = true)
             by (apply prefix_spec; exists post; exact H).
           congruence.
        -- injection H as _ H. exists pre, post. exact H.
Qed.

Lemma filter_split {A : Type} (f : A -> bool) (l : list A) :
  List.filter (fun x => negb (f x)) l ++ List.filter f l ≡ₚ l.
Proof.
  induction l as [|x l IH]; simpl; [reflexivity|].
  destruct (f x); simpl.
  - rewrite <- Permutation_middle. constructor. exact IH.
  - constructor. exact IH.
Qed.

Section Groups.
Context {P : Type}.
Implicit Types (named : list (string * P)).

Lemma select_split (cond : string -> bool) named :
  select (fun n => negb (cond n)) named ++ select cond named
  ≡ₚ map snd named.
Proof.
  unfold select. rewrite <- map_app.
  apply Permutation_map.
  apply (filter_split (fun np => cond (fst np))).
Qed.

(** X22: the optimizer gets every parameter of [G] and of [F] in exactly one
    group; the groups of the exempt parameters have no weight decay, and a
    parameter is exempt exactly when [bias] or [bn] occurs in its name. *)
Theorem groups_partition (named_G named_F : list (string * P)) (wdecay : R) :
  exists g1 g2 g3 g4,
    grouped_parameters named_G named_F wdecay = [g1; g2; g3; g4] /\
    params g1 ++ params g2 ≡ₚ map snd named_G /\
    params g3 ++ params g4 ≡ₚ map snd named_F /\
    weight_decay g1 = wdecay /\ weight_decay g2 = 0%R /\
    weight_decay g3 = wdecay /\ weight_decay g4 = 0%R /\
    (forall n p, In (n, p) named_G ->
       if exempt n then In p (params g2) else In p (params g1)) /\
    (forall n p, In (n, p) named_F ->
       if exempt n then In p (params g4) else In p (params g3)) /\
    (forall n, exempt n = true
       <-> exists pre post,
             n = (pre ++ "bias" ++ post)%string
             \/ n = (pre ++ "bn" ++ post)%string).
Proof.
  unfold grouped_parameters. eexists _, _, _, _.
  split; [reflexivity|]. simpl.
  split; [apply select_split|]. split; [apply select_split|].
  repeat (split; [reflexivity|]).
  assert (Hsel : forall named n p, In (n, p) named ->
            if exempt n then In p (select exempt named)
            else In p (select (fun n => negb (exempt n)) named)).
  { intros named n p Hin. unfold select.
    destruct (exempt n) eqn:He; apply in_map_iff; exists (n, p);
      (split; [reflexivity|]); apply filter_In; simpl;
      rewrite He; auto. }
  split; [apply Hsel|]. split; [apply Hsel|].
  intros n. unfold exempt, no_decay. simpl.
  rewrite !orb_true_iff, !contains_spec. split.
  - intros [(pre & post & H) | [(pre & post & H) | H]]; [| |discriminate];
      exists pre, post; auto.
  - intros (pre & post & [H | H]); [left | right; left]; exists pre, post;
      exact H.
Qed.
End Groups.

Lemma groups_partition_witness :
  let named := [("conv1.weight", 1); ("block1.bn1.weight", 2);
                ("fc.bias", 3)]%string in
  In ("fc.bias"%string, 3) named /\
  grouped_parameters named [] 0.0005%R
  = [ {| params := [1]; weight_decay := 0.0005 |};
      {| params := [2; 3]; weight_decay := 0 |};
      {| params := []; weight_decay := 0.0005 |};
      {| params := []; weight_decay := 0 |} ] /\
  In 3 [2; 3].
Proof.
  intros named.
  assert (Hin : In ("fc.bias"%string, 3) named) by (simpl; auto).
  split; [exact Hin|]. split; [reflexivity|].
  destruct (groups_partition named [] 0.0005%R)
    as (g1 & g2 & g3 & g4 & Hg & _ & _ & _ & _ & _ & _ & H & _).
  injection Hg as <- <- <- <-.
  exact (H "fc.bias"%string 3 Hin).
Defined.

(** The test is on substrings: [bn] also occurs in [subnet]. *)
Example exempt_by_accident : exempt "subnet.conv.weight" = true.
Proof. reflexivity. Qed.
End ParamGroupsFacts.
